(** * queue-service: a Redis-backed job queue, its workers and its webhook dispatcher

    Shallow embedding of
      - src/models/job.ts            (module [Job])
      - src/models/queue.ts          (modules [Redis] and [Queue])
      - src/workers/http-task-worker.ts (module [HttpTaskWorker])
      - src/services/webhook-service.ts (module [WebhookService])
      - src/workers/worker.ts        (module [Worker])

    Conventions.
      - A JavaScript [number] that the code uses as a counter, a delay or an
        epoch in milliseconds is a [Z]; the two places that leave the integers
        (the jitter of the two back-off functions) are computed in [Q], with
        [Math.random()] an explicit argument [rnd] with [0 <= rnd < 1].
      - An optional property ([x?: T]) is an [option]; an absent property and a
        property holding [undefined] are both [None].
      - The store is the part of Redis below the prefix [queue:{name}:]; every
        Redis command used by the code is a function of module [Redis].
      - A serialised job record ([JSON.stringify(job.toJSON())], read back with
        [Job.fromJSON(JSON.parse(..))]) is represented by the job it decodes to.
      - Wall-clock readings ([Date.now()], [new Date()]) are arguments. *)

From Stdlib Require Import ZArith QArith Qround Qminmax Qpower Lia Lqa.
From stdpp Require Import gmap strings list fin_maps sorting relations pretty.
From Equations Require Import Equations.

Local Open Scope Z_scope.

(** ** Values of type [any] *)

#[local] Set Warnings "-register-all".

Inductive json : Type :=
| JNull
| JBool (b : bool)
| JNum (n : Z)
| JStr (s : string)
| JArr (items : list json)
| JObj (fields : list (string * json)).

(** ** src/types/index.ts *)

Record JobOptions := mkJobOptions {
  jo_attempts : option Z;
  jo_delay : option Z;
  jo_priority : option Z;
  jo_removeOnComplete : option bool;
  jo_removeOnFail : option bool;
}.

Definition noJobOptions : JobOptions := mkJobOptions None None None None None.

Inductive HttpMethod := POST | PUT | PATCH.

Record WebhookConfig := mkWebhookConfig {
  wh_url : string;
  wh_method : option HttpMethod;
  wh_headers : option (gmap string string);
  wh_timeout : option Z;
  wh_retryAttempts : option Z;
}.

Record QueueOptions := mkQueueOptions {
  concurrency : option Z;
  defaultJobOptions : option JobOptions;
  removeOnComplete : option bool;
  removeOnFail : option bool;
}.

Definition noQueueOptions : QueueOptions := mkQueueOptions None None None None.

Inductive JobStatus := WAITING | ACTIVE | COMPLETED | FAILED | DELAYED | STALLED.

#[global] Instance JobStatus_eq_dec : EqDecision JobStatus.
Proof. solve_decision. Defined.

(** ** src/config/index.ts: the values the modelled code reads *)

Record Config := mkConfig {
  queue_defaultConcurrency : Z;
  webhook_timeout : Z;
  webhook_retryAttempts : Z;
}.

(** The configuration when no environment variable overrides a default. *)
Definition defaultConfig : Config := mkConfig 5 30000 3.

(** JavaScript truthiness of an optional boolean and [x || d] on numbers. *)
Definition truthy (o : option bool) : bool := default false o.

Definition num_or (o : option Z) (d : Z) : Z :=
  match o with
  | Some n => if n =? 0 then d else n
  | None => d
  end.

(** ** src/models/job.ts *)

Module Job.

Record t := mk {
  id : string;
  queueName : string;
  data : json;
  options : JobOptions;
  status : JobStatus;
  progress : option Z;
  result : option json;
  error : option string;
  attempts : Z;
  maxAttempts : Z;
  createdAt : Z;
  processedAt : option Z;
  completedAt : option Z;
  failedAt : option Z;
  webhook : option WebhookConfig;
}.

Definition set_status (st : JobStatus) (j : t) : t :=
  mk (id j) (queueName j) (data j) (options j) st (progress j) (result j)
     (error j) (attempts j) (maxAttempts j) (createdAt j) (processedAt j)
     (completedAt j) (failedAt j) (webhook j).

(** [constructor]: [uuid] is the value of [uuidv4()], [now] of [new Date()]. *)
Definition new_ (uuid : string) (now : Z) (queueName : string) (data : json)
    (options : option JobOptions) (webhook : option WebhookConfig) : t :=
  let opts := default noJobOptions options in
  mk uuid queueName data opts
     (match jo_delay opts with
      | Some d => if 0 <? d then DELAYED else WAITING
      | None => WAITING
      end)
     None None None 0 (num_or (jo_attempts opts) 3) now None None None webhook.

Definition markAsActive (now : Z) (j : t) : t :=
  mk (id j) (queueName j) (data j) (options j) ACTIVE (progress j) (result j)
     (error j) (attempts j) (maxAttempts j) (createdAt j) (Some now)
     (completedAt j) (failedAt j) (webhook j).

Definition markAsCompleted (res : option json) (now : Z) (j : t) : t :=
  mk (id j) (queueName j) (data j) (options j) COMPLETED (progress j) res
     (error j) (attempts j) (maxAttempts j) (createdAt j) (processedAt j)
     (Some now) (failedAt j) (webhook j).

Definition markAsFailed (err : string) (now : Z) (j : t) : t :=
  mk (id j) (queueName j) (data j) (options j) FAILED (progress j) (result j)
     (Some err) (attempts j + 1) (maxAttempts j) (createdAt j) (processedAt j)
     (completedAt j) (Some now) (webhook j).

Definition canRetry (j : t) : bool :=
  (attempts j <? maxAttempts j) && bool_decide (status j = FAILED).

Definition resetForRetry (j : t) : t :=
  if canRetry j then
    mk (id j) (queueName j) (data j) (options j) WAITING (progress j) (result j)
       None (attempts j) (maxAttempts j) (createdAt j) None
       (completedAt j) (failedAt j) (webhook j)
  else j.

Definition updateProgress (p : Z) (j : t) : t :=
  mk (id j) (queueName j) (data j) (options j) (status j)
     (Some (Z.max 0 (Z.min 100 p))) (result j)
     (error j) (attempts j) (maxAttempts j) (createdAt j) (processedAt j)
     (completedAt j) (failedAt j) (webhook j).

Definition getScheduledTime (j : t) : Z :=
  createdAt j + num_or (jo_delay (options j)) 0.

End Job.

(** ** The Redis commands issued by the queue *)

Module Redis.

(** [LPUSH key v] *)
Definition lpush (v : string) (l : list string) : list string := v :: l.

(** [BRPOP key timeout]: the element at the tail, or nothing when the list
    stays empty until the timeout. *)
Fixpoint rpop (l : list string) : option (string * list string) :=
  match l with
  | [] => None
  | x :: l' =>
      match rpop l' with
      | None => Some (x, [])
      | Some (y, r) => Some (y, x :: r)
      end
  end.

(** [LREM key count v] for [count > 0]: the first [n] occurrences from the
    head. *)
Fixpoint lrem_head (v : string) (l : list string) (n : nat) : Z * list string :=
  match l with
  | [] => (0, [])
  | x :: l' =>
      match n with
      | O => (0, l)
      | S n' =>
          if decide (x = v)
          then let '(c, r) := lrem_head v l' n' in (1 + c, r)
          else let '(c, r) := lrem_head v l' n in (c, x :: r)
      end
  end.

(** [LREM key count v]: [count = 0] removes every occurrence, [count < 0]
    counts from the tail.  The result is the number of removed elements and
    the remaining list. *)
Definition lrem (count : Z) (v : string) (l : list string) : Z * list string :=
  if count =? 0 then
    let r := filter (λ x, x ≠ v) l in
    (Z.of_nat (length l) - Z.of_nat (length r), r)
  else if 0 <? count then lrem_head v l (Z.to_nat count)
  else let '(c, r) := lrem_head v (reverse l) (Z.to_nat (- count)) in
       (c, reverse r).

(** Sorted sets: member -> score. *)
Definition zadd (score : Z) (member : string) (z : gmap string Z) : gmap string Z :=
  <[member := score]> z.

Definition zrem (member : string) (z : gmap string Z) : Z * gmap string Z :=
  ((if z !! member is Some _ then 1 else 0), delete member z).

(** Order of a sorted set: by score, ties by member. *)
Definition zorder (a b : string * Z) : Prop :=
  a.2 < b.2 ∨ (a.2 = b.2 ∧ String.leb a.1 b.1 = true).

#[global] Instance zorder_dec : RelDecision zorder.
Proof. intros a b. unfold zorder. apply _. Defined.

(** [ZRANGEBYSCORE key lo hi] *)
Definition zrangebyscore (lo hi : Z) (z : gmap string Z) : list string :=
  (merge_sort zorder
     (filter (λ e : string * Z, lo ≤ e.2 ∧ e.2 ≤ hi) (map_to_list z))).*1.

Definition zcard (z : gmap string Z) : Z := Z.of_nat (size z).

(** Hashes. *)
Definition hdel {V} (k : string) (h : gmap string V) : Z * gmap string V :=
  ((if h !! k is Some _ then 1 else 0), delete k h).

Definition hincrby (field : string) (n : Z) (h : gmap string Z) : gmap string Z :=
  <[field := default 0 (h !! field) + n]> h.

Definition llen (l : list string) : Z := Z.of_nat (length l).

End Redis.

(** ** src/models/queue.ts *)

(** The seven keys of one queue, [queue:{name}:waiting] and so on.  Lists have
    their head on the left, where [LPUSH] writes. *)
Record Store := mkStore {
  waiting : list string;
  active : list string;
  completed : list string;
  failed : list string;
  delayed : gmap string Z;
  jobs : gmap string Job.t;
  stats : gmap string Z;
}.

Definition emptyStore : Store := mkStore [] [] [] [] ∅ ∅ ∅.

Definition with_waiting (l : list string) (s : Store) : Store :=
  mkStore l (active s) (completed s) (failed s) (delayed s) (jobs s) (stats s).
Definition with_active (l : list string) (s : Store) : Store :=
  mkStore (waiting s) l (completed s) (failed s) (delayed s) (jobs s) (stats s).
Definition with_completed (l : list string) (s : Store) : Store :=
  mkStore (waiting s) (active s) l (failed s) (delayed s) (jobs s) (stats s).
Definition with_failed (l : list string) (s : Store) : Store :=
  mkStore (waiting s) (active s) (completed s) l (delayed s) (jobs s) (stats s).
Definition with_delayed (z : gmap string Z) (s : Store) : Store :=
  mkStore (waiting s) (active s) (completed s) (failed s) z (jobs s) (stats s).
Definition with_jobs (h : gmap string Job.t) (s : Store) : Store :=
  mkStore (waiting s) (active s) (completed s) (failed s) (delayed s) h (stats s).
Definition with_stats (h : gmap string Z) (s : Store) : Store :=
  mkStore (waiting s) (active s) (completed s) (failed s) (delayed s) (jobs s) h.

Module Queue.

Record t := mk {
  name : string;
  options : QueueOptions;
}.

(** [constructor]: the defaults, overridden by the properties of [options]
    that are present. *)
Definition new_ (cfg : Config) (name : string) (options : option QueueOptions) : t :=
  let o := default noQueueOptions options in
  mk name
     (mkQueueOptions
        (Some (default (queue_defaultConcurrency cfg) (concurrency o)))
        (defaultJobOptions o)
        (Some (default true (removeOnComplete o)))
        (Some (default false (removeOnFail o)))).

Definition updateStats (field : string) (increment : Z) (s : Store) : Store :=
  with_stats (Redis.hincrby field increment (stats s)) s.

Definition hsetJob (key : string) (job : Job.t) (s : Store) : Store :=
  with_jobs (<[key := job]> (jobs s)) s.

Definition addJob (job : Job.t) (s : Store) : Store :=
  let s := hsetJob (Job.id job) job s in
  let s :=
    if decide (Job.status job = DELAYED)
    then with_delayed (Redis.zadd (Job.getScheduledTime job) (Job.id job) (delayed s)) s
    else with_waiting (Redis.lpush (Job.id job) (waiting s)) s in
  updateStats "totalJobs" 1 s.

(** The body of the loop of [processDelayedJobs]. *)
Definition promote (s : Store) (jobId : string) : Store :=
  let s := with_delayed (Redis.zrem jobId (delayed s)).2 s in
  match jobs s !! jobId with
  | Some job =>
      let s := hsetJob jobId (Job.set_status WAITING job) s in
      with_waiting (Redis.lpush jobId (waiting s)) s
  | None => s
  end.

Definition processDelayedJobs (now : Z) (s : Store) : Store :=
  let readyJobs := Redis.zrangebyscore 0 now (delayed s) in
  foldl promote s readyJobs.

(** [now] is read by [processDelayedJobs], [tActive] by [markAsActive]. *)
Definition getNextJob (now tActive : Z) (s : Store) : option Job.t * Store :=
  let s := processDelayedJobs now s in
  match Redis.rpop (waiting s) with
  | None => (None, s)
  | Some (jobId, rest) =>
      let s := with_waiting rest s in
      match jobs s !! jobId with
      | None => (None, s)
      | Some jobData =>
          let job := Job.markAsActive tActive jobData in
          let s := with_active (Redis.lpush (Job.id job) (active s)) s in
          let s := hsetJob (Job.id job) job s in
          (Some job, s)
      end
  end.

(** The job object is mutated in place: the operation returns it with the
    store. *)
Definition completeJob (q : t) (job : Job.t) (res : option json) (tDone : Z)
    (s : Store) : Job.t * Store :=
  let job := Job.markAsCompleted res tDone job in
  let s := with_active (Redis.lrem 1 (Job.id job) (active s)).2 s in
  let s :=
    if negb (truthy (removeOnComplete (options q)))
    then with_completed (Redis.lpush (Job.id job) (completed s)) s
    else s in
  let s := hsetJob (Job.id job) job s in
  let s :=
    if truthy (removeOnComplete (options q))
    then with_jobs (Redis.hdel (Job.id job) (jobs s)).2 s
    else s in
  (job, updateStats "completedJobs" 1 s).

Definition calculateRetryDelay (rnd : Q) (attempts : Z) : Z :=
  let baseDelay := 1000%Q in
  let maxDelay := 60000%Q in
  let delay := Qmin (baseDelay * (2 ^ attempts))%Q maxDelay in
  let jitter := (rnd * (1 # 10) * delay)%Q in
  Qfloor (delay + jitter)%Q.

(** [tFailed] is read by [markAsFailed], [now] by [Date.now()], [rnd] by
    [Math.random()]. *)
Definition failJob (q : t) (job : Job.t) (error : string) (tFailed now : Z)
    (rnd : Q) (s : Store) : Job.t * Store :=
  let job := Job.markAsFailed error tFailed job in
  let s := with_active (Redis.lrem 1 (Job.id job) (active s)).2 s in
  let '(job, s) :=
    if Job.canRetry job then
      let retryDelay := calculateRetryDelay rnd (Job.attempts job) in
      let executeAt := now + retryDelay in
      let job := Job.set_status DELAYED job in
      (job, with_delayed (Redis.zadd executeAt (Job.id job) (delayed s)) s)
    else
      let s :=
        if negb (truthy (removeOnFail (options q)))
        then with_failed (Redis.lpush (Job.id job) (failed s)) s
        else s in
      (job, updateStats "failedJobs" 1 s) in
  let s := hsetJob (Job.id job) job s in
  let s :=
    if truthy (removeOnFail (options q)) && negb (Job.canRetry job)
    then with_jobs (Redis.hdel (Job.id job) (jobs s)).2 s
    else s in
  (job, s).

Definition getJob (jobId : string) (s : Store) : option Job.t :=
  jobs s !! jobId.

Definition removeJob (jobId : string) (s : Store) : bool * Store :=
  let '(n1, w) := Redis.lrem 0 jobId (waiting s) in
  let '(n2, a) := Redis.lrem 0 jobId (active s) in
  let '(n3, c) := Redis.lrem 0 jobId (completed s) in
  let '(n4, f) := Redis.lrem 0 jobId (failed s) in
  let '(n5, d) := Redis.zrem jobId (delayed s) in
  let '(n6, h) := Redis.hdel jobId (jobs s) in
  let wasRemoved := existsb (λ count, 0 <? count) [n1; n2; n3; n4; n5; n6] in
  (wasRemoved, mkStore w a c f d h (stats s)).

Record QueueStats := mkStats {
  st_waiting : Z; st_active : Z; st_completed : Z; st_failed : Z;
  st_delayed : Z; st_total : Z;
}.

Definition getStats (s : Store) : QueueStats :=
  let w := Redis.llen (waiting s) in
  let a := Redis.llen (active s) in
  let c := Redis.llen (completed s) in
  let f := Redis.llen (failed s) in
  let d := Redis.zcard (delayed s) in
  mkStats w a c f d (w + a + c + f + d).

Definition clean (s : Store) : Store := emptyStore.

End Queue.


(** ** axios, as far as the two HTTP clients use it *)

Module Axios.

Record Request (D : Type) := mkRequest {
  method : HttpMethod;
  url : string;
  data : D;
  headers : gmap string string;
  timeout : Z;
}.
Arguments mkRequest {D}.
Arguments method {D}.
Arguments url {D}.
Arguments data {D}.
Arguments headers {D}.
Arguments timeout {D}.

Record Response := mkResponse {
  status : Z;
  statusText : string;
  rdata : json;
}.

(** What the network does with a request: an HTTP response, or none
    (timeout, refused connection, ...) with the text of the transport error. *)
Inductive NetOutcome :=
| Responded (r : Response)
| NoResponse (message : string).

(** [AxiosError]: [response] is present when the server answered. *)
Record Error := mkError {
  response : option Response;
  message : string;
}.

(** [validateStatus: status => status >= 200 && status < 300] *)
Definition validateStatus (st : Z) : bool := (200 <=? st) && (st <? 300).

(** The promise of [axios(..)]: resolved ([inr]) or rejected ([inl]). *)
Definition settle (o : NetOutcome) : Error + Response :=
  match o with
  | Responded r =>
      if validateStatus (status r) then inr r
      else inl (mkError (Some r)
                  ("Request failed with status code " +:+ pretty (status r)))
  | NoResponse m => inl (mkError None m)
  end.

(** [axiosError.response ? `HTTP ${status}: ${statusText}`
                         : axiosError.message || 'Unknown error'] *)
Definition errorMessage (e : Error) : string :=
  match response e with
  | Some r => "HTTP " +:+ pretty (status r) +:+ ": " +:+ statusText r
  | None => if decide (message e = EmptyString) then "Unknown error" else message e
  end.

End Axios.

(** ** src/workers/http-task-worker.ts *)

Module HttpTaskWorker.

Record HttpTaskPayload := mkPayload {
  url : string;
  method : option HttpMethod;
  headers : option (gmap string string);
  body : json;
  timeout : option Z;
}.

(** The object literal of [makeHttpRequest] before the spread of
    [httpTask.headers]. *)
Definition ownHeaders (job : Job.t) : gmap string string :=
  <["Content-Type" := "application/json"]>
  (<["User-Agent" := "Queue-Service-HttpWorker/1.0"]>
  (<["X-Queue-Service-Job-Id" := Job.id job]>
  (<["X-Queue-Service-Attempt" := pretty (Job.attempts job)]>
  (<["X-Queue-Service-Max-Attempts" := pretty (Job.maxAttempts job)]> ∅)))).

(** [{ ..., ...httpTask.headers }]: the properties of the spread object are
    written last, so they win; stdpp's union prefers its left operand. *)
Definition requestOf (httpTask : HttpTaskPayload) (job : Job.t) : Axios.Request json :=
  let method := default POST (method httpTask) in
  let timeout := num_or (timeout httpTask) 30000 in
  let headers := default ∅ (headers httpTask) ∪ ownHeaders job in
  Axios.mkRequest method (url httpTask) (body httpTask) headers timeout.

(** [net] is what the network answers to the request. *)
Definition makeHttpRequest (net : Axios.Request json → Axios.NetOutcome)
    (httpTask : HttpTaskPayload) (job : Job.t)
    : Axios.Request json * (Axios.Error + Axios.Response) :=
  let req := requestOf httpTask job in
  (req, Axios.settle (net req)).

End HttpTaskWorker.

(** ** The world of a worker that has leased one job

    The worker holds a reference to one [Job] object ([w_job]) and talks to
    Redis ([w_store]), to the clock, to the logger and, through axios, to the
    network.  [w_sent] lists the webhook requests issued so far, oldest first. *)

Inductive WebhookEvent := JobCompletedEvent | JobFailedEvent.

Record PayloadJob := mkPayloadJob {
  pj_id : string;
  pj_queueName : string;
  pj_status : JobStatus;
  pj_data : json;
  pj_result : option json;
  pj_error : option string;
  pj_attempts : Z;
  pj_maxAttempts : Z;
  pj_createdAt : Z;
  pj_processedAt : option Z;
  pj_completedAt : option Z;
  pj_failedAt : option Z;
}.

Record WebhookInfo := mkWebhookInfo {
  wi_attempt : Z;
  wi_maxAttempts : Z;
}.

(** [interface WebhookPayload] *)
Record WebhookPayload := mkWebhookPayload {
  wp_event : WebhookEvent;
  wp_job : PayloadJob;
  wp_timestamp : Z;
  wp_webhook : WebhookInfo;
}.

(** The object [{ ...payload, attempt, maxAttempts }] that [executeWithRetry]
    hands to axios as the body: the four properties of the payload and two
    more at the top level. *)
Record WebhookBody := mkWebhookBody {
  wb_event : WebhookEvent;
  wb_job : PayloadJob;
  wb_timestamp : Z;
  wb_webhook : WebhookInfo;
  wb_attempt : Z;
  wb_maxAttempts : Z;
}.

Inductive LogLevel := LInfo | LWarn | LError.

Record World := mkWorld {
  w_store : Store;
  w_job : Job.t;
  w_clock : Z;
  w_sent : list (Axios.Request WebhookBody);
  w_log : list (LogLevel * string);
  w_draws : nat;
}.

(** What the surroundings decide: the answer and the latency of the i-th
    webhook request, and the i-th value of [Math.random()]. *)
Record Env := mkEnv {
  net : nat → Axios.Request WebhookBody → Axios.NetOutcome;
  latency : nat → Z;
  random : nat → Q;
}.

Definition M (A : Type) : Type := World → A * World.

#[global] Instance M_ret : MRet M := λ A x w, (x, w).
#[global] Instance M_bind : MBind M :=
  λ A B f m w, let '(x, w') := m w in f x w'.

Definition dateNow : M Z := λ w, (w_clock w, w).

Definition logger (lvl : LogLevel) (msg : string) : M unit := λ w,
  (tt, mkWorld (w_store w) (w_job w) (w_clock w) (w_sent w)
         (w_log w ++ [(lvl, msg)]) (w_draws w)).

Definition sleep (ms : Z) : M unit := λ w,
  (tt, mkWorld (w_store w) (w_job w) (w_clock w + Z.max 0 ms) (w_sent w)
         (w_log w) (w_draws w)).

Definition mathRandom (env : Env) : M Q := λ w,
  (random env (w_draws w),
   mkWorld (w_store w) (w_job w) (w_clock w) (w_sent w) (w_log w)
     (S (w_draws w))).

Definition axios (env : Env) (req : Axios.Request WebhookBody)
    : M (Axios.Error + Axios.Response) := λ w,
  let i := length (w_sent w) in
  (Axios.settle (net env i req),
   mkWorld (w_store w) (w_job w) (w_clock w + Z.max 0 (latency env i))
     (w_sent w ++ [req]) (w_log w) (w_draws w)).

Definition theJob : M Job.t := λ w, (w_job w, w).

(** ** src/services/webhook-service.ts *)

Module WebhookService.

Record WebhookResult := mkResult {
  success : bool;
  statusCode : option Z;
  responseData : option json;
  error : option string;
  duration : Z;
  attempt : Z;
}.

Record t := mk {
  maxRetries : Z;
  timeout : Z;
}.

Definition new_ (cfg : Config) : t :=
  mk (webhook_retryAttempts cfg) (webhook_timeout cfg).

Definition makeHttpRequest (env : Env) (svc : t) (webhookConfig : WebhookConfig)
    (payload : WebhookBody) : M (Axios.Error + Axios.Response) :=
  let method := default POST (wh_method webhookConfig) in
  let timeout := num_or (wh_timeout webhookConfig) (timeout svc) in
  let headers :=
    default ∅ (wh_headers webhookConfig) ∪
    (<["Content-Type" := "application/json"]>
     (<["User-Agent" := "Queue-Service-Webhook/1.0"]> ∅)) in
  axios env (Axios.mkRequest method (wh_url webhookConfig) payload headers timeout).

(** [createPayload] reads the job object and the clock. *)
Definition createPayload (svc : t) (event : WebhookEvent) (attempt : Z)
    : M WebhookPayload :=
  job ← theJob;
  now ← dateNow;
  mret (mkWebhookPayload event
          (mkPayloadJob (Job.id job) (Job.queueName job) (Job.status job)
             (Job.data job) (Job.result job) (Job.error job) (Job.attempts job)
             (Job.maxAttempts job) (Job.createdAt job) (Job.processedAt job)
             (Job.completedAt job) (Job.failedAt job))
          now
          (mkWebhookInfo attempt (maxRetries svc))).

(** [Math.round(x)] *)
Definition mathRound (x : Q) : Z := Qfloor (x + (1 # 2))%Q.

Definition calculateRetryDelay (rnd : Q) (attempt : Z) : Z :=
  let baseDelay := 1000%Q in
  let maxDelay := 30000%Q in
  let delay := Qmin (baseDelay * (2 ^ (attempt - 1)))%Q maxDelay in
  let jitter := (delay * (1 # 4) * (rnd * 2 - 1))%Q in
  mathRound (delay + jitter)%Q.

(** One pass through the [try] block of [executeWithRetry]: the request is
    sent; the outcome is the result to return, or the error caught. *)
Definition attemptOnce (env : Env) (svc : t) (webhookConfig : WebhookConfig)
    (payload : WebhookPayload) (attempt maxAttempts : Z)
    : M (Z * (Axios.Error + WebhookResult)) :=
  startTime ← dateNow;
  _ ← logger LInfo ("Executing webhook attempt " +:+ pretty attempt +:+ "/"
                     +:+ pretty maxAttempts);
  let webhookPayload :=
    mkWebhookBody (wp_event payload) (wp_job payload) (wp_timestamp payload)
      (wp_webhook payload) attempt maxAttempts in
  r ← makeHttpRequest env svc webhookConfig webhookPayload;
  match r with
  | inr response =>
      t1 ← dateNow;
      let duration := t1 - startTime in
      _ ← logger LInfo "Webhook executed successfully";
      mret (startTime,
            inr (mkResult true (Some (Axios.status response))
                   (Some (Axios.rdata response)) None duration attempt))
  | inl axiosError => mret (startTime, inl axiosError)
  end.

(** [executeWithRetry]: the recursion is on the attempts that remain. *)
Equations? executeWithRetry (env : Env) (svc : t) (webhookConfig : WebhookConfig)
    (payload : WebhookPayload) (attempt maxAttempts : Z) (w : World)
    : WebhookResult * World by wf (Z.to_nat (maxAttempts - attempt)) lt :=
executeWithRetry env svc webhookConfig payload attempt maxAttempts w
  with attemptOnce env svc webhookConfig payload attempt maxAttempts w := {
  | ((_, inr result), w1) => (result, w1)
  | ((startTime, inl axiosError), w1) with decide (attempt < maxAttempts) := {
    | left _ =>
        let '(rnd, w2) :=
          (t1 ← dateNow;
           _ ← logger LWarn ("Webhook attempt " +:+ pretty attempt +:+ " failed");
           mathRandom env) w1 in
        let delay := calculateRetryDelay rnd attempt in
        let '(_, w3) :=
          (_ ← logger LInfo ("Webhook failed, retrying in " +:+ pretty delay
                             +:+ "ms (attempt " +:+ pretty attempt +:+ "/"
                             +:+ pretty maxAttempts +:+ ")");
           sleep delay) w2 in
        executeWithRetry env svc webhookConfig payload (attempt + 1) maxAttempts w3
    | right _ =>
        (t1 ← dateNow;
         let duration := t1 - startTime in
         let errorMessage := Axios.errorMessage axiosError in
         _ ← logger LWarn ("Webhook attempt " +:+ pretty attempt +:+ " failed");
         _ ← logger LError ("Webhook failed after " +:+ pretty maxAttempts
                            +:+ " attempts");
         mret (mkResult false (Axios.status <$> Axios.response axiosError) None
                 (Some errorMessage) duration attempt)) w1 } }.
Proof. lia. Qed.

Definition executeWebhook (env : Env) (svc : t) (event : WebhookEvent)
    (webhookConfig : WebhookConfig) : M WebhookResult :=
  payload ← createPayload svc event 1;
  executeWithRetry env svc webhookConfig payload 1
    (num_or (wh_retryAttempts webhookConfig) (maxRetries svc)).

End WebhookService.

(** ** src/workers/worker.ts *)

Module Worker.

(** A registered [ProcessorFunction]: the value it resolves to, or the
    message of what it throws. *)
Definition Processor : Type := Job.t → string + option json.

Definition completeJob (q : Queue.t) (res : option json) : M unit := λ w,
  let '(job, s) := Queue.completeJob q (w_job w) res (w_clock w) (w_store w) in
  (tt, mkWorld s job (w_clock w) (w_sent w) (w_log w) (w_draws w)).

(** [Math.random()] is drawn in the retry branch only. *)
Definition failJob (env : Env) (q : Queue.t) (errorMessage : string) : M unit := λ w,
  let '(job, s) :=
    Queue.failJob q (w_job w) errorMessage (w_clock w) (w_clock w)
      (random env (w_draws w)) (w_store w) in
  let draws :=
    if Job.canRetry (Job.markAsFailed errorMessage (w_clock w) (w_job w))
    then S (w_draws w) else w_draws w in
  (tt, mkWorld s job (w_clock w) (w_sent w) (w_log w) draws).

Definition executeWebhook (env : Env) (svc : WebhookService.t)
    (event : WebhookEvent) : M unit :=
  job ← theJob;
  match Job.webhook job with
  | None => mret tt
  | Some webhookConfig =>
      _ ← logger LInfo ("Executing webhook for job " +:+ Job.id job);
      result ← WebhookService.executeWebhook env svc event webhookConfig;
      if WebhookService.success result
      then logger LInfo ("Webhook executed successfully for job " +:+ Job.id job)
      else logger LError ("Webhook failed for job " +:+ Job.id job)
  end.

Definition processJob (env : Env) (svc : WebhookService.t) (q : Queue.t)
    (processor : Processor) : M unit :=
  job ← theJob;
  _ ← logger LInfo ("Processing job " +:+ Job.id job +:+ " in queue "
                     +:+ Queue.name q);
  match processor job with
  | inr result =>
      _ ← completeJob q result;
      _ ← logger LInfo ("Job " +:+ Job.id job +:+ " completed successfully");
      job ← theJob;
      if Job.webhook job is Some _
      then executeWebhook env svc JobCompletedEvent
      else mret tt
  | inl errorMessage =>
      _ ← logger LError ("Job " +:+ Job.id job +:+ " failed");
      _ ← failJob env q errorMessage;
      job ← theJob;
      if Job.webhook job is Some _
      then (if negb (Job.canRetry job)
            then executeWebhook env svc JobFailedEvent
            else mret tt)
      else mret tt
  end.

End Worker.

(** ** The queue and its clients

    The clients of one queue, as the service wires them: the REST surface adds
    jobs built by [new Job(..)] from the options of the request, whatever
    they are (QueueManager.addJob; the route POST /queues/:queueName/jobs
    runs no validation), and removes jobs by id; a worker leases a job with
    [getNextJob] and hands exactly that job to [completeJob] or [failJob]
    (Worker.processJob, HttpTaskWorker.processHttpTask); the sweeper calls
    [processDelayedJobs]; the retry endpoints of the REST surface
    (JobController.retryJob, TaskController.retryTask) read a record with
    [getJob] and, when [canRetry] holds of it, add it again after
    [resetForRetry]; the queue controller cleans the queue.

    [step] is one operation run from its first Redis command to its last
    with no command of another operation in between, and [reachable] the
    states of the runs in which no two operations overlap.  The service does
    not keep operations apart: [Worker.start] runs [concurrency] consumers
    beside a sweeper, and their commands interleave at every [await].
    [cstep] below adds the overlap of sweeps; a statement over [reachable]
    is a statement about runs without overlap and says so. *)


Record Sys := mkSys {
  store : Store;
  leased : list Job.t;        (* jobs out with a worker *)
  issued : gset string;       (* the uuids handed out so far *)
}.

Definition initSys : Sys := mkSys emptyStore [] ∅.

Inductive step (q : Queue.t) : Sys → Sys → Prop :=
| step_add s uuid now data options webhook :
    uuid ∉ issued s →
    step q s
      (mkSys (Queue.addJob (Job.new_ uuid now (Queue.name q) data options webhook)
                (store s))
         (leased s) ({[uuid]} ∪ issued s))
| step_next s now tActive :
    step q s
      (mkSys (Queue.getNextJob now tActive (store s)).2
         (match (Queue.getNextJob now tActive (store s)).1 with
          | Some job => job :: leased s
          | None => leased s
          end)
         (issued s))
| step_complete s l1 job l2 res tDone :
    leased s = l1 ++ job :: l2 →
    step q s
      (mkSys (Queue.completeJob q job res tDone (store s)).2 (l1 ++ l2) (issued s))
| step_fail s l1 job l2 error tFailed now rnd :
    leased s = l1 ++ job :: l2 →
    step q s
      (mkSys (Queue.failJob q job error tFailed now rnd (store s)).2 (l1 ++ l2)
         (issued s))
| step_retry s jobId job :
    Queue.getJob jobId (store s) = Some job →
    Job.canRetry job = true →
    step q s
      (mkSys (Queue.addJob (Job.resetForRetry job) (store s)) (leased s) (issued s))
| step_promote s now :
    step q s (mkSys (Queue.processDelayedJobs now (store s)) (leased s) (issued s))
| step_remove s jobId :
    step q s (mkSys (Queue.removeJob jobId (store s)).2 (leased s) (issued s))
| step_clean s :
    step q s (mkSys (Queue.clean (store s)) (leased s) (issued s)).

Definition reachable (q : Queue.t) (s : Sys) : Prop := rtc (step q) initSys s.


(** Queue operations applied in sequence to a store, by any caller. *)
Inductive Op :=
| OpAdd (job : Job.t)
| OpNext (now tActive : Z)
| OpComplete (job : Job.t) (res : option json) (tDone : Z)
| OpFail (job : Job.t) (error : string) (tFailed now : Z) (rnd : Q)
| OpPromote (now : Z)
| OpRemove (jobId : string)
| OpClean.

(** The store after the operation, and the job [getNextJob] returned. *)
Definition runOp (q : Queue.t) (o : Op) (s : Store) : option Job.t * Store :=
  match o with
  | OpAdd job => (None, Queue.addJob job s)
  | OpNext now tActive => Queue.getNextJob now tActive s
  | OpComplete job res tDone => (None, (Queue.completeJob q job res tDone s).2)
  | OpFail job error tFailed now rnd =>
      (None, (Queue.failJob q job error tFailed now rnd s).2)
  | OpPromote now => (None, Queue.processDelayedJobs now s)
  | OpRemove jobId => (None, (Queue.removeJob jobId s).2)
  | OpClean => (None, Queue.clean s)
  end.

(** The jobs returned by the calls of [getNextJob] in a run, and the final
    store. *)
Fixpoint runOps (q : Queue.t) (ops : list Op) (s : Store) : list Job.t * Store :=
  match ops with
  | [] => ([], s)
  | o :: ops' =>
      let '(r, s1) := runOp q o s in
      let '(rs, s2) := runOps q ops' s1 in
      (match r with Some job => job :: rs | None => rs end, s2)
  end.


(** Every record of the hash is stored under its own id. *)
Definition keyed (s : Store) : Prop :=
  ∀ k job, jobs s !! k = Some job → Job.id job = k.

(** ** Vocabulary of the statements *)

(** [l'] is [l] without the first occurrence of [v], if there is one. *)
Definition removes_first (v : string) (l l' : list string) : Prop :=
  ((v ∉ l) ∧ l' = l) ∨
  (∃ l1 l2, l = l1 ++ v :: l2 ∧ (v ∉ l1) ∧ l' = l1 ++ l2).

(** The capped exponential part of the two back-off delays. *)
Definition queueBase (attempts : Z) : Z := Z.min (1000 * 2 ^ attempts) 60000.
Definition webhookBase (attempt : Z) : Z := Z.min (1000 * 2 ^ (attempt - 1)) 30000.

(** The bounds the specification gives for the n-th retry delay [d]. *)
Definition spec_backoff_bounds (base cap n d : Z) : Prop :=
  (inject_Z (base * 2 ^ (n - 1)) * (9 # 10) <= inject_Z d)%Q ∧
  (inject_Z d <= inject_Z (Z.min (base * 2 ^ n) cap) * (11 # 10))%Q.

(** The same bounds with the exponential capped on both sides and the
    jitter factors [lo] and [hi] of the component. *)
Definition capped_backoff_bounds (base cap : Z) (lo hi : Q) (n d : Z) : Prop :=
  (inject_Z (Z.min (base * 2 ^ (n - 1)) cap) * lo <= inject_Z d)%Q ∧
  (inject_Z d <= inject_Z (Z.min (base * 2 ^ n) cap) * hi)%Q.

(** A queue built without retention options. *)
Definition noRetentionOptions (o : option QueueOptions) : Prop :=
  match o with
  | None => True
  | Some opts => removeOnComplete opts = None ∧ removeOnFail opts = None
  end.

(** Sample data for the closed examples. *)
Definition sampleJob : Job.t :=
  Job.markAsActive 5 (Job.new_ "job-1" 0 "mail" JNull None None).

Definition sampleQueue : Queue.t := Queue.new_ defaultConfig "mail" None.

Definition spoofedTask : HttpTaskWorker.HttpTaskPayload :=
  HttpTaskWorker.mkPayload "http://echo/ok" None
    (Some {["X-Queue-Service-Job-Id" := "someone-else"]}) JNull None.

Definition plainTask : HttpTaskWorker.HttpTaskPayload :=
  HttpTaskWorker.mkPayload "http://echo/ok" None None JNull None.

Definition alwaysOk (_ : Axios.Request json) : Axios.NetOutcome :=
  Axios.Responded (Axios.mkResponse 200 "OK" JNull).

(** A job that failed for good, with a webhook that asks for two tries, and
    a network that always answers 500. *)
Definition twoTries : WebhookConfig :=
  mkWebhookConfig "http://hook/" None None None (Some 2).

Definition failedJob : Job.t :=
  Job.markAsFailed "boom" 9
    (Job.markAsActive 5
       (Job.new_ "job-2" 0 "mail" JNull
          (Some (mkJobOptions (Some 1) None None None None)) (Some twoTries))).

Definition always500 : Env :=
  mkEnv (λ _ _, Axios.Responded (Axios.mkResponse 500 "Internal Server Error" JNull))
        (λ _, 20) (λ _, 1 # 2).

Definition sampleWorld : World :=
  mkWorld (with_failed ["job-2"] (Queue.hsetJob "job-2" failedJob emptyStore))
    failedJob 10 [] [] 0.

(** The bodies of the webhook requests sent so far. *)
Definition bodies (w : World) : list WebhookBody := Axios.data <$> w_sent w.

(** What holds of every state reached by operations that do not overlap. *)
Record Inv (s : Sys) : Prop := mkInv {
  inv_waiting_nodup : NoDup (waiting (store s));
  inv_active_nodup : NoDup (active (store s));
  inv_waiting_active : ∀ x, x ∈ waiting (store s) → x ∉ active (store s);
  inv_waiting_delayed : ∀ x, x ∈ waiting (store s) → delayed (store s) !! x = None;
  inv_active_delayed : ∀ x, x ∈ active (store s) → delayed (store s) !! x = None;
  inv_leased_nodup : NoDup (Job.id <$> leased s);
  inv_leased_waiting : ∀ j, j ∈ leased s → Job.id j ∉ waiting (store s);
  inv_leased_delayed : ∀ j, j ∈ leased s → delayed (store s) !! Job.id j = None;
  inv_issued_waiting : ∀ x, x ∈ waiting (store s) → x ∈ issued s;
  inv_issued_active : ∀ x, x ∈ active (store s) → x ∈ issued s;
  inv_issued_delayed : ∀ x, is_Some (delayed (store s) !! x) → x ∈ issued s;
  inv_issued_leased : ∀ j, j ∈ leased s → Job.id j ∈ issued s;
  inv_keyed : keyed (store s);
  inv_record_attempts : ∀ k j, jobs (store s) !! k = Some j →
    0 ≤ Job.attempts j ∧ (0 < Job.maxAttempts j → Job.attempts j ≤ Job.maxAttempts j);
  inv_pending_attempts : ∀ k j, jobs (store s) !! k = Some j →
    k ∈ waiting (store s) ∨ is_Some (delayed (store s) !! k) →
    0 < Job.maxAttempts j → Job.attempts j < Job.maxAttempts j;
  inv_leased_attempts : ∀ j, j ∈ leased s →
    0 ≤ Job.attempts j ∧ (0 < Job.maxAttempts j → Job.attempts j < Job.maxAttempts j);
  inv_no_retry : ∀ k j, jobs (store s) !! k = Some j → Job.canRetry j = false;
}.

(** A short run: a job is added, leased and failed once. *)
Definition sysAdded : Sys :=
  mkSys (Queue.addJob (Job.new_ "job-1" 0 (Queue.name sampleQueue) JNull None None)
           (store initSys))
    (leased initSys) ({["job-1"]} ∪ issued initSys).

Definition sysLeased : Sys :=
  mkSys (Queue.getNextJob 1 2 (store sysAdded)).2
    (match (Queue.getNextJob 1 2 (store sysAdded)).1 with
     | Some job => job :: leased sysAdded
     | None => leased sysAdded
     end)
    (issued sysAdded).

Definition leasedJob : Job.t :=
  Job.markAsActive 2 (Job.new_ "job-1" 0 "mail" JNull None None).

Definition sysFailed : Sys :=
  mkSys (Queue.failJob sampleQueue leasedJob "boom" 3 4 (1 # 2) (store sysLeased)).2
    ([] ++ []) (issued sysLeased).

(** The store [removeJob] of "job-1" is applied to in the example of C8, and
    operations that follow it. *)
Definition storeWithJob : Store :=
  Queue.addJob (Job.new_ "job-1" 0 "mail" JNull None None)
    (Queue.addJob (Job.new_ "job-0" 0 "mail" JNull None None) emptyStore).

Definition opsAfterRemove : list Op :=
  [OpPromote 5; OpNext 6 7; OpComplete leasedJob None 8; OpNext 9 10].



(** [Worker.processJob] with its two webhook dispatches left out: what the
    worker does to the job and to the queue. *)
Definition settleJob (env : Env) (q : Queue.t) (processor : Worker.Processor)
    : M unit :=
  job ← theJob;
  _ ← logger LInfo ("Processing job " +:+ Job.id job +:+ " in queue "
                     +:+ Queue.name q);
  match processor job with
  | inr result =>
      _ ← Worker.completeJob q result;
      logger LInfo ("Job " +:+ Job.id job +:+ " completed successfully")
  | inl errorMessage =>
      _ ← logger LError ("Job " +:+ Job.id job +:+ " failed");
      Worker.failJob env q errorMessage
  end.

(** A store with one delayed job that is due. *)
Definition storeDue : Store :=
  Queue.addJob
    (Job.new_ "job-1" 0 "mail" JNull
       (Some (mkJobOptions None (Some 3) None None None)) None)
    emptyStore.

(** ** Vocabulary of the further statements *)

(** The id is in [delayed] with a score that [processDelayedJobs] picks up at
    [now]. *)
Definition due (now : Z) (s : Store) (x : string) : Prop :=
  ∃ sc, delayed s !! x = Some sc ∧ 0 ≤ sc ∧ sc ≤ now.

(** Jobs added one after the other, and [n] calls of [getNextJob]. *)
Definition addAll (js : list Job.t) (s : Store) : Store :=
  foldl (λ s job, Queue.addJob job s) s js.

Definition nextN (n : nat) (now tActive : Z) : list Op :=
  replicate n (OpNext now tActive).

Definition jobA : Job.t := Job.new_ "a" 0 "mail" JNull None None.
Definition jobB : Job.t := Job.new_ "b" 1 "mail" JNull None None.

(** The id is in one of the structures of the queue or has a record. *)
Definition present (jobId : string) (s : Store) : Prop :=
  jobId ∈ waiting s ∨ jobId ∈ active s ∨ jobId ∈ completed s ∨
  jobId ∈ failed s ∨ is_Some (delayed s !! jobId) ∨ is_Some (jobs s !! jobId).

(** A queue that removes failed jobs. *)
Definition dropQueue : Queue.t :=
  Queue.new_ defaultConfig "mail" (Some (mkQueueOptions None None None (Some true))).

(** The record of an id agrees with the structure that holds the id. *)
Record Filed (s : Sys) : Prop := mkFiled {
  filed_waiting : ∀ x, x ∈ waiting (store s) →
    Job.status <$> jobs (store s) !! x = Some WAITING;
  filed_active : ∀ x, x ∈ active (store s) →
    Job.status <$> jobs (store s) !! x = Some ACTIVE;
  filed_delayed : ∀ x job, is_Some (delayed (store s) !! x) →
    jobs (store s) !! x = Some job → Job.status job = DELAYED;
}.

(** ** src/controllers/job-controller.ts, src/controllers/task-controller.ts

    [retryJob] and [retryTask] on the queue the request names, once the queue
    is found: the HTTP status of the reply and the store afterwards. *)

Module JobController.

Definition retryJob (jobId : string) (s : Store) : Z * Store :=
  match Queue.getJob jobId s with
  | None => (404, s)
  | Some job =>
      if negb (Job.canRetry job) then (400, s)
      else
        let job := Job.resetForRetry job in
        (200, Queue.addJob job s)
  end.

End JobController.

(** The request [makeHttpRequest] of the webhook service hands to axios for
    the try numbered [attempt] of a dispatch of [payload]. *)
Definition dispatchRequest (svc : WebhookService.t) (webhookConfig : WebhookConfig)
    (payload : WebhookPayload) (maxAttempts attempt : Z) : Axios.Request WebhookBody :=
  Axios.mkRequest
    (default POST (wh_method webhookConfig))
    (wh_url webhookConfig)
    (mkWebhookBody (wp_event payload) (wp_job payload) (wp_timestamp payload)
       (wp_webhook payload) attempt maxAttempts)
    (default ∅ (wh_headers webhookConfig) ∪
     (<["Content-Type" := "application/json"]>
      (<["User-Agent" := "Queue-Service-Webhook/1.0"]> ∅)))
    (num_or (wh_timeout webhookConfig) (WebhookService.timeout svc)).

(** The promise of the [i]-th request of the run resolves. *)
Definition accepted (env : Env) (i : nat) (req : Axios.Request WebhookBody) : bool :=
  if Axios.settle (net env i req) is inr _ then true else false.

(** The payload [createPayload] builds in world [w]. *)
Definition snapshot (svc : WebhookService.t) (event : WebhookEvent) (w : World)
    : WebhookPayload :=
  (WebhookService.createPayload svc event 1 w).1.


(** A world for the examples on [Worker.processJob]: a leased job with a
    webhook and two attempts, and a processor that throws. *)
Definition hookedJob : Job.t :=
  Job.markAsActive 5
    (Job.new_ "job-3" 0 "mail" JNull
       (Some (mkJobOptions (Some 2) None None None None)) (Some twoTries)).

Definition hookedWorld : World :=
  mkWorld (with_active ["job-3"] (Queue.hsetJob "job-3" hookedJob emptyStore))
    hookedJob 10 [] [] 0.

Definition throwing : Worker.Processor := λ _, inl "boom".

Definition returning : Worker.Processor := λ _, inr (Some (JNum 7)).

(** ** src/workers/http-task-worker.ts: [processHttpTask]

    [httpTask] is [job.data] read as an [HttpTaskPayload]; [startTime] and
    [tAnswer] are the readings of [Date.now()] before the request and after
    its outcome, [tSettled] the [new Date()] of [markAsCompleted] or
    [markAsFailed], [now] and [rnd] the [Date.now()] and [Math.random()] of
    [failJob]. *)
Definition processHttpTask (q : Queue.t) (net : Axios.Request json → Axios.NetOutcome)
    (httpTask : HttpTaskWorker.HttpTaskPayload) (job : Job.t)
    (startTime tAnswer tSettled now : Z) (rnd : Q) (s : Store) : Job.t * Store :=
  match (HttpTaskWorker.makeHttpRequest net httpTask job).2 with
  | inr response =>
      let processingTime := tAnswer - startTime in
      Queue.completeJob q job
        (Some (JObj [("statusCode", JNum (Axios.status response));
                     ("responseData", Axios.rdata response);
                     ("duration", JNum processingTime)]))
        tSettled s
  | inl axiosError =>
      Queue.failJob q job (Axios.errorMessage axiosError) tSettled now rnd s
  end.

(** A counter of the stats hash, and what one operation adds to it. *)
Definition counter (field : string) (s : Store) : Z := default 0 (stats s !! field).

Definition tally (field : string) (o : Op) : Z :=
  match o with
  | OpAdd _ => if decide (field = "totalJobs") then 1 else 0
  | OpComplete _ _ _ => if decide (field = "completedJobs") then 1 else 0
  | OpFail job _ _ _ _ =>
      if decide (field = "failedJobs")
      then (if Job.attempts job + 1 <? Job.maxAttempts job then 0 else 1)
      else 0
  | _ => 0
  end.

Definition notClean (o : Op) : Prop :=
  match o with OpClean => False | _ => True end.

(** An endpoint that answers 404, and one that does not answer. *)
Definition notFound (_ : Axios.Request json) : Axios.NetOutcome :=
  Axios.Responded (Axios.mkResponse 404 "Not Found" JNull).

Definition silent (_ : Axios.Request json) : Axios.NetOutcome :=
  Axios.NoResponse "timeout of 30000ms exceeded".

(** [Job.isReadyToProcess] of src/models/job.ts; [now] is the value of
    [new Date()]. *)
Definition isReadyToProcess (now : Z) (j : Job.t) : bool :=
  if negb (bool_decide (Job.status j = DELAYED))
  then bool_decide (Job.status j = WAITING)
  else
    let delay := num_or (jo_delay (Job.options j)) 0 in
    let readyTime := Job.createdAt j + delay in
    readyTime <=? now.

(** ** src/models/job.ts: [toJSON] and [fromJSON]

    The object [toJSON] returns, as it comes back from [JSON.stringify] and
    [JSON.parse]: a property whose value was [undefined] is absent; an ISO
    date string is modelled by the instant it denotes. *)
Record JobJSON := mkJobJSON {
  json_id : string;
  json_queueName : string;
  json_data : json;
  json_options : JobOptions;
  json_status : JobStatus;
  json_progress : option Z;
  json_result : option json;
  json_error : option string;
  json_attempts : Z;
  json_maxAttempts : Z;
  json_createdAt : Z;
  json_processedAt : option Z;
  json_completedAt : option Z;
  json_failedAt : option Z;
  json_webhook : option WebhookConfig;
}.

Definition toJSON (j : Job.t) : JobJSON :=
  mkJobJSON (Job.id j) (Job.queueName j) (Job.data j) (Job.options j)
    (Job.status j) (Job.progress j) (Job.result j) (Job.error j)
    (Job.attempts j) (Job.maxAttempts j) (Job.createdAt j) (Job.processedAt j)
    (Job.completedAt j) (Job.failedAt j) (Job.webhook j).

(** [fromJSON] runs the constructor, which draws a uuid and reads the clock,
    and then assigns the properties of the parsed object. *)
Definition fromJSON (uuid : string) (now : Z) (o : JobJSON) : Job.t :=
  let job :=
    Job.new_ uuid now (json_queueName o) (json_data o) (Some (json_options o))
      (json_webhook o) in
  Job.mk (json_id o) (Job.queueName job) (Job.data job) (Job.options job)
    (json_status o) (json_progress o) (json_result o) (json_error o)
    (json_attempts o) (json_maxAttempts o) (json_createdAt o)
    (if json_processedAt o is Some t then Some t else Job.processedAt job)
    (if json_completedAt o is Some t then Some t else Job.completedAt job)
    (if json_failedAt o is Some t then Some t else Job.failedAt job)
    (Job.webhook job).

(** ** src/config/index.ts: [validateConfig]

    [env] is [process.env] after [dotenv.config()]. *)
Definition env_or (env : gmap string string) (key fallback : string) : string :=
  match env !! key with
  | Some v => if decide (v = EmptyString) then fallback else v
  | None => fallback
  end.

Definition config_redis_host (env : gmap string string) : string :=
  env_or env "REDIS_HOST" "localhost".

Definition config_auth_apiToken (env : gmap string string) : string :=
  env_or env "API_TOKEN" EmptyString.

(** [Array.prototype.join] *)
Fixpoint join (sep : string) (l : list string) : string :=
  match l with
  | [] => EmptyString
  | [x] => x
  | x :: rest => x +:+ sep +:+ join sep rest
  end.

(** The message of the [Error] thrown, if one is. *)
Definition validateConfig (env : gmap string string) : option string :=
  let required :=
    [("REDIS_HOST", config_redis_host env); ("API_TOKEN", config_auth_apiToken env)] in
  let missing := filter (λ item : string * string, item.2 = EmptyString) required in
  if (0 <? length missing)%nat
  then Some ("Missing required environment variables: " +:+ join ", " (missing.*1))
  else None.

(** ** src/services/queue-manager.ts

    The registry of the manager (its three maps) and the Redis keys of every
    queue name; the keys of two names are disjoint (queue:<name>:waiting and
    so on).  A worker is recorded by its type; what it does once started is
    [Worker.processJob] and [processHttpTask] above. *)

Module QueueManager.

Inductive WorkerType := PROCESSOR | HTTP.

Record t := mk {
  queues : gmap string Queue.t;
  workers : gmap string WorkerType;
  processors : gmap string Worker.Processor;
  redis : gmap string Store;
}.

Definition storeOf (name : string) (m : t) : Store :=
  default emptyStore (redis m !! name).

Definition createQueue (cfg : Config) (name : string) (options : option QueueOptions)
    (m : t) : Queue.t * t :=
  match queues m !! name with
  | Some queue => (queue, m)
  | None =>
      let queue := Queue.new_ cfg name options in
      (queue, mk (<[name := queue]> (queues m)) (workers m) (processors m) (redis m))
  end.

Definition getQueue (name : string) (m : t) : option Queue.t := queues m !! name.

Definition removeQueue (name : string) (m : t) : bool * t :=
  match queues m !! name with
  | None => (false, m)
  | Some queue =>
      let workers' :=
        if workers m !! name is Some _ then delete name (workers m) else workers m in
      let redis' := <[name := Queue.clean (storeOf name m)]> (redis m) in
      (true, mk (delete name (queues m)) workers' (delete name (processors m)) redis')
  end.

(** The job added, or the message of the [Error] thrown. *)
Definition addJob (uuid : string) (now : Z) (queueName : string) (data : json)
    (options : option JobOptions) (webhook : option WebhookConfig) (m : t)
    : (string + Job.t) * t :=
  match getQueue queueName m with
  | None => (inl ("Queue '" +:+ queueName +:+ "' not found"), m)
  | Some queue =>
      let job := Job.new_ uuid now queueName data options webhook in
      (inr job,
       mk (queues m) (workers m) (processors m)
          (<[queueName := Queue.addJob job (storeOf queueName m)]> (redis m)))
  end.

Definition getJob (queueName jobId : string) (m : t) : option Job.t :=
  match getQueue queueName m with
  | None => None
  | Some queue => Queue.getJob jobId (storeOf queueName m)
  end.

Definition registerProcessor (queueName : string) (processor : Worker.Processor)
    (m : t) : t :=
  mk (queues m) (workers m) (<[queueName := processor]> (processors m)) (redis m).

Definition startWorker (queueName : string) (m : t) : (string + bool) * t :=
  match getQueue queueName m with
  | None => (inl ("Queue '" +:+ queueName +:+ "' not found"), m)
  | Some queue =>
      match processors m !! queueName with
      | None => (inl ("No processor registered for queue '" +:+ queueName +:+ "'"), m)
      | Some processor =>
          if workers m !! queueName is Some _ then (inr false, m)
          else (inr true,
                mk (queues m) (<[queueName := PROCESSOR]> (workers m)) (processors m)
                   (redis m))
      end
  end.

Definition startHttpWorker (queueName : string) (m : t) : (string + bool) * t :=
  match getQueue queueName m with
  | None => (inl ("Queue '" +:+ queueName +:+ "' not found"), m)
  | Some queue =>
      if workers m !! queueName is Some _ then (inr false, m)
      else (inr true,
            mk (queues m) (<[queueName := HTTP]> (workers m)) (processors m) (redis m))
  end.

Definition stopWorker (queueName : string) (m : t) : bool * t :=
  match workers m !! queueName with
  | None => (false, m)
  | Some worker =>
      (true, mk (queues m) (delete queueName (workers m)) (processors m) (redis m))
  end.

Definition empty : t := mk ∅ ∅ ∅ ∅.

End QueueManager.

(** A manager with the queue "mail", a processor and a running worker. *)
Definition mailManager : QueueManager.t :=
  (QueueManager.startWorker "mail"
     (QueueManager.registerProcessor "mail" returning
        (QueueManager.createQueue defaultConfig "mail" None QueueManager.empty).2)).2.

(** ** src/middleware/auth.ts *)

(** [String.prototype.replace] with a string pattern: the first occurrence. *)
Fixpoint string_drop (n : nat) (s : string) : string :=
  match n, s with
  | O, _ => s
  | S n', String _ s' => string_drop n' s'
  | S _, EmptyString => EmptyString
  end.

Fixpoint replace (pat rep s : string) : string :=
  if String.prefix pat s then rep +:+ string_drop (String.length pat) s
  else
    match s with
    | EmptyString => EmptyString
    | String c s' => String c (replace pat rep s')
    end.

Record AuthHeaders := mkAuthHeaders {
  authorization : option string;
  x_api_token : option string;
}.

Inductive AuthReply :=
| Rejected (status : Z) (error : string)
| Next.

(** [a || b] on strings that may be undefined. *)
Definition str_or (a b : option string) : option string :=
  match a with
  | Some s => if decide (s = EmptyString) then b else Some s
  | None => b
  end.

Definition authToken (h : AuthHeaders) : option string :=
  str_or (replace "Bearer " EmptyString <$> authorization h) (x_api_token h).

Definition authMiddleware (apiToken : string) (h : AuthHeaders) : AuthReply :=
  let token := authToken h in
  if negb (if str_or token None is Some _ then true else false)
  then Rejected 401 "Authentication required"
  else if negb (bool_decide (token = Some apiToken))
  then Rejected 401 "Invalid token"
  else Next.

(** ** src/services/webhook-service.ts: [validateWebhookConfig] *)

(** A line terminator of the regular expression dialect at the head of the
    string: LF, CR, U+2028 or U+2029 (the last two in UTF-8). *)
Definition lineTerminatorAhead (s : string) : bool :=
  String.prefix (String (Ascii.ascii_of_nat 10) EmptyString) s ||
  String.prefix (String (Ascii.ascii_of_nat 13) EmptyString) s ||
  String.prefix (String (Ascii.ascii_of_nat 226) (String (Ascii.ascii_of_nat 128)
                   (String (Ascii.ascii_of_nat 168) EmptyString))) s ||
  String.prefix (String (Ascii.ascii_of_nat 226) (String (Ascii.ascii_of_nat 128)
                   (String (Ascii.ascii_of_nat 169) EmptyString))) s.

(** [/^https?:\/\/.+/.test(url)] *)
Definition httpUrlPattern (url : string) : bool :=
  let rest :=
    if String.prefix "http://" url then Some (string_drop 7 url)
    else if String.prefix "https://" url then Some (string_drop 8 url)
    else None in
  match rest with
  | Some r => negb (bool_decide (r = EmptyString)) && negb (lineTerminatorAhead r)
  | None => false
  end.

#[global] Instance HttpMethod_eq_dec : EqDecision HttpMethod.
Proof. solve_decision. Defined.

Definition validateWebhookConfig (webhookConfig : WebhookConfig) : list string :=
  let errors : list string := [] in
  let errors :=
    if bool_decide (wh_url webhookConfig = EmptyString)
    then errors ++ ["Webhook URL is required"]
    else if negb (httpUrlPattern (wh_url webhookConfig))
    then errors ++ ["Webhook URL must be a valid HTTP/HTTPS URL"]
    else errors in
  let errors :=
    match wh_method webhookConfig with
    | Some m =>
        if negb (bool_decide (m ∈ [POST; PUT; PATCH]))
        then errors ++ ["Webhook method must be POST, PUT, or PATCH"]
        else errors
    | None => errors
    end in
  let errors :=
    match wh_timeout webhookConfig with
    | Some t =>
        if negb (t =? 0) && ((t <? 1000) || (300000 <? t))
        then errors ++ ["Webhook timeout must be between 1000ms and 300000ms"]
        else errors
    | None => errors
    end in
  let errors :=
    match wh_retryAttempts webhookConfig with
    | Some r =>
        if negb (r =? 0) && ((r <? 0) || (10 <? r))
        then errors ++ ["Webhook retry attempts must be between 0 and 10"]
        else errors
    | None => errors
    end in
  errors.

(** ** Overlapping sweeps

    [processDelayedJobs] is a reading of the ready ids (ZRANGEBYSCORE) and,
    for each id read, four commands: ZREM, HGET, HSET and LPUSH.  A sweep in
    flight is at one of them; what it read stays with it, whatever other
    operations do to the store in the meantime.  A sweep is started by the
    sweeper of a worker, every five seconds, and by every [getNextJob] of
    every consumer. *)
Inductive Sweep :=
| SweepLoop (ids : list string)
| SweepGet (jobId : string) (ids : list string)
| SweepSet (jobId : string) (job : Job.t) (ids : list string)
| SweepPush (jobId : string) (ids : list string).

(** The next command of a sweep: ZREM at the head of the loop, HGET, HSET of
    the record with status waiting, LPUSH; none when the loop is over. *)
Definition sweepStep (t : Sweep) (s : Store) : option (Sweep * Store) :=
  match t with
  | SweepLoop [] => None
  | SweepLoop (jobId :: ids) =>
      Some (SweepGet jobId ids, with_delayed (Redis.zrem jobId (delayed s)).2 s)
  | SweepGet jobId ids =>
      match jobs s !! jobId with
      | Some job => Some (SweepSet jobId (Job.set_status WAITING job) ids, s)
      | None => Some (SweepLoop ids, s)
      end
  | SweepSet jobId job ids => Some (SweepPush jobId ids, Queue.hsetJob jobId job s)
  | SweepPush jobId ids =>
      Some (SweepLoop ids, with_waiting (Redis.lpush jobId (waiting s)) s)
  end.

(** [n] commands of one sweep with nothing in between. *)
Fixpoint sweepRun (n : nat) (t : Sweep) (s : Store) : Sweep * Store :=
  match n with
  | O => (t, s)
  | S n' =>
      match sweepStep t s with
      | Some (t', s') => sweepRun n' t' s'
      | None => (t, s)
      end
  end.

(** The queue with its clients and the sweeps in flight. *)
Record CSys := mkCSys {
  c_sys : Sys;
  c_sweeps : list Sweep;
}.

Definition initCSys : CSys := mkCSys initSys [].

(** An operation run without interruption, the start of a sweep, or the
    next command of a sweep in flight. *)
Inductive cstep (q : Queue.t) : CSys → CSys → Prop :=
| cstep_op s s' sweeps :
    step q s s' → cstep q (mkCSys s sweeps) (mkCSys s' sweeps)
| cstep_start s sweeps now :
    cstep q (mkCSys s sweeps)
      (mkCSys s (sweeps ++ [SweepLoop (Redis.zrangebyscore 0 now (delayed (store s)))]))
| cstep_command s sweeps i t t' st :
    sweeps !! i = Some t →
    sweepStep t (store s) = Some (t', st) →
    cstep q (mkCSys s sweeps)
      (mkCSys (mkSys st (leased s) (issued s)) (<[i := t']> sweeps)).

Definition creachable (q : Queue.t) (cs : CSys) : Prop := rtc (cstep q) initCSys cs.

(** Runs written down step by step: [AComplete] and [AFail] name the leased
    job by its place in [leased], [ACommand] the sweep by its place in
    [c_sweeps]. *)
Inductive Act :=
| AAdd (uuid : string) (now : Z) (data : json) (options : option JobOptions)
    (webhook : option WebhookConfig)
| ANext (now tActive : Z)
| AComplete (i : nat) (res : option json) (tDone : Z)
| AFail (i : nat) (error : string) (tFailed now : Z) (rnd : Q)
| AStart (now : Z)
| ACommand (i : nat).

Definition act (q : Queue.t) (a : Act) (cs : CSys) : option CSys :=
  let s := c_sys cs in
  match a with
  | AAdd uuid now data options webhook =>
      if decide (uuid ∈ issued s) then None
      else Some (mkCSys
                   (mkSys (Queue.addJob
                             (Job.new_ uuid now (Queue.name q) data options webhook)
                             (store s))
                      (leased s) ({[uuid]} ∪ issued s))
                   (c_sweeps cs))
  | ANext now tActive =>
      Some (mkCSys
              (mkSys (Queue.getNextJob now tActive (store s)).2
                 (match (Queue.getNextJob now tActive (store s)).1 with
                  | Some job => job :: leased s
                  | None => leased s
                  end)
                 (issued s))
              (c_sweeps cs))
  | AComplete i res tDone =>
      match leased s !! i with
      | Some job =>
          Some (mkCSys
                  (mkSys (Queue.completeJob q job res tDone (store s)).2
                     (take i (leased s) ++ drop (S i) (leased s)) (issued s))
                  (c_sweeps cs))
      | None => None
      end
  | AFail i error tFailed now rnd =>
      match leased s !! i with
      | Some job =>
          Some (mkCSys
                  (mkSys (Queue.failJob q job error tFailed now rnd (store s)).2
                     (take i (leased s) ++ drop (S i) (leased s)) (issued s))
                  (c_sweeps cs))
      | None => None
      end
  | AStart now =>
      Some (mkCSys s
              (c_sweeps cs ++
               [SweepLoop (Redis.zrangebyscore 0 now (delayed (store s)))]))
  | ACommand i =>
      match c_sweeps cs !! i with
      | Some t =>
          match sweepStep t (store s) with
          | Some (t', st) =>
              Some (mkCSys (mkSys st (leased s) (issued s)) (<[i := t']> (c_sweeps cs)))
          | None => None
          end
      | None => None
      end
  end.

Fixpoint acts (q : Queue.t) (l : list Act) (cs : CSys) : option CSys :=
  match l with
  | [] => Some cs
  | a :: l' =>
      match act q a cs with
      | Some cs' => acts q l' cs'
      | None => None
      end
  end.

(** A job with a delay of 3 ms is added at time 0; at time 5 two sweeps
    start, each reads the id before the other has removed it, and their
    commands alternate (one connection to Redis answers in the order asked). *)
Definition twoSweeps (options : option JobOptions) : list Act :=
  [AAdd "job-1" 0 JNull options None;
   AStart 5; AStart 5;
   ACommand 0; ACommand 1; ACommand 0; ACommand 1;
   ACommand 0; ACommand 1; ACommand 0; ACommand 1].

Definition delay3 : option JobOptions :=
  Some (mkJobOptions None (Some 3) None None None).

Definition overlapped : CSys :=
  default initCSys (acts sampleQueue (twoSweeps delay3) initCSys).

(** ... and then a consumer takes the job. *)
Definition overlappedLeased : Sys :=
  mkSys (Queue.getNextJob 6 7 (store (c_sys overlapped))).2
    (match (Queue.getNextJob 6 7 (store (c_sys overlapped))).1 with
     | Some job => job :: leased (c_sys overlapped)
     | None => leased (c_sys overlapped)
     end)
    (issued (c_sys overlapped)).

(** ... and completes it. *)
Definition overlappedCompleted : CSys :=
  default initCSys (acts sampleQueue [ANext 6 7; AComplete 0 None 8] overlapped).




(** * Properties *)

(** ** Redis commands *)

Lemma rpop_app (l : list string) (y : string) : Redis.rpop (l ++ [y]) = Some (y, l).
Proof.
  induction l as [|x l IH]; simpl; [done|]. by rewrite IH.
Qed.

Lemma rpop_Some (l r : list string) (y : string) :
  Redis.rpop l = Some (y, r) ↔ l = r ++ [y].
Proof.
  split; [|intros ->; apply rpop_app].
  revert r y. induction l as [|x l IH]; intros r y; simpl; [done|].
  destruct (Redis.rpop l) as [[y' r']|] eqn:E.
  - intros [= <- <-]. by rewrite (IH _ _ eq_refl).
  - intros [= <- <-]. destruct l as [|x' l]; [done|].
    simpl in E. by destruct (Redis.rpop l) as [[??]|].
Qed.

Lemma rpop_None (l : list string) : Redis.rpop l = None ↔ l = [].
Proof.
  destruct l as [|x l]; simpl; [done|].
  destruct (Redis.rpop l) as [[??]|]; done.
Qed.

Lemma lrem_one (v : string) (l : list string) :
  removes_first v l (Redis.lrem 1 v l).2.
Proof.
  unfold Redis.lrem. simpl. change (Z.to_nat 1) with 1%nat.
  induction l as [|x l IH]; simpl.
  - left. split; [apply not_elem_of_nil|done].
  - destruct (decide (x = v)) as [->|Hne].
    + right. exists [], l. destruct l; simpl; split_and!; try done;
        apply not_elem_of_nil.
    + destruct (Redis.lrem_head v l 1) as [c r] eqn:E. simpl in *.
      destruct IH as [[Hn ->]|(l1 & l2 & -> & Hn & ->)].
      * left. split; [|done]. rewrite not_elem_of_cons. done.
      * right. exists (x :: l1), l2. split_and!; try done.
        rewrite not_elem_of_cons. done.
Qed.

Lemma lrem_one_subset (v x : string) (l : list string) :
  x ∈ (Redis.lrem 1 v l).2 → x ∈ l.
Proof.
  destruct (lrem_one v l) as [[_ ->]|(l1 & l2 & -> & _ & ->)]; [done|].
  rewrite !elem_of_app, elem_of_cons. tauto.
Qed.

Lemma lrem_one_other (v x : string) (l : list string) :
  x ≠ v → x ∈ l → x ∈ (Redis.lrem 1 v l).2.
Proof.
  intros Hne.
  destruct (lrem_one v l) as [[_ ->]|(l1 & l2 & -> & _ & ->)]; [done|].
  rewrite !elem_of_app, elem_of_cons. tauto.
Qed.

Lemma lrem_one_NoDup (v : string) (l : list string) :
  NoDup l → NoDup (Redis.lrem 1 v l).2 ∧ v ∉ (Redis.lrem 1 v l).2.
Proof.
  intros Hnd.
  destruct (lrem_one v l) as [[Hn ->]|(l1 & l2 & -> & Hn & ->)]; [done|].
  apply NoDup_app in Hnd as (H1 & H2 & H3).
  apply NoDup_cons in H3 as [H3 H4].
  split.
  - apply NoDup_app. split_and!; [done| |done].
    intros y Hy1 Hy2. apply (H2 y Hy1). by right.
  - rewrite elem_of_app. intros [?|?]; done.
Qed.

Lemma lrem_all_elem (v x : string) (l : list string) :
  x ∈ (Redis.lrem 0 v l).2 ↔ x ∈ l ∧ x ≠ v.
Proof.
  unfold Redis.lrem. simpl. rewrite list_elem_of_filter. tauto.
Qed.

Lemma lrem_all_NoDup (v : string) (l : list string) :
  NoDup l → NoDup (Redis.lrem 0 v l).2.
Proof. unfold Redis.lrem. simpl. apply NoDup_filter. Qed.

Lemma zrangebyscore_elem (lo hi : Z) (z : gmap string Z) (x : string) :
  x ∈ Redis.zrangebyscore lo hi z ↔ ∃ sc, z !! x = Some sc ∧ lo ≤ sc ∧ sc ≤ hi.
Proof.
  unfold Redis.zrangebyscore. rewrite list_elem_of_fmap. split.
  - intros ([k sc] & -> & Hin). rewrite merge_sort_Permutation in Hin.
    apply list_elem_of_filter in Hin as [Hp Hin].
    apply elem_of_map_to_list in Hin. eauto.
  - intros (sc & Hl & Hp). exists (x, sc). split; [done|].
    rewrite merge_sort_Permutation. apply list_elem_of_filter. split; [done|].
    by apply elem_of_map_to_list.
Qed.

(** ** Back-off arithmetic *)

Lemma Qpow2_inject (n : Z) : 0 ≤ n → (2 ^ n == inject_Z (2 ^ n))%Q.
Proof. intros Hn. symmetry. exact (Zpower_Qpower 2 n Hn). Qed.

Lemma Qmin_inject (a b : Z) : (Qmin (inject_Z a) (inject_Z b) == inject_Z (Z.min a b))%Q.
Proof.
  destruct (Q.min_spec (inject_Z a) (inject_Z b)) as [[Hlt ->]|[Hle ->]].
  - rewrite <- Zlt_Qlt in Hlt. by rewrite Z.min_l by lia.
  - rewrite <- Zle_Qle in Hle. by rewrite Z.min_r by lia.
Qed.

Lemma queue_delay_inject (n : Z) :
  0 ≤ n → (Qmin (1000 * 2 ^ n) 60000 == inject_Z (queueBase n))%Q.
Proof.
  intros Hn. unfold queueBase. rewrite <- Qmin_inject, inject_Z_mult.
  rewrite (Qpow2_inject n Hn). reflexivity.
Qed.

Lemma webhook_delay_inject (n : Z) :
  1 ≤ n → (Qmin (1000 * 2 ^ (n - 1)) 30000 == inject_Z (webhookBase n))%Q.
Proof.
  intros Hn. unfold webhookBase. rewrite <- Qmin_inject, inject_Z_mult.
  rewrite (Qpow2_inject (n - 1)) by lia. reflexivity.
Qed.

Lemma Qfloor_ge (z : Z) (x : Q) : (inject_Z z <= x)%Q → z ≤ Qfloor x.
Proof. intros H. rewrite <- (Qfloor_Z z). by apply Qfloor_resp_le. Qed.

Lemma Qfloor_lt_succ (z : Z) (x : Q) : (x < inject_Z (z + 1))%Q → Qfloor x ≤ z.
Proof.
  intros H. pose proof (Qfloor_le x) as Hf.
  assert (inject_Z (Qfloor x) < inject_Z (z + 1))%Q as Hlt by (eapply Qle_lt_trans; eauto).
  rewrite <- Zlt_Qlt in Hlt. lia.
Qed.

Lemma queueBase_pos (n : Z) : 0 ≤ n → 1000 ≤ queueBase n ≤ 60000.
Proof.
  intros Hn. unfold queueBase.
  pose proof (Z.pow_pos_nonneg 2 n ltac:(lia) Hn). lia.
Qed.

Lemma product_bounds (r d : Q) :
  (0 <= r)%Q → (r < 1)%Q → (0 <= d)%Q → (0 <= r * d)%Q ∧ (r * d <= d)%Q.
Proof.
  intros H0 H1 Hd. split; [by apply Qmult_le_0_compat|].
  assert (r * d <= 1 * d)%Q as H
    by (apply Qmult_le_compat_r; [by apply Qlt_le_weak|done]).
  by rewrite Qmult_1_l in H.
Qed.

(** The queue's delay is its capped exponential plus an integral jitter of
    at most a tenth of it. *)
Lemma queue_delay_bounds (rnd : Q) (n : Z) :
  0 ≤ n → (0 <= rnd)%Q → (rnd < 1)%Q →
  queueBase n ≤ Queue.calculateRetryDelay rnd n ∧
  10 * (Queue.calculateRetryDelay rnd n - queueBase n) ≤ queueBase n.
Proof.
  intros Hn H0 H1. unfold Queue.calculateRetryDelay. cbv zeta.
  pose proof (queueBase_pos n Hn) as Hb.
  set (d := queueBase n) in *.
  assert (0 <= inject_Z d)%Q as Hd
    by (change (inject_Z 0 <= inject_Z d)%Q; rewrite <- Zle_Qle; lia).
  destruct (product_bounds rnd (inject_Z d) H0 H1 Hd) as [Hp0 Hp1].
  rewrite (Qfloor_comp _ (inject_Z d + rnd * (1 # 10) * inject_Z d)%Q)
    by (rewrite (queue_delay_inject n Hn); reflexivity).
  set (p := (rnd * inject_Z d)%Q) in *.
  assert (rnd * (1 # 10) * inject_Z d == (1 # 10) * p)%Q as E by (unfold p; ring).
  rewrite (Qfloor_comp _ _ (Qplus_comp _ _ (reflexivity _) _ _ E)).
  split.
  - apply Qfloor_ge. lra.
  - set (f := Qfloor _).
    assert (inject_Z f <= inject_Z d + (1 # 10) * p)%Q as Hf
      by (unfold f; apply Qfloor_le).
    assert (inject_Z (10 * (f - d)) <= inject_Z d)%Q as Hz.
    { rewrite inject_Z_mult. unfold Z.sub. rewrite inject_Z_plus, inject_Z_opp.
      change (inject_Z 10) with 10%Q. lra. }
    by rewrite <- Zle_Qle in Hz.
Qed.

Lemma webhookBase_quarter (n : Z) :
  1 ≤ n → ∃ m, webhookBase n = 4 * m ∧ 250 ≤ m.
Proof.
  intros Hn. exists (Z.min (250 * 2 ^ (n - 1)) 7500). unfold webhookBase.
  pose proof (Z.pow_pos_nonneg 2 (n - 1) ltac:(lia) ltac:(lia)). lia.
Qed.

(** The dispatcher's delay lies within a quarter of its capped exponential. *)
Lemma webhook_delay_bounds (rnd : Q) (n : Z) :
  1 ≤ n → (0 <= rnd)%Q → (rnd < 1)%Q →
  3 * webhookBase n ≤ 4 * WebhookService.calculateRetryDelay rnd n ∧
  4 * WebhookService.calculateRetryDelay rnd n ≤ 5 * webhookBase n.
Proof.
  intros Hn H0 H1.
  unfold WebhookService.calculateRetryDelay, WebhookService.mathRound. cbv zeta.
  destruct (webhookBase_quarter n Hn) as (m & Hm & Hm250).
  assert (0 <= inject_Z m)%Q as Hd
    by (change (inject_Z 0 <= inject_Z m)%Q; rewrite <- Zle_Qle; lia).
  destruct (product_bounds rnd (inject_Z m) H0 H1 Hd) as [Hp0 Hp1].
  set (p := (rnd * inject_Z m)%Q) in *.
  assert (Qmin (1000 * 2 ^ (n - 1)) 30000
          + Qmin (1000 * 2 ^ (n - 1)) 30000 * (1 # 4) * (rnd * 2 - 1) + (1 # 2)
          == inject_Z (3 * m) + 2 * p + (1 # 2))%Q as E.
  { rewrite (webhook_delay_inject n Hn), Hm, !inject_Z_mult. unfold p.
    change (inject_Z 4) with 4%Q. change (inject_Z 3) with 3%Q. field. }
  rewrite (Qfloor_comp _ _ E), Hm.
  split.
  - enough (3 * m ≤ Qfloor (inject_Z (3 * m) + 2 * p + (1 # 2))) by lia.
    apply Qfloor_ge. lra.
  - enough (Qfloor (inject_Z (3 * m) + 2 * p + (1 # 2)) ≤ 5 * m) by lia.
    apply Qfloor_lt_succ.
    rewrite inject_Z_plus, !inject_Z_mult.
    change (inject_Z 5) with 5%Q. change (inject_Z 3) with 3%Q.
    change (inject_Z 1) with 1%Q. lra.
Qed.

Lemma pow2_pred_le (n : Z) : 1 ≤ n → 2 ^ (n - 1) ≤ 2 ^ n.
Proof. intros Hn. apply Z.pow_le_mono_r; lia. Qed.

(** C5, as the code has it: with the exponential capped on both sides, the
    n-th retry delay of the queue lies between 0.9 and 1.1 times, and the
    n-th retry delay of the webhook dispatcher between 0.75 and 1.25 times,
    the bounds of the specification, for every value of [Math.random()]. *)
Theorem backoff_bounds_capped (rnd : Q) (n : Z) :
  1 ≤ n → (0 <= rnd)%Q → (rnd < 1)%Q →
  capped_backoff_bounds 1000 60000 (9 # 10) (11 # 10) n
    (Queue.calculateRetryDelay rnd n) ∧
  capped_backoff_bounds 1000 30000 (3 # 4) (5 # 4) n
    (WebhookService.calculateRetryDelay rnd n).
Proof.
  intros Hn H0 H1.
  destruct (queue_delay_bounds rnd n ltac:(lia) H0 H1) as [Hq1 Hq2].
  destruct (webhook_delay_bounds rnd n Hn H0 H1) as [Hw1 Hw2].
  pose proof (pow2_pred_le n Hn) as Hpow.
  pose proof (Z.pow_pos_nonneg 2 (n - 1) ltac:(lia) ltac:(lia)) as Hpos.
  unfold capped_backoff_bounds, queueBase, webhookBase in *.
  set (dq := Queue.calculateRetryDelay rnd n) in *.
  set (dw := WebhookService.calculateRetryDelay rnd n) in *.
  set (a := 2 ^ (n - 1)) in *. set (b := 2 ^ n) in *.
  assert (∀ x y : Z, x ≤ y → (inject_Z x <= inject_Z y)%Q) as inj
    by (intros x y Hxy; by rewrite <- Zle_Qle).
  assert (∀ x : Z, 0 ≤ x → (0 <= inject_Z x)%Q) as inj0
    by (intros x Hx; apply (inj 0 x Hx)).
  split_and!.
  - pose proof (inj (Z.min (1000 * a) 60000) dq ltac:(lia)).
    pose proof (inj0 (Z.min (1000 * a) 60000) ltac:(lia)). lra.
  - pose proof (inj (10 * dq) (11 * Z.min (1000 * b) 60000) ltac:(lia)) as H.
    rewrite !inject_Z_mult in H.
    change (inject_Z 10) with 10%Q in H. change (inject_Z 11) with 11%Q in H. lra.
  - pose proof (inj (3 * Z.min (1000 * a) 30000) (4 * dw) ltac:(lia)) as H.
    rewrite !inject_Z_mult in H.
    change (inject_Z 3) with 3%Q in H. change (inject_Z 4) with 4%Q in H. lra.
  - pose proof (inj (4 * dw) (5 * Z.min (1000 * b) 30000) ltac:(lia)) as H.
    rewrite !inject_Z_mult in H.
    change (inject_Z 5) with 5%Q in H. change (inject_Z 4) with 4%Q in H. lra.
Qed.

Lemma backoff_bounds_capped_witness :
  capped_backoff_bounds 1000 60000 (9 # 10) (11 # 10) 8
    (Queue.calculateRetryDelay (1 # 2) 8) ∧
  capped_backoff_bounds 1000 30000 (3 # 4) (5 # 4) 8
    (WebhookService.calculateRetryDelay (1 # 2) 8).
Proof. apply (backoff_bounds_capped (1 # 2) 8); [lia|done|done]. Defined.

(** C5 as stated fails: the lower bound of the specification is not capped
    (queue, eighth failure), and the dispatcher's jitter is a quarter, not a
    tenth (first and sixth retry). *)
Lemma backoff_bounds_spec_fail :
  ¬ spec_backoff_bounds 1000 60000 8 (Queue.calculateRetryDelay 0 8) ∧
  ¬ spec_backoff_bounds 1000 30000 1 (WebhookService.calculateRetryDelay 0 1) ∧
  ¬ spec_backoff_bounds 1000 30000 6
      (WebhookService.calculateRetryDelay (99 # 100) 6).
Proof.
  split_and!; intros [Hlo Hhi]; vm_compute in Hlo, Hhi; done.
Qed.

(** ** Queue.failJob *)

Lemma markAsFailed_fields (job : Job.t) (error : string) (tFailed : Z) :
  let failedJob := Job.markAsFailed error tFailed job in
  Job.id failedJob = Job.id job ∧
  Job.status failedJob = FAILED ∧
  Job.error failedJob = Some error ∧
  Job.failedAt failedJob = Some tFailed ∧
  Job.attempts failedJob = Job.attempts job + 1 ∧
  Job.maxAttempts failedJob = Job.maxAttempts job.
Proof. done. Qed.

Lemma canRetry_set_status_delayed (job : Job.t) :
  Job.canRetry (Job.set_status DELAYED job) = false.
Proof. unfold Job.canRetry. simpl. by rewrite andb_false_r. Qed.



(** With [removeOnFail] set the record of a job that is retried is written
    and deleted again: [canRetry] is evaluated a second time once the status
    is [delayed]. *)
Lemma failJob_retry_record (q : Queue.t) (job : Job.t) (error : string)
    (tFailed now : Z) (rnd : Q) (s : Store) :
  Job.canRetry (Job.markAsFailed error tFailed job) = true →
  let job' := (Queue.failJob q job error tFailed now rnd s).1 in
  let s' := (Queue.failJob q job error tFailed now rnd s).2 in
  jobs s' =
    if truthy (removeOnFail (Queue.options q))
    then delete (Job.id job) (jobs s)
    else <[Job.id job := job']> (jobs s).
Proof.
  intros Hretry. cbv zeta. unfold Queue.failJob. rewrite Hretry.
  rewrite canRetry_set_status_delayed. simpl.
  destruct (truthy (removeOnFail (Queue.options q))); simpl; [|done].
  unfold Redis.hdel. simpl. by rewrite delete_insert_eq.
Qed.

(** ** Queue.getNextJob on a missing record *)

Lemma promote_stats (s : Store) (jobId : string) :
  stats (Queue.promote s jobId) = stats s.
Proof. unfold Queue.promote. simpl. by destruct (jobs s !! jobId). Qed.

Lemma processDelayedJobs_stats (now : Z) (s : Store) :
  stats (Queue.processDelayedJobs now s) = stats s.
Proof.
  unfold Queue.processDelayedJobs.
  generalize (Redis.zrangebyscore 0 now (delayed s)). intros ids. revert s.
  induction ids as [|x ids IH]; intros s; simpl; [done|].
  by rewrite IH, promote_stats.
Qed.

(** C9: when the id popped from [waiting] has no record in the hash,
    [getNextJob] returns nothing and leaves the store as the promotion of the
    delayed jobs left it, without that entry of [waiting]: nothing is pushed
    on [waiting], [active] or [delayed], no record and no counter is written. *)
Theorem getNextJob_missing_record (now tActive : Z) (s : Store)
    (jobId : string) (rest : list string) :
  waiting (Queue.processDelayedJobs now s) = rest ++ [jobId] →
  jobs (Queue.processDelayedJobs now s) !! jobId = None →
  let s1 := Queue.processDelayedJobs now s in
  let s' := (Queue.getNextJob now tActive s).2 in
  (Queue.getNextJob now tActive s).1 = None ∧
  waiting s' = rest ∧
  active s' = active s1 ∧
  delayed s' = delayed s1 ∧
  jobs s' = jobs s1 ∧
  completed s' = completed s1 ∧
  failed s' = failed s1 ∧
  stats s' = stats s.
Proof.
  intros Hw Hj. cbv zeta. unfold Queue.getNextJob.
  rewrite Hw, rpop_app. simpl. rewrite Hj. simpl.
  split_and!; try done. apply processDelayedJobs_stats.
Qed.

Lemma getNextJob_missing_record_witness :
  Queue.getNextJob 7 8 (with_waiting ["b"; "a"] emptyStore)
  = (None, with_waiting ["b"] emptyStore).
Proof.
  pose proof (getNextJob_missing_record 7 8 (with_waiting ["b"; "a"] emptyStore)
                "a" ["b"] eq_refl eq_refl) as H.
  cbv zeta in H. destruct H as (H1 & H2 & _).
  destruct (Queue.getNextJob 7 8 (with_waiting ["b"; "a"] emptyStore)) as [r s'] eqn:E.
  simpl in H1, H2. subst r. vm_compute in E. by injection E as <-.
Defined.

(** ** Default retention *)

(** C10: a queue built without retention options has [removeOnComplete]
    true and [removeOnFail] false; completing a job then deletes its record, so
    that [getJob] finds nothing, and a failure that cannot be retried keeps
    the record and pushes the id on the left of [failed]. *)
Theorem default_retention (cfg : Config) (name : string)
    (options : option QueueOptions) :
  noRetentionOptions options →
  let q := Queue.new_ cfg name options in
  removeOnComplete (Queue.options q) = Some true ∧
  removeOnFail (Queue.options q) = Some false ∧
  (∀ job res tDone s,
     let s' := (Queue.completeJob q job res tDone s).2 in
     jobs s' !! Job.id job = None ∧ Queue.getJob (Job.id job) s' = None) ∧
  (∀ job error tFailed now rnd s,
     Job.canRetry (Job.markAsFailed error tFailed job) = false →
     let job' := (Queue.failJob q job error tFailed now rnd s).1 in
     let s' := (Queue.failJob q job error tFailed now rnd s).2 in
     Job.status job' = FAILED ∧
     Queue.getJob (Job.id job) s' = Some job' ∧
     failed s' = Job.id job :: failed s).
Proof.
  intros Hopt. cbv zeta.
  assert (removeOnComplete (Queue.options (Queue.new_ cfg name options)) = Some true
          ∧ removeOnFail (Queue.options (Queue.new_ cfg name options)) = Some false)
    as [Hc Hf].
  { destruct options as [o|]; simpl in *; [|done]. destruct Hopt as [-> ->]. done. }
  split_and!; [done|done| |].
  - intros job res tDone s. unfold Queue.completeJob, Queue.getJob.
    rewrite Hc. simpl. by rewrite lookup_delete_eq.
  - intros job error tFailed now rnd s Hno.
    unfold Queue.failJob, Queue.getJob. rewrite Hno, Hf. simpl.
    by rewrite lookup_insert_eq.
Qed.

Lemma default_retention_witness :
  Queue.getJob "job-1"
    (Queue.completeJob sampleQueue sampleJob None 9
       (with_active ["job-1"] emptyStore)).2 = None.
Proof.
  pose proof (default_retention defaultConfig "mail" None I) as H.
  cbv zeta in H. destruct H as (_ & _ & H & _).
  exact (proj2 (H sampleJob None 9 (with_active ["job-1"] emptyStore))).
Defined.

(** ** Headers of an HTTP task *)

(** C3, as the code has it: every header the caller supplies is sent as
    supplied, the correlation headers included; a header of the worker, the
    two defaults and the three correlation headers alike, is sent with the
    worker's value exactly when the caller supplies no header of that name. *)
Theorem http_task_headers (net : Axios.Request json → Axios.NetOutcome)
    (httpTask : HttpTaskWorker.HttpTaskPayload) (job : Job.t) :
  let sent := Axios.headers (HttpTaskWorker.makeHttpRequest net httpTask job).1 in
  let caller := default ∅ (HttpTaskWorker.headers httpTask) in
  let own (k v : string) := sent !! k = Some (default v (caller !! k)) in
  (∀ k v, caller !! k = Some v → sent !! k = Some v) ∧
  own "Content-Type" "application/json" ∧
  own "User-Agent" "Queue-Service-HttpWorker/1.0" ∧
  own "X-Queue-Service-Job-Id" (Job.id job) ∧
  own "X-Queue-Service-Attempt" (pretty (Job.attempts job)) ∧
  own "X-Queue-Service-Max-Attempts" (pretty (Job.maxAttempts job)).
Proof.
  cbv zeta. unfold HttpTaskWorker.makeHttpRequest, HttpTaskWorker.requestOf. simpl.
  set (caller := default ∅ (HttpTaskWorker.headers httpTask)).
  split; [intros k v Hk; by apply lookup_union_Some_l|].
  split_and!; rewrite lookup_union; destruct (caller !! _) eqn:E; simpl;
    unfold HttpTaskWorker.ownHeaders; by simplify_map_eq.
Qed.

(** C3 as stated fails: a caller header named like a correlation header
    replaces the job's id in the request. *)
Lemma http_task_correlation_overridden :
  Axios.headers (HttpTaskWorker.makeHttpRequest alwaysOk spoofedTask sampleJob).1
    !! "X-Queue-Service-Job-Id" = Some "someone-else" ∧
  Axios.headers (HttpTaskWorker.makeHttpRequest alwaysOk spoofedTask sampleJob).1
    !! "X-Queue-Service-Job-Id" ≠ Some (Job.id sampleJob).
Proof. split; [vm_compute; reflexivity|vm_compute; discriminate]. Qed.

(** Without caller headers the request carries the id of the job. *)
Example http_task_plain_headers :
  Axios.headers (HttpTaskWorker.makeHttpRequest alwaysOk plainTask sampleJob).1
    !! "X-Queue-Service-Job-Id" = Some (Job.id sampleJob).
Proof. vm_compute. reflexivity. Qed.

(** ** The webhook dispatcher *)

Example dispatcher_sends_two :
  length (bodies (WebhookService.executeWebhook always500
                    (WebhookService.new_ defaultConfig) JobFailedEvent twoTries
                    sampleWorld).2) = 2%nat.
Proof. vm_compute. reflexivity. Qed.

Lemma attemptOnce_effect (env : Env) (svc : WebhookService.t)
    (webhookConfig : WebhookConfig) (payload : WebhookPayload)
    (attempt maxAttempts : Z) (w : World) :
  let w1 := (WebhookService.attemptOnce env svc webhookConfig payload attempt
               maxAttempts w).2 in
  w_store w1 = w_store w ∧ w_job w1 = w_job w ∧
  ∃ body, bodies w1 = bodies w ++ [body] ∧
          wb_webhook body = wp_webhook payload ∧
          wb_attempt body = attempt ∧ wb_maxAttempts body = maxAttempts.
Proof.
  cbv zeta. unfold WebhookService.attemptOnce, WebhookService.makeHttpRequest,
    axios, dateNow, logger, mbind, M_bind, mret, M_ret, bodies. simpl.
  destruct (Axios.settle _); simpl; rewrite fmap_app; simpl; eauto 10.
Qed.

Lemma executeWithRetry_effect (env : Env) (svc : WebhookService.t)
    (webhookConfig : WebhookConfig) (payload : WebhookPayload)
    (attempt maxAttempts : Z) (w : World) :
  let w' := (WebhookService.executeWithRetry env svc webhookConfig payload
               attempt maxAttempts w).2 in
  w_store w' = w_store w ∧ w_job w' = w_job w ∧
  ∃ new, bodies w' = bodies w ++ new ∧
         Forall (λ body, wb_webhook body = wp_webhook payload ∧
                         wb_maxAttempts body = maxAttempts) new ∧
         wb_attempt <$> new = seqZ attempt (Z.of_nat (length new)).
Proof.
  cbv zeta.
  funelim (WebhookService.executeWithRetry env svc webhookConfig payload
             attempt maxAttempts w).
  all: pose proof (attemptOnce_effect env svc webhookConfig payload attempt
                     maxAttempts w) as Hone; cbv zeta in Hone.
  all: match goal with
       | E : WebhookService.attemptOnce _ _ _ _ _ _ _ = _ |- _ => rewrite E in Hone
       end; simpl in Hone;
    destruct Hone as (Hs & Hj & body & Hb & Hwb & Hat & Hmax).
  - simpl. split_and!; [done|done|]. exists [body]. split_and!; [done| |].
    + by repeat constructor.
    + simpl. by rewrite Hat.
  - unfold mbind, M_bind, dateNow, logger, mathRandom, sleep in *. simpl in *.
    match goal with |- context [WebhookService.executeWithRetry _ _ _ _ _ _ ?w3] =>
      destruct (H 0%Q w tt w3) as (-> & -> & new & -> & Hall & Hseq) end.
    simpl. split_and!; [done|done|].
    exists (body :: new). split_and!.
    + unfold bodies in *. simpl. rewrite Hb. by rewrite <- app_assoc.
    + by constructor.
    + rewrite fmap_cons, Hseq, Hat.
      rewrite (seqZ_cons attempt) by (simpl; lia). simpl length.
      do 2 f_equal; lia.
  - unfold mbind, M_bind, mret, M_ret, dateNow, logger in *. simpl in *.
    split_and!; [done|done|]. exists [body]. unfold bodies in *. simpl.
    split_and!; [done| |].
    + by repeat constructor.
    + simpl. by rewrite Hat.
Qed.

(** Every body the dispatcher sends carries the [webhook] object built once
    by [createPayload]: attempt 1 and the service's [maxRetries]; the number
    of the try and the configured maximum travel as two properties at the top
    level of the body. *)
Lemma executeWebhook_bodies (env : Env) (svc : WebhookService.t)
    (event : WebhookEvent) (webhookConfig : WebhookConfig) (w : World) :
  let w' := (WebhookService.executeWebhook env svc event webhookConfig w).2 in
  ∃ new, bodies w' = bodies w ++ new ∧
         Forall (λ body,
                   wb_webhook body = mkWebhookInfo 1 (WebhookService.maxRetries svc) ∧
                   wb_maxAttempts body =
                     num_or (wh_retryAttempts webhookConfig)
                       (WebhookService.maxRetries svc)) new ∧
         wb_attempt <$> new = seqZ 1 (Z.of_nat (length new)).
Proof.
  cbv zeta. unfold WebhookService.executeWebhook, WebhookService.createPayload,
    mbind, M_bind, mret, M_ret, theJob, dateNow. simpl.
  match goal with |- context [WebhookService.executeWithRetry ?e ?s ?c ?p ?a ?m ?w0] =>
    destruct (executeWithRetry_effect e s c p a m w0) as (_ & _ & new & Hb & Hall & Hseq)
  end.
  exists new. split_and!; done.
Qed.

(** C4 at a failing input: the service's default is three tries, the webhook
    asks for two, the endpoint answers 500.  The body of the second try says
    [webhook.attempt = 1] and [webhook.maxAttempts = 3]; the values of the
    claim, 2 and 2, are in the properties [attempt] and [maxAttempts] at the
    top level of the body. *)
Theorem webhook_body_attempt_stale :
  let w' := (WebhookService.executeWebhook always500
               (WebhookService.new_ defaultConfig) JobFailedEvent twoTries
               sampleWorld).2 in
  (λ body, (wi_attempt (wb_webhook body), wi_maxAttempts (wb_webhook body),
            wb_attempt body, wb_maxAttempts body)) <$> bodies w'
  = [(1, 3, 1, 2); (1, 3, 2, 2)].
Proof. vm_compute. reflexivity. Qed.

(** ** Webhook dispatch and the state of the job *)

Lemma executeWebhook_frame (env : Env) (svc : WebhookService.t)
    (event : WebhookEvent) (w : World) :
  w_store (Worker.executeWebhook env svc event w).2 = w_store w ∧
  w_job (Worker.executeWebhook env svc event w).2 = w_job w.
Proof.
  unfold Worker.executeWebhook, mbind, M_bind, theJob. simpl.
  destruct (Job.webhook (w_job w)) as [webhookConfig|]; [|done].
  unfold logger at 1. simpl.
  unfold WebhookService.executeWebhook, WebhookService.createPayload,
    mbind, M_bind, mret, M_ret, theJob, dateNow. simpl.
  match goal with |- context [WebhookService.executeWithRetry ?e ?s ?c ?p ?a ?m ?w0] =>
    pose proof (executeWithRetry_effect e s c p a m w0) as Heff;
    destruct (WebhookService.executeWithRetry e s c p a m w0) as [result w1]
  end.
  cbv zeta in Heff. simpl in Heff. destruct Heff as (Hs & Hj & _).
  destruct (WebhookService.success result); simpl; done.
Qed.

Lemma processJob_settleJob (env : Env) (svc : WebhookService.t) (q : Queue.t)
    (processor : Worker.Processor) (w : World) :
  w_store (Worker.processJob env svc q processor w).2
  = w_store (settleJob env q processor w).2 ∧
  w_job (Worker.processJob env svc q processor w).2
  = w_job (settleJob env q processor w).2.
Proof.
  unfold Worker.processJob, settleJob, mbind, M_bind, theJob. simpl.
  destruct (processor (w_job w)) as [errorMessage|result]; simpl.
  - match goal with |- context [Worker.failJob ?a ?b ?c ?w0] =>
      destruct (Worker.failJob a b c w0) as [u w1] end.
    simpl. destruct (Job.webhook (w_job w1)); [|done].
    destruct (negb (Job.canRetry (w_job w1))); [|done].
    apply executeWebhook_frame.
  - destruct (Job.webhook (w_job w)); [|done].
    match goal with |- context [Worker.executeWebhook ?a ?b ?c ?w2] =>
      destruct (executeWebhook_frame a b c w2) as [Hs Hj] end.
    simpl in *. by rewrite Hs, Hj.
Qed.

(** C6: whatever the network answers (a 2xx response, another response, no
    response, on any of the tries), the dispatch of a webhook leaves the
    store of the queue (the record of the job with its status, result, error
    and attempts, the lists and the sorted set) and the job object as they
    were; and what [processJob] leaves in the store and in the job object is
    what it leaves without its webhook dispatches. *)
Theorem webhook_dispatch_frame (env : Env) (svc : WebhookService.t)
    (event : WebhookEvent) (q : Queue.t) (processor : Worker.Processor)
    (w : World) :
  let w' := (Worker.executeWebhook env svc event w).2 in
  let w1 := (Worker.processJob env svc q processor w).2 in
  let w0 := (settleJob env q processor w).2 in
  (w_store w' = w_store w ∧ w_job w' = w_job w) ∧
  (w_store w1 = w_store w0 ∧ w_job w1 = w_job w0).
Proof.
  cbv zeta. split; [apply executeWebhook_frame|apply processJob_settleJob].
Qed.

(** ** The invariant of the queue *)

Lemma Inv_init : Inv initSys.
Proof.
  constructor; simpl; try (intros ? ?%elem_of_nil; done); try done;
    try apply NoDup_nil_2.
  intros x [? H]. by rewrite lookup_empty in H.
Qed.

(** Case analysis on the hypotheses about lists and maps that the
    preservation proofs produce. *)
Ltac inv_cases :=
  repeat match goal with
  | H : _ ∈ _ :: _ |- _ => apply elem_of_cons in H as [->|H]
  | H : _ ∈ _ ++ _ |- _ => apply elem_of_app in H as [H|H]
  | H : <[_:=_]> _ !! _ = Some _ |- _ =>
      apply lookup_insert_Some in H as [[<- <-]|[? H]]
  | H : delete _ _ !! _ = Some _ |- _ => apply lookup_delete_Some in H as [? H]
  | H : is_Some _ |- _ => destruct H as [? H]
  | H : _ ∨ _ |- _ => destruct H as [H|H]
  | H : _ ∧ _ |- _ => destruct H as [? H]
  end.

Ltac inv_unfold :=
  unfold Redis.lpush, Redis.zadd, Redis.zrem, Redis.hdel, keyed, Queue.hsetJob,
    Queue.updateStats, with_waiting, with_active, with_completed, with_failed,
    with_delayed, with_jobs, with_stats in *;
  simpl in *.

Ltac inv_goal :=
  repeat match goal with
  | |- delete _ _ !! _ = None => apply lookup_delete_None
  | |- <[_:=_]> _ !! _ = None => apply lookup_insert_None; split
  | |- _ ∉ _ :: _ => apply not_elem_of_cons; split
  | |- NoDup (_ :: _) => apply NoDup_cons; split
  | |- _ ∧ _ => split
  end.

(** The two-sided facts of the invariant, one side at a time. *)
Ltac inv_facts :=
  repeat match goal with
  | H : ∀ k j, _ !! k = Some j →
          0 ≤ Job.attempts j ∧ (0 < Job.maxAttempts j → Job.attempts j ≤ Job.maxAttempts j) |- _ =>
      pose proof (λ k j E, proj1 (H k j E));
      pose proof (λ k j E, proj2 (H k j E)); clear H
  | H : ∀ j, j ∈ _ →
          0 ≤ Job.attempts j ∧ (0 < Job.maxAttempts j → Job.attempts j < Job.maxAttempts j) |- _ =>
      pose proof (λ j E, proj1 (H j E));
      pose proof (λ j E, proj2 (H j E)); clear H
  end.

Lemma canRetry_not_failed (job : Job.t) :
  Job.status job ≠ FAILED → Job.canRetry job = false.
Proof.
  intros Hst. unfold Job.canRetry. by rewrite bool_decide_eq_false_2, andb_false_r.
Qed.

Ltac inv_auto :=
  try done;
  try (intros; inv_cases; inv_goal; simplify_map_eq; simpl;
       first [by eauto 6 | by apply canRetry_not_failed]).

Lemma promote_Inv (s : Sys) (x : string) :
  Inv s → is_Some (delayed (store s) !! x) →
  Inv (mkSys (Queue.promote (store s) x) (leased s) (issued s)).
Proof.
  intros [] Hx. destruct s as [[w a c f d h st] L I]. simpl in *.
  assert (x ∉ w) as Hxw.
  { intros Hin. apply inv_waiting_delayed0 in Hin. rewrite Hin in Hx. by destruct Hx. }
  assert (x ∉ a) as Hxa.
  { intros Hin. apply inv_active_delayed0 in Hin. rewrite Hin in Hx. by destruct Hx. }
  assert (∀ j, j ∈ L → Job.id j ≠ x) as HxL.
  { intros j Hin <-. apply inv_leased_delayed0 in Hin. rewrite Hin in Hx. by destruct Hx. }
  pose proof (inv_issued_delayed0 x Hx) as HxI.
  pose proof (λ j E, inv_pending_attempts0 x j E (or_intror Hx)) as Hxatt.
  inv_facts. unfold Queue.promote. inv_unfold.
  destruct (h !! x) as [job|] eqn:E; constructor; inv_unfold; inv_auto.
Qed.

Lemma promote_delayed (s : Store) (x : string) :
  delayed (Queue.promote s x) = delete x (delayed s).
Proof. unfold Queue.promote. inv_unfold. by destruct (jobs s !! x). Qed.

Lemma foldl_promote_Inv (ids : list string) (s : Sys) :
  NoDup ids → (∀ x, x ∈ ids → is_Some (delayed (store s) !! x)) → Inv s →
  Inv (mkSys (foldl Queue.promote (store s) ids) (leased s) (issued s)).
Proof.
  revert s. induction ids as [|x ids IH]; intros s Hnd Hin Hinv; simpl.
  - by destruct s.
  - apply NoDup_cons in Hnd as [Hx Hnd].
    apply (IH (mkSys (Queue.promote (store s) x) (leased s) (issued s))); [done| |].
    + intros y Hy. simpl. rewrite promote_delayed, lookup_delete_ne.
      * apply Hin. by right.
      * intros ->. done.
    + apply promote_Inv; [done|]. apply Hin. by left.
Qed.

Lemma zrangebyscore_NoDup (lo hi : Z) (z : gmap string Z) :
  NoDup (Redis.zrangebyscore lo hi z).
Proof.
  unfold Redis.zrangebyscore. rewrite merge_sort_Permutation.
  eapply sublist_NoDup; [apply (NoDup_fst_map_to_list z)|].
  apply fmap_sublist, sublist_filter.
Qed.

Lemma processDelayedJobs_Inv (now : Z) (s : Sys) :
  Inv s → Inv (mkSys (Queue.processDelayedJobs now (store s)) (leased s) (issued s)).
Proof.
  intros Hinv. unfold Queue.processDelayedJobs.
  apply foldl_promote_Inv; [apply zrangebyscore_NoDup| |done].
  intros x (sc & Hsc & _)%zrangebyscore_elem. eauto.
Qed.

Lemma pop_Inv (tActive : Z) (s : Sys) :
  Inv s →
  Inv (mkSys
         (match Redis.rpop (waiting (store s)) with
          | None => (None, store s)
          | Some (jobId, rest) =>
              match jobs (with_waiting rest (store s)) !! jobId with
              | None => (None, with_waiting rest (store s))
              | Some jobData =>
                  (Some (Job.markAsActive tActive jobData),
                   Queue.hsetJob (Job.id (Job.markAsActive tActive jobData))
                     (Job.markAsActive tActive jobData)
                     (with_active
                        (Redis.lpush (Job.id (Job.markAsActive tActive jobData))
                           (active (with_waiting rest (store s))))
                        (with_waiting rest (store s))))
              end
          end).2
         (match
            (match Redis.rpop (waiting (store s)) with
             | None => (None, store s)
             | Some (jobId, rest) =>
                 match jobs (with_waiting rest (store s)) !! jobId with
                 | None => (None, with_waiting rest (store s))
                 | Some jobData =>
                     (Some (Job.markAsActive tActive jobData),
                      Queue.hsetJob (Job.id (Job.markAsActive tActive jobData))
                        (Job.markAsActive tActive jobData)
                        (with_active
                           (Redis.lpush (Job.id (Job.markAsActive tActive jobData))
                              (active (with_waiting rest (store s))))
                           (with_waiting rest (store s))))
                 end
             end).1
          with
          | Some job => job :: leased s
          | None => leased s
          end)
         (issued s)).
Proof.
  intros []. destruct s as [[w a c f d h st] L I]. simpl in *.
  destruct (Redis.rpop w) as [[x rest]|] eqn:Hpop; [|by constructor].
  apply rpop_Some in Hpop as ->.
  apply NoDup_app in inv_waiting_nodup0 as (Hnd & Hrest & _).
  assert (x ∉ rest) as Hx by (intros Hin; apply (Hrest x Hin); by left).
  assert (x ∈ rest ++ [x]) as Hxin
    by (rewrite elem_of_app, list_elem_of_singleton; by right).
  pose proof (inv_waiting_active0 x Hxin) as Hxa.
  pose proof (inv_waiting_delayed0 x Hxin) as Hxd.
  pose proof (inv_issued_waiting0 x Hxin) as HxI.
  assert (∀ j, j ∈ L → Job.id j ≠ x) as HxL.
  { intros j Hin <-. by apply (inv_leased_waiting0 j Hin). }
  assert (∀ y, y ∈ rest → y ∈ rest ++ [x]) as Hsub
    by (intros y Hy; rewrite elem_of_app; by left).
  pose proof (λ j E, inv_pending_attempts0 x j E (or_introl Hxin)) as Hxatt.
  clear Hxin. inv_facts. inv_unfold.
  destruct (h !! x) as [job|] eqn:E; simpl.
  - pose proof (inv_keyed0 x job E) as Hid. rewrite Hid.
    constructor; inv_unfold; inv_auto.
    + intros y Hy. inv_goal; [by intros ->|]. apply inv_waiting_active0. auto.
    + rewrite Hid. apply NoDup_cons. split; [|done].
      intros (j & Hj & Hin)%list_elem_of_fmap. by apply (HxL j Hin).
    + intros j Hj Hin. inv_cases.
      * simpl in Hin. by rewrite Hid in Hin.
      * apply (inv_leased_waiting0 j Hj); auto.
  - constructor; inv_unfold; inv_auto.
    intros j Hj Hin. apply (inv_leased_waiting0 j Hj); auto.
Qed.

Lemma getNextJob_Inv (now tActive : Z) (s : Sys) :
  Inv s →
  Inv (mkSys (Queue.getNextJob now tActive (store s)).2
         (match (Queue.getNextJob now tActive (store s)).1 with
          | Some job => job :: leased s
          | None => leased s
          end)
         (issued s)).
Proof.
  intros Hinv.
  exact (pop_Inv tActive
           (mkSys (Queue.processDelayedJobs now (store s)) (leased s) (issued s))
           (processDelayedJobs_Inv now s Hinv)).
Qed.

Lemma new_job_attempts (uuid : string) (now : Z) (queueName : string)
    (data : json) (options : option JobOptions) (webhook : option WebhookConfig) :
  let job := Job.new_ uuid now queueName data options webhook in
  Job.id job = uuid ∧ Job.attempts job = 0 ∧ Job.canRetry job = false.
Proof.
  simpl. split_and!; [done|done|].
  unfold Job.canRetry. simpl. apply andb_false_intro2.
  destruct (jo_delay _) as [d|]; [destruct (0 <? d)|]; done.
Qed.

Ltac inv_leaf :=
  first [ done | by eauto 6 | lia
        | by (intros ->; eauto) | by (intros <-; eauto)
        | by (apply not_eq_sym; eauto) | by apply canRetry_not_failed | idtac ].

Ltac inv_step :=
  try done; intros; inv_cases; inv_goal; simplify_map_eq; simpl in *; inv_leaf.

Lemma addJob_Inv (s : Sys) (job : Job.t) :
  Inv s → Job.id job ∉ issued s → Job.attempts job = 0 →
  Job.canRetry job = false →
  Inv (mkSys (Queue.addJob job (store s)) (leased s) ({[Job.id job]} ∪ issued s)).
Proof.
  intros [] Hfresh Hatt Hno. destruct s as [[w a c f d h st] L I]. simpl in *.
  set (x := Job.id job) in *.
  assert (x ∉ w) as Hxw by (intros Hin; apply Hfresh; auto).
  assert (x ∉ a) as Hxa by (intros Hin; apply Hfresh; auto).
  assert (d !! x = None) as Hxd.
  { destruct (d !! x) eqn:E; [|done]. exfalso. apply Hfresh. eauto. }
  assert (∀ j, j ∈ L → Job.id j ≠ x) as HxL.
  { intros j Hin Heq. apply Hfresh. rewrite <- Heq. eauto. }
  assert (∀ y, y ∈ I → y ∈ {[x]} ∪ I) as Hmono
    by (intros y Hy; apply elem_of_union; by right).
  assert (x ∈ {[x]} ∪ I) as HxI
    by (apply elem_of_union; left; by apply elem_of_singleton).
  inv_facts. unfold Queue.addJob. inv_unfold. fold x.
  destruct (decide (Job.status job = DELAYED)); constructor; inv_unfold; inv_step.
Qed.

(** A leased job leaves the list of leases. *)
Lemma leased_split (l1 l2 : list Job.t) (job : Job.t) :
  NoDup (Job.id <$> l1 ++ job :: l2) →
  NoDup (Job.id <$> l1 ++ l2) ∧
  (∀ j, j ∈ l1 ++ l2 → Job.id j ≠ Job.id job) ∧
  (∀ j, j ∈ l1 ++ l2 → j ∈ l1 ++ job :: l2).
Proof.
  rewrite !fmap_app, fmap_cons. intros (H1 & H2 & H3)%NoDup_app.
  apply NoDup_cons in H3 as [H3 H4]. split_and!.
  - apply NoDup_app. split_and!; [done| |done].
    intros y Hy1 Hy2. apply (H2 y Hy1). by right.
  - intros j [Hj|Hj]%elem_of_app Heq.
    + apply (H2 (Job.id j)); [by apply list_elem_of_fmap_2|]. rewrite Heq. by left.
    + apply H3. rewrite <- Heq. by apply list_elem_of_fmap_2.
  - intros j. rewrite !elem_of_app, elem_of_cons. tauto.
Qed.

(** The part of the invariant that speaks of the leases and of [active],
    for the leases without [job] and [active] without one occurrence of
    its id. *)
Lemma release_facts (w a : list string) (d : gmap string Z) (I : gset string)
    (l1 l2 : list Job.t) (job : Job.t) :
  NoDup a →
  (∀ x, x ∈ w → x ∉ a) →
  (∀ x, x ∈ a → d !! x = None) →
  (∀ x, x ∈ a → x ∈ I) →
  NoDup (Job.id <$> l1 ++ job :: l2) →
  (∀ j, j ∈ l1 ++ job :: l2 → Job.id j ∉ w) →
  (∀ j, j ∈ l1 ++ job :: l2 → d !! Job.id j = None) →
  (∀ j, j ∈ l1 ++ job :: l2 → Job.id j ∈ I) →
  (∀ j, j ∈ l1 ++ job :: l2 →
        0 ≤ Job.attempts j ∧ (0 < Job.maxAttempts j → Job.attempts j < Job.maxAttempts j)) →
  let a' := (Redis.lrem 1 (Job.id job) a).2 in
  let L' := l1 ++ l2 in
  (NoDup a' ∧ (Job.id job ∉ a') ∧ (∀ x, x ∈ w → x ∉ a') ∧
   (∀ x, x ∈ a' → d !! x = None) ∧ (∀ x, x ∈ a' → x ∈ I)) ∧
  (NoDup (Job.id <$> L') ∧ (∀ j, j ∈ L' → Job.id j ≠ Job.id job) ∧
   (∀ j, j ∈ L' → Job.id j ∉ w) ∧ (∀ j, j ∈ L' → d !! Job.id j = None) ∧
   (∀ j, j ∈ L' → Job.id j ∈ I) ∧
   (∀ j, j ∈ L' →
         0 ≤ Job.attempts j ∧ (0 < Job.maxAttempts j → Job.attempts j < Job.maxAttempts j))) ∧
  ((Job.id job ∉ w) ∧ d !! Job.id job = None ∧ Job.id job ∈ I ∧
   0 ≤ Job.attempts job ∧ (0 < Job.maxAttempts job → Job.attempts job < Job.maxAttempts job)).
Proof.
  intros Ha Hwa Had HaI HL HLw HLd HLI HLatt. cbv zeta.
  destruct (leased_split l1 l2 job HL) as (Hnd & Hne & Hsub).
  assert (job ∈ l1 ++ job :: l2) as Hjob
    by (rewrite elem_of_app, elem_of_cons; auto).
  destruct (lrem_one_NoDup (Job.id job) a Ha) as [Hand Hxa].
  pose proof (λ y, lrem_one_subset (Job.id job) y a) as Hasub.
  destruct (HLatt job Hjob).
  split_and!; eauto.
  intros x Hx Hin. apply (Hwa x Hx). auto.
Qed.

Lemma completeJob_Inv (q : Queue.t) (s : Sys) (l1 l2 : list Job.t) (job : Job.t)
    (res : option json) (tDone : Z) :
  Inv s → leased s = l1 ++ job :: l2 →
  Inv (mkSys (Queue.completeJob q job res tDone (store s)).2 (l1 ++ l2) (issued s)).
Proof.
  intros [] HL. destruct s as [[w a c f d h st] L I]. simpl in *. subst L.
  pose proof (release_facts w a d I l1 l2 job) as Hrel. cbv zeta in Hrel.
  destruct Hrel as ((? & ? & ? & ? & ?) & (? & ? & ? & ? & ? & ?) & (? & ? & ? & ? & ?));
    try done.
  clear inv_leased_nodup0 inv_leased_waiting0 inv_leased_delayed0
    inv_issued_leased0 inv_leased_attempts0 inv_active_nodup0
    inv_waiting_active0 inv_active_delayed0 inv_issued_active0.
  unfold Queue.completeJob. inv_unfold.
  set (a' := (Redis.lrem 1 (Job.id job) a).2) in *. clearbody a'.
  set (L' := l1 ++ l2) in *. clearbody L'.
  set (x := Job.id job) in *.
  inv_facts.
  destruct (truthy (removeOnComplete (Queue.options q))); constructor; inv_unfold; inv_step.
Qed.

Lemma canRetry_markAsFailed (job : Job.t) (error : string) (tFailed : Z) :
  Job.canRetry (Job.markAsFailed error tFailed job)
  = (Job.attempts job + 1 <? Job.maxAttempts job).
Proof. unfold Job.canRetry. simpl. by rewrite andb_true_r. Qed.

Lemma failJob_Inv (q : Queue.t) (s : Sys) (l1 l2 : list Job.t) (job : Job.t)
    (error : string) (tFailed now : Z) (rnd : Q) :
  Inv s → leased s = l1 ++ job :: l2 →
  Inv (mkSys (Queue.failJob q job error tFailed now rnd (store s)).2 (l1 ++ l2)
         (issued s)).
Proof.
  intros [] HL. destruct s as [[w a c f d h st] L I]. simpl in *. subst L.
  pose proof (release_facts w a d I l1 l2 job) as Hrel. cbv zeta in Hrel.
  destruct Hrel as ((? & ? & ? & ? & ?) & (? & ? & ? & ? & ? & ?) & (? & ? & ? & ? & ?));
    try done.
  clear inv_leased_nodup0 inv_leased_waiting0 inv_leased_delayed0
    inv_issued_leased0 inv_leased_attempts0 inv_active_nodup0
    inv_waiting_active0 inv_active_delayed0 inv_issued_active0.
  unfold Queue.failJob. rewrite canRetry_markAsFailed.
  destruct (Job.attempts job + 1 <? Job.maxAttempts job) eqn:Hretry.
  - rewrite canRetry_set_status_delayed. apply Z.ltb_lt in Hretry. inv_unfold.
    set (a' := (Redis.lrem 1 (Job.id job) a).2) in *. clearbody a'.
    set (L' := l1 ++ l2) in *. clearbody L'.
    set (x := Job.id job) in *.
    inv_facts.
    destruct (truthy (removeOnFail (Queue.options q))); constructor; inv_unfold; inv_step.
  - pose proof (canRetry_markAsFailed job error tFailed) as Hcan.
    rewrite Hretry in Hcan. rewrite Hcan. inv_unfold.
    set (a' := (Redis.lrem 1 (Job.id job) a).2) in *. clearbody a'.
    set (L' := l1 ++ l2) in *. clearbody L'.
    set (x := Job.id job) in *.
    inv_facts.
    destruct (truthy (removeOnFail (Queue.options q))); constructor; inv_unfold; inv_step.
Qed.

Lemma removeJob_Inv (s : Sys) (jobId : string) :
  Inv s → Inv (mkSys (Queue.removeJob jobId (store s)).2 (leased s) (issued s)).
Proof.
  intros []. destruct s as [[w a c f d h st] L I]. simpl in *.
  unfold Queue.removeJob. simpl.
  pose proof (lrem_all_NoDup jobId w inv_waiting_nodup0) as Hw.
  pose proof (lrem_all_NoDup jobId a inv_active_nodup0) as Ha.
  assert (∀ y, y ∈ (Redis.lrem 0 jobId w).2 → y ∈ w) as Hwsub
    by (by intros y [? _]%lrem_all_elem).
  assert (∀ y, y ∈ (Redis.lrem 0 jobId a).2 → y ∈ a) as Hasub
    by (by intros y [? _]%lrem_all_elem).
  unfold Redis.lrem in *. simpl in *.
  set (w' := filter (λ x, x ≠ jobId) w) in *. clearbody w'.
  set (a' := filter (λ x, x ≠ jobId) a) in *. clearbody a'.
  assert (∀ y, y ∈ w' → y ∉ a') as Hwa
    by (intros y Hy Hin; apply (inv_waiting_active0 y); auto).
  assert (∀ j, j ∈ L → Job.id j ∉ w') as HLw
    by (intros j Hj Hin; apply (inv_leased_waiting0 j Hj); auto).
  inv_facts.
  constructor; inv_unfold; inv_step.
Qed.

Lemma clean_Inv (s : Sys) :
  Inv s → Inv (mkSys (Queue.clean (store s)) (leased s) (issued s)).
Proof.
  intros []. constructor; simpl; try done;
    try (intros ? ?%elem_of_nil; done); try apply NoDup_nil_2.
  - intros j _. apply not_elem_of_nil.
  - intros x [sc H]. by rewrite lookup_empty in H.
Qed.

Lemma step_Inv (q : Queue.t) (s s' : Sys) : Inv s → step q s s' → Inv s'.
Proof.
  intros Hinv Hstep. destruct Hstep.
  - match goal with |- context [Job.new_ ?u ?n ?qn ?d ?o ?w] =>
      destruct (new_job_attempts u n qn d o w) as (Hid & Hatt & Hno);
      pose proof (addJob_Inv s (Job.new_ u n qn d o w) Hinv) as Hadd
    end.
    rewrite Hid in Hadd. by apply Hadd.
  - by apply getNextJob_Inv.
  - by eapply completeJob_Inv.
  - by eapply failJob_Inv.
  - match goal with
    | Hget : Queue.getJob _ _ = Some ?j, Hcan : Job.canRetry ?j = true |- _ =>
        rewrite (inv_no_retry s Hinv _ _ Hget) in Hcan; discriminate
    end.
  - by apply processDelayedJobs_Inv.
  - by apply removeJob_Inv.
  - by apply clean_Inv.
Qed.

Lemma reachable_Inv (q : Queue.t) (s : Sys) : reachable q s → Inv s.
Proof.
  intros Hreach.
  exact (rtc_ind_r Inv initSys Inv_init
           (λ y z _ Hstep Hinv, step_Inv q y z Hinv Hstep) s Hreach).
Qed.


(** Outside the model of atomic operations: the loop of
    [processDelayedJobs] does not look at what [ZREM] returns, so a sweep
    that works from a reading of the ready ids taken before another sweep
    removed them pushes each id a second time. *)
Example sweep_on_stale_reading :
  waiting (foldl Queue.promote
             (foldl Queue.promote storeDue
                (Redis.zrangebyscore 0 5 (delayed storeDue)))
             (Redis.zrangebyscore 0 5 (delayed storeDue)))
  = ["job-1"; "job-1"].
Proof. vm_compute. reflexivity. Qed.

(** ** Overlapping sweeps *)

(** The commands of one pass through the loop, with nothing in between, are
    [Queue.promote]; the commands of a whole sweep are
    [Queue.processDelayedJobs]. *)
Lemma sweepRun_promote (jobId : string) (ids : list string) (s : Store) :
  ∃ n, ∀ m, sweepRun (n + m) (SweepLoop (jobId :: ids)) s
            = sweepRun m (SweepLoop ids) (Queue.promote s jobId).
Proof.
  unfold Queue.promote.
  destruct (jobs (with_delayed (Redis.zrem jobId (delayed s)).2 s) !! jobId)
    as [job|] eqn:E.
  - exists 4%nat. intros m. simpl. simpl in E. by rewrite E.
  - exists 2%nat. intros m. simpl. simpl in E. by rewrite E.
Qed.

Lemma sweepRun_foldl (ids : list string) (s : Store) :
  ∃ n, sweepRun n (SweepLoop ids) s = (SweepLoop [], foldl Queue.promote s ids).
Proof.
  revert s. induction ids as [|x ids IH]; intros s.
  - by exists 0%nat.
  - destruct (sweepRun_promote x ids s) as [n Hn].
    destruct (IH (Queue.promote s x)) as [m Hm].
    exists (n + m)%nat. by rewrite Hn, Hm.
Qed.

Lemma sweepRun_processDelayedJobs (now : Z) (s : Store) :
  ∃ n, sweepRun n (SweepLoop (Redis.zrangebyscore 0 now (delayed s))) s
       = (SweepLoop [], Queue.processDelayedJobs now s).
Proof. apply sweepRun_foldl. Qed.

Lemma act_cstep (q : Queue.t) (a : Act) (cs cs' : CSys) :
  act q a cs = Some cs' → cstep q cs cs'.
Proof.
  destruct cs as [s sw]. destruct a as [uuid now data options webhook|now tActive
    |i res tDone|i error tFailed now rnd|now|i]; simpl.
  - destruct (decide (uuid ∈ issued s)) as [|Hfresh]; [done|].
    intros [= <-]. apply cstep_op. by apply step_add.
  - intros [= <-]. apply cstep_op. apply step_next.
  - destruct (leased s !! i) as [job|] eqn:E; [|done].
    intros [= <-]. apply cstep_op. apply step_complete.
    symmetry. by apply take_drop_middle.
  - destruct (leased s !! i) as [job|] eqn:E; [|done].
    intros [= <-]. apply cstep_op. apply step_fail.
    symmetry. by apply take_drop_middle.
  - intros [= <-]. apply cstep_start.
  - destruct (sw !! i) as [t|] eqn:E; [|done].
    destruct (sweepStep t (store s)) as [[t' st]|] eqn:E'; [|done].
    intros [= <-]. by eapply cstep_command.
Qed.

Lemma acts_creachable (q : Queue.t) (l : list Act) (cs cs' : CSys) :
  creachable q cs → acts q l cs = Some cs' → creachable q cs'.
Proof.
  revert cs. induction l as [|a l IH]; intros cs Hreach; simpl.
  - by intros [= <-].
  - destruct (act q a cs) as [cs1|] eqn:E; [|done].
    apply IH. eapply rtc_r; [exact Hreach|]. by apply (act_cstep q a).
Qed.

Lemma reachable_creachable (q : Queue.t) (s : Sys) :
  reachable q s → creachable q (mkCSys s []).
Proof.
  intros Hreach.
  exact (rtc_ind_r (λ s, creachable q (mkCSys s [])) initSys (rtc_refl _ _)
           (λ y z _ Hstep IH, rtc_r _ _ _ IH (cstep_op q y z [] Hstep)) s Hreach).
Qed.

Lemma overlapped_creachable : creachable sampleQueue overlapped.
Proof.
  apply (acts_creachable sampleQueue (twoSweeps delay3) initCSys);
    [apply rtc_refl|]. vm_compute. reflexivity.
Qed.



(** ** The claims about runs without overlap *)


Lemma sysFailed_reachable : reachable sampleQueue sysLeased ∧ step sampleQueue sysLeased sysFailed.
Proof.
  split.
  - unfold reachable. eapply rtc_l; [|eapply rtc_l; [|apply rtc_refl]].
    + apply (step_add sampleQueue initSys "job-1" 0 JNull None None).
      apply not_elem_of_empty.
    + apply (step_next sampleQueue sysAdded 1 2).
  - apply (step_fail sampleQueue sysLeased [] leasedJob [] "boom" 3 4 (1 # 2)).
    vm_compute. reflexivity.
Qed.





(** ** removeJob *)











(** The run of the example does lease the other job. *)
Example opsAfterRemove_returns :
  Job.id <$> (runOps sampleQueue opsAfterRemove
                (Queue.removeJob "job-1" storeWithJob).2).1 = ["job-0"].
Proof. vm_compute. reflexivity. Qed.

(** Every operation, whoever calls it and with whatever arguments, leaves
    the records filed under their own ids. *)
Lemma promote_keyed (s : Store) (x : string) : keyed s → keyed (Queue.promote s x).
Proof.
  intros Hk. unfold Queue.promote. inv_unfold.
  destruct (jobs s !! x) as [job|] eqn:E; inv_unfold; inv_step.
Qed.

Lemma processDelayedJobs_keyed (now : Z) (s : Store) :
  keyed s → keyed (Queue.processDelayedJobs now s).
Proof.
  unfold Queue.processDelayedJobs.
  generalize (Redis.zrangebyscore 0 now (delayed s)). intros ids. revert s.
  induction ids as [|x ids IH]; intros s Hk; simpl; [done|].
  by apply IH, promote_keyed.
Qed.

Lemma runOp_keyed (q : Queue.t) (o : Op) (s : Store) :
  keyed s → keyed (runOp q o s).2.
Proof.
  intros Hk. destruct o; simpl.
  - unfold Queue.addJob. inv_unfold.
    destruct (decide (Job.status job = DELAYED)); inv_unfold; inv_step.
  - apply (processDelayedJobs_keyed now) in Hk. unfold Queue.getNextJob.
    set (s1 := Queue.processDelayedJobs now s) in *. clearbody s1.
    destruct (Redis.rpop (waiting s1)) as [[x rest]|]; [|done].
    inv_unfold. destruct (jobs s1 !! x) as [job|] eqn:E; inv_unfold; inv_step.
  - unfold Queue.completeJob. inv_unfold.
    destruct (truthy (removeOnComplete (Queue.options q))); inv_unfold; inv_step.
  - unfold Queue.failJob.
    destruct (Job.canRetry (Job.markAsFailed error tFailed job)) eqn:Hc; simpl;
      rewrite ?canRetry_set_status_delayed, ?Hc;
      destruct (truthy (removeOnFail (Queue.options q))); inv_unfold; inv_step.
  - by apply processDelayedJobs_keyed.
  - unfold Queue.removeJob. inv_unfold. inv_step.
  - done.
Qed.

Lemma runOps_keyed (q : Queue.t) (ops : list Op) :
  keyed (runOps q ops emptyStore).2.
Proof.
  assert (∀ s, keyed s → keyed (runOps q ops s).2) as H.
  { induction ops as [|o ops IH]; intros s Hk; simpl; [done|].
    pose proof (runOp_keyed q o s Hk) as Hk1.
    destruct (runOp q o s) as [r s1]. simpl in *.
    specialize (IH s1 Hk1). by destruct (runOps q ops s1). }
  apply H. intros k job Hl. simpl in Hl. by rewrite lookup_empty in Hl.
Qed.


(** * Further properties of the code *)

(** ** processDelayedJobs *)

Lemma promote_jobs (s : Store) (x y : string) :
  jobs (Queue.promote s x) !! y
  = if decide (y = x) then Job.set_status WAITING <$> jobs s !! y else jobs s !! y.
Proof.
  unfold Queue.promote. inv_unfold.
  destruct (jobs s !! x) as [job|] eqn:E; inv_unfold; destruct (decide (y = x)) as [->|];
    simplify_map_eq; done.
Qed.

Lemma promote_waiting (s : Store) (x : string) :
  waiting (Queue.promote s x)
  = if jobs s !! x is Some _ then x :: waiting s else waiting s.
Proof. unfold Queue.promote. inv_unfold. by destruct (jobs s !! x). Qed.

Lemma promote_rest (s : Store) (x : string) :
  active (Queue.promote s x) = active s ∧
  completed (Queue.promote s x) = completed s ∧
  failed (Queue.promote s x) = failed s.
Proof. unfold Queue.promote. inv_unfold. by destruct (jobs s !! x). Qed.

Lemma set_status_twice (st : JobStatus) (o : option Job.t) :
  Job.set_status st <$> (Job.set_status st <$> o) = Job.set_status st <$> o.
Proof. by destruct o. Qed.

Lemma sweep_delayed (ids : list string) (s : Store) (y : string) :
  delayed (foldl Queue.promote s ids) !! y
  = if decide (y ∈ ids) then None else delayed s !! y.
Proof.
  revert s. induction ids as [|x ids IH]; intros s; simpl.
  - destruct (decide (y ∈ [])) as [H|]; [by apply elem_of_nil in H|done].
  - rewrite IH, promote_delayed.
    destruct (decide (y ∈ ids)) as [Hin|Hin].
    + rewrite decide_True; [done|by right].
    + destruct (decide (y = x)) as [->|Hne].
      * rewrite decide_True; [apply lookup_delete_eq|by left].
      * rewrite decide_False; [by apply lookup_delete_ne|].
        rewrite elem_of_cons. tauto.
Qed.

Lemma sweep_jobs (ids : list string) (s : Store) (y : string) :
  jobs (foldl Queue.promote s ids) !! y
  = if decide (y ∈ ids) then Job.set_status WAITING <$> jobs s !! y else jobs s !! y.
Proof.
  revert s. induction ids as [|x ids IH]; intros s; simpl.
  - destruct (decide (y ∈ [])) as [H|]; [by apply elem_of_nil in H|done].
  - rewrite IH, promote_jobs.
    destruct (decide (y ∈ ids)) as [Hin|Hin]; destruct (decide (y = x)) as [->|Hne].
    + rewrite decide_True; [apply set_status_twice|by left].
    + rewrite decide_True; [done|by right].
    + rewrite decide_True; [done|by left].
    + rewrite decide_False; [done|]. rewrite elem_of_cons. tauto.
Qed.

Lemma sweep_waiting (ids : list string) (s : Store) :
  waiting (foldl Queue.promote s ids)
  = reverse (filter (λ x, is_Some (jobs s !! x)) ids) ++ waiting s.
Proof.
  revert s. induction ids as [|x ids IH]; intros s; simpl; [done|].
  rewrite IH, promote_waiting, filter_cons.
  assert (filter (λ y, is_Some (jobs (Queue.promote s x) !! y)) ids
          = filter (λ y, is_Some (jobs s !! y)) ids) as ->.
  { apply list_filter_iff. intros y. rewrite promote_jobs.
    destruct (decide (y = x)); [|done]. by rewrite fmap_is_Some. }
  destruct (jobs s !! x) as [job|] eqn:E.
  - rewrite decide_True by eauto. rewrite reverse_cons, <- app_assoc. done.
  - rewrite decide_False; [done|]. by intros [? ?].
Qed.

Lemma sweep_rest (ids : list string) (s : Store) :
  active (foldl Queue.promote s ids) = active s ∧
  completed (foldl Queue.promote s ids) = completed s ∧
  failed (foldl Queue.promote s ids) = failed s ∧
  stats (foldl Queue.promote s ids) = stats s.
Proof.
  revert s. induction ids as [|x ids IH]; intros s; simpl; [done|].
  destruct (IH (Queue.promote s x)) as (-> & -> & -> & ->).
  destruct (promote_rest s x) as (-> & -> & ->). by rewrite promote_stats.
Qed.

Lemma due_ready (now : Z) (s : Store) (x : string) :
  x ∈ Redis.zrangebyscore 0 now (delayed s) ↔ due now s x.
Proof. apply zrangebyscore_elem. Qed.

(** X1: a sweep takes out of [delayed] exactly the ids whose score lies
    between 0 and [now]; every other id keeps its score.  Each id taken out
    that has a record gets status [waiting] and enters [waiting]; one without
    a record is dropped.  Nothing else changes. *)
Theorem processDelayedJobs_promotes (now : Z) (s : Store) :
  let s' := Queue.processDelayedJobs now s in
  (∀ x, due now s x →
        delayed s' !! x = None ∧
        jobs s' !! x = Job.set_status WAITING <$> jobs s !! x ∧
        (x ∈ waiting s' ↔ x ∈ waiting s ∨ is_Some (jobs s !! x))) ∧
  (∀ x, ¬ due now s x →
        delayed s' !! x = delayed s !! x ∧
        jobs s' !! x = jobs s !! x ∧
        (x ∈ waiting s' ↔ x ∈ waiting s)) ∧
  active s' = active s ∧ completed s' = completed s ∧
  failed s' = failed s ∧ stats s' = stats s.
Proof.
  cbv zeta. unfold Queue.processDelayedJobs.
  set (ids := Redis.zrangebyscore 0 now (delayed s)).
  assert (∀ x, x ∈ ids ↔ due now s x) as Hids by (intros x; apply due_ready).
  split_and!; try apply sweep_rest.
  - intros x Hx. apply Hids in Hx.
    rewrite sweep_delayed, sweep_jobs, sweep_waiting, !decide_True by done.
    split_and!; [done|done|].
    rewrite elem_of_app, elem_of_reverse, list_elem_of_filter. tauto.
  - intros x Hx. rewrite <- Hids in Hx.
    rewrite sweep_delayed, sweep_jobs, sweep_waiting, !decide_False by done.
    split_and!; [done|done|].
    rewrite elem_of_app, elem_of_reverse, list_elem_of_filter. tauto.
Qed.

Lemma not_due_ready (now : Z) (s : Store) :
  (∀ x, ¬ due now s x) → Redis.zrangebyscore 0 now (delayed s) = [].
Proof.
  intros Hno. destruct (Redis.zrangebyscore 0 now (delayed s)) as [|x ids] eqn:E;
    [done|].
  exfalso. apply (Hno x), due_ready. rewrite E. by left.
Qed.

(** X2: with nothing in [waiting] and nothing due in [delayed],
    [getNextJob] returns no job and leaves the store as it is. *)
Theorem getNextJob_idle (now tActive : Z) (s : Store) :
  waiting s = [] → (∀ x, ¬ due now s x) →
  Queue.getNextJob now tActive s = (None, s).
Proof.
  intros Hw Hno. unfold Queue.getNextJob, Queue.processDelayedJobs.
  rewrite (not_due_ready now s Hno). simpl. by rewrite Hw.
Qed.

Lemma getNextJob_idle_witness :
  Queue.getNextJob 2 3 storeDue = (None, storeDue).
Proof.
  apply (getNextJob_idle 2 3 storeDue); [reflexivity|].
  intros x (sc & Hsc & H0 & Hnow). unfold storeDue, Queue.addJob in Hsc.
  simpl in Hsc. unfold Redis.zadd in Hsc.
  apply lookup_insert_Some in Hsc as [[_ <-]|[_ Hsc]];
    [vm_compute in Hnow; by apply Hnow|].
  by rewrite lookup_empty in Hsc.
Defined.

(** ** The order of promotion *)

Lemma zorder_total : Total Redis.zorder.
Proof.
  intros [x a] [y b]. unfold Redis.zorder. simpl.
  destruct (Z.lt_trichotomy a b) as [?|[->|?]]; [by left; left| |by right; left].
  destruct (String.leb_total x y); [left|right]; by right.
Qed.

Lemma zorder_score (a b : string * Z) : Redis.zorder a b → a.2 ≤ b.2.
Proof. intros [?|[? _]]; lia. Qed.

Lemma Sorted_zorder_scores (l : list (string * Z)) :
  Sorted Redis.zorder l → StronglySorted (λ a b, a.2 ≤ b.2) l.
Proof.
  induction 1 as [|p l Hs IH Hhd]; [constructor|].
  constructor; [done|].
  destruct Hhd as [|q l' Hpq]; [constructor|].
  apply StronglySorted_cons in IH as [Hall _].
  apply zorder_score in Hpq. constructor; [done|].
  eapply Forall_impl; [exact Hall|]. simpl. intros r Hr. lia.
Qed.

Lemma StronglySorted_lookup {A} (R : relation A) (l : list A) (i j : nat) (a b : A) :
  StronglySorted R l → l !! i = Some a → l !! j = Some b → (i < j)%nat → R a b.
Proof.
  intros Hs. revert i j. induction Hs as [|x l Hs IH Hall]; intros i j Hi Hj Hlt.
  - by rewrite lookup_nil in Hi.
  - destruct j as [|j]; [lia|]. destruct i as [|i]; simpl in *.
    + injection Hi as <-. rewrite Forall_forall in Hall. apply Hall.
      by eapply list_elem_of_lookup_2.
    + apply (IH i j); [done|done|lia].
Qed.

(** X3: the ids a sweep promotes are the due ones, each once, in ascending
    order of score; those with a record are pushed on the left of [waiting]
    in that order, so that they are served after the ids that were waiting
    and, among themselves, by ascending score. *)
Theorem processDelayedJobs_order (now : Z) (s : Store) :
  let ready := Redis.zrangebyscore 0 now (delayed s) in
  NoDup ready ∧
  (∀ x, x ∈ ready ↔ due now s x) ∧
  (∀ i j x y a b,
     ready !! i = Some x → ready !! j = Some y → (i < j)%nat →
     delayed s !! x = Some a → delayed s !! y = Some b → a ≤ b) ∧
  waiting (Queue.processDelayedJobs now s)
  = reverse (filter (λ x, is_Some (jobs s !! x)) ready) ++ waiting s.
Proof.
  cbv zeta. split_and!.
  - apply zrangebyscore_NoDup.
  - intros x. apply due_ready.
  - unfold Redis.zrangebyscore. intros i j x y a b Hi Hj Hlt Ha Hb.
    set (ps := merge_sort Redis.zorder
                 (filter (λ e : string * Z, 0 ≤ e.2 ∧ e.2 ≤ now)
                    (map_to_list (delayed s)))) in *.
    assert (StronglySorted (λ p q : string * Z, p.2 ≤ q.2) ps) as Hs.
    { apply Sorted_zorder_scores.
      apply (@Sorted_merge_sort _ _ _ zorder_total). }
    assert (∀ p, p ∈ ps → delayed s !! p.1 = Some p.2) as Hmem.
    { intros [k sc]. unfold ps. rewrite merge_sort_Permutation.
      intros [_ Hin%elem_of_map_to_list]%list_elem_of_filter. done. }
    apply list_lookup_fmap_Some in Hi as (p & -> & Hp).
    apply list_lookup_fmap_Some in Hj as (r & -> & Hr).
    pose proof (StronglySorted_lookup _ ps i j p r Hs Hp Hr Hlt) as Hle.
    rewrite (Hmem p) in Ha by (by eapply list_elem_of_lookup_2).
    rewrite (Hmem r) in Hb by (by eapply list_elem_of_lookup_2).
    simpl in *. congruence.
  - apply sweep_waiting.
Qed.

(** ** A failed job and the sweep *)

Lemma failJob_retry_store (q : Queue.t) (job : Job.t) (error : string)
    (tFailed now : Z) (rnd : Q) (s : Store) :
  Job.canRetry (Job.markAsFailed error tFailed job) = true →
  let s1 := (Queue.failJob q job error tFailed now rnd s).2 in
  delayed s1
  = <[Job.id job := now + Queue.calculateRetryDelay rnd (Job.attempts job + 1)]>
      (delayed s) ∧
  waiting s1 = waiting s ∧
  jobs s1 =
    if truthy (removeOnFail (Queue.options q))
    then delete (Job.id job) (jobs s)
    else <[Job.id job := Job.set_status DELAYED (Job.markAsFailed error tFailed job)]>
           (jobs s).
Proof.
  intros Hretry. cbv zeta. unfold Queue.failJob. rewrite Hretry.
  rewrite canRetry_set_status_delayed. simpl.
  destruct (truthy (removeOnFail (Queue.options q))); simpl; split_and!; try done.
  unfold Redis.hdel. simpl. by rewrite delete_insert_eq.
Qed.

Lemma retry_score_bounds (rnd : Q) (attempts now : Z) :
  0 ≤ attempts → (0 <= rnd)%Q → (rnd < 1)%Q →
  now + 1000 ≤ now + Queue.calculateRetryDelay rnd (attempts + 1) ∧
  now + Queue.calculateRetryDelay rnd (attempts + 1) ≤ now + 66000.
Proof.
  intros Ha H0 H1.
  destruct (queue_delay_bounds rnd (attempts + 1) ltac:(lia) H0 H1) as [Hlo Hhi].
  pose proof (queueBase_pos (attempts + 1) ltac:(lia)). lia.
Qed.

(** X4: a job that fails with attempts left, in a queue that keeps failed
    jobs, waits in [delayed] between 1 and 66 seconds: a sweep before its
    score leaves it there, and the first sweep at or after its score puts it
    back into [waiting] with status [waiting], the error recorded and one
    attempt more. *)
Theorem retried_job_comes_back (q : Queue.t) (job : Job.t) (error : string)
    (tFailed now now' : Z) (rnd : Q) (s : Store) :
  Job.canRetry (Job.markAsFailed error tFailed job) = true →
  truthy (removeOnFail (Queue.options q)) = false →
  0 ≤ now → 0 ≤ Job.attempts job → (0 <= rnd)%Q → (rnd < 1)%Q →
  let s1 := (Queue.failJob q job error tFailed now rnd s).2 in
  let s2 := Queue.processDelayedJobs now' s1 in
  ∃ score,
    now + 1000 ≤ score ∧ score ≤ now + 66000 ∧
    delayed s1 !! Job.id job = Some score ∧
    (now' < score →
       delayed s2 !! Job.id job = Some score ∧
       (Job.id job ∈ waiting s2 ↔ Job.id job ∈ waiting s)) ∧
    (score ≤ now' →
       delayed s2 !! Job.id job = None ∧
       Job.id job ∈ waiting s2 ∧
       ∃ job2, Queue.getJob (Job.id job) s2 = Some job2 ∧
               Job.status job2 = WAITING ∧
               Job.attempts job2 = Job.attempts job + 1 ∧
               Job.error job2 = Some error).
Proof.
  intros Hretry Hkeep Hnow Hatt H0 H1. cbv zeta.
  destruct (failJob_retry_store q job error tFailed now rnd s Hretry)
    as (Hd & Hw & Hj). rewrite Hkeep in Hj.
  destruct (retry_score_bounds rnd (Job.attempts job) now Hatt H0 H1) as [Hlo Hhi].
  set (s1 := (Queue.failJob q job error tFailed now rnd s).2) in *.
  set (score := now + Queue.calculateRetryDelay rnd (Job.attempts job + 1)) in *.
  assert (delayed s1 !! Job.id job = Some score) as Hsc
    by (rewrite Hd; apply lookup_insert_eq).
  exists score. split_and!; [done|done|done| |].
  - intros Hearly. unfold Queue.processDelayedJobs.
    assert (Job.id job ∉ Redis.zrangebyscore 0 now' (delayed s1)) as Hnot.
    { rewrite due_ready. intros (sc & Hsc' & _ & Hle). rewrite Hsc in Hsc'.
      injection Hsc' as <-. lia. }
    rewrite sweep_delayed, sweep_waiting, decide_False by done.
    split; [done|]. rewrite elem_of_app, elem_of_reverse, list_elem_of_filter, Hw.
    tauto.
  - intros Hlate. unfold Queue.processDelayedJobs, Queue.getJob.
    assert (Job.id job ∈ Redis.zrangebyscore 0 now' (delayed s1)) as Hin.
    { rewrite due_ready. exists score. split_and!; [done|lia|done]. }
    assert (jobs s1 !! Job.id job
            = Some (Job.set_status DELAYED (Job.markAsFailed error tFailed job)))
      as Hrec by (rewrite Hj; apply lookup_insert_eq).
    rewrite sweep_delayed, sweep_jobs, sweep_waiting, !decide_True by done.
    split_and!; [done| |].
    + rewrite elem_of_app, elem_of_reverse, list_elem_of_filter. left.
      split; [by rewrite Hrec|done].
    + rewrite Hrec. simpl. eexists. split; [done|]. done.
Qed.

Lemma retried_job_comes_back_witness :
  "job-1" ∈ waiting
    (Queue.processDelayedJobs 5000
       (Queue.failJob sampleQueue leasedJob "boom" 3 4 (1 # 2) (store sysLeased)).2).
Proof.
  destruct (retried_job_comes_back sampleQueue leasedJob "boom" 3 4 5000 (1 # 2)
              (store sysLeased) eq_refl eq_refl ltac:(lia) ltac:(simpl; lia)
              ltac:(done) ltac:(done)) as (score & _ & Hhi & Hsc & _ & Hlate).
  assert (score = 2104) as ->.
  { vm_compute in Hsc. by injection Hsc as <-. }
  exact (proj1 (proj2 (Hlate ltac:(lia)))).
Defined.

(** X5: in a queue that removes failed jobs ([removeOnFail]), a job that
    fails with attempts left is lost: its record is deleted at once, and the
    first sweep at or after its score takes the id out of [delayed] without
    putting it into [waiting]. *)
Theorem retried_job_lost_with_removeOnFail (q : Queue.t) (job : Job.t)
    (error : string) (tFailed now now' : Z) (rnd : Q) (s : Store) :
  Job.canRetry (Job.markAsFailed error tFailed job) = true →
  truthy (removeOnFail (Queue.options q)) = true →
  0 ≤ now → 0 ≤ Job.attempts job → (0 <= rnd)%Q → (rnd < 1)%Q →
  now + 66000 ≤ now' →
  let s1 := (Queue.failJob q job error tFailed now rnd s).2 in
  let s2 := Queue.processDelayedJobs now' s1 in
  Queue.getJob (Job.id job) s1 = None ∧
  is_Some (delayed s1 !! Job.id job) ∧
  Queue.getJob (Job.id job) s2 = None ∧
  delayed s2 !! Job.id job = None ∧
  (Job.id job ∈ waiting s2 ↔ Job.id job ∈ waiting s).
Proof.
  intros Hretry Hrm Hnow Hatt H0 H1 Hlate. cbv zeta.
  destruct (failJob_retry_store q job error tFailed now rnd s Hretry)
    as (Hd & Hw & Hj). rewrite Hrm in Hj.
  destruct (retry_score_bounds rnd (Job.attempts job) now Hatt H0 H1) as [Hlo Hhi].
  set (s1 := (Queue.failJob q job error tFailed now rnd s).2) in *.
  set (score := now + Queue.calculateRetryDelay rnd (Job.attempts job + 1)) in *.
  assert (delayed s1 !! Job.id job = Some score) as Hsc
    by (rewrite Hd; apply lookup_insert_eq).
  assert (jobs s1 !! Job.id job = None) as Hrec
    by (rewrite Hj; apply lookup_delete_eq).
  assert (Job.id job ∈ Redis.zrangebyscore 0 now' (delayed s1)) as Hin.
  { rewrite due_ready. exists score. split_and!; [done|lia|lia]. }
  unfold Queue.getJob, Queue.processDelayedJobs.
  rewrite sweep_delayed, sweep_jobs, sweep_waiting, !decide_True by done.
  split_and!; [done|by rewrite Hsc|by rewrite Hrec|done|].
  rewrite elem_of_app, elem_of_reverse, list_elem_of_filter, Hrec, Hw.
  split; [intros [[[? ?] _]|?]; done|by right].
Qed.

Lemma retried_job_lost_with_removeOnFail_witness :
  Queue.getJob "job-1"
    (Queue.processDelayedJobs 70000
       (Queue.failJob dropQueue leasedJob "boom" 3 4 (1 # 2) (store sysLeased)).2)
  = None.
Proof.
  exact (proj1 (proj2 (proj2
    (retried_job_lost_with_removeOnFail dropQueue leasedJob "boom" 3 4 70000
       (1 # 2) (store sysLeased) eq_refl eq_refl ltac:(lia) ltac:(simpl; lia)
       ltac:(done) ltac:(done) ltac:(lia))))).
Defined.

(** ** removeJob *)

Lemma filter_ne_length (v : string) (l : list string) :
  (length (filter (λ x, x ≠ v) l) ≤ length l)%nat ∧
  (length (filter (λ x, x ≠ v) l) < length l ↔ v ∈ l)%nat.
Proof.
  induction l as [|x l [IH1 IH2]]; simpl.
  - split; [done|]. split; [lia|by intros ?%elem_of_nil].
  - rewrite filter_cons. destruct (decide (x ≠ v)) as [Hne|Heq]; simpl.
    + split; [lia|]. rewrite elem_of_cons. split.
      * intros Hlt. right. apply IH2. lia.
      * intros [->|Hin]; [done|]. apply IH2 in Hin. lia.
    + split; [lia|]. apply dec_stable in Heq as ->. split; [by left|lia].
Qed.

Lemma lrem_all_count (v : string) (l : list string) :
  (0 <? (Redis.lrem 0 v l).1) = true ↔ v ∈ l.
Proof.
  unfold Redis.lrem. simpl. rewrite Z.ltb_lt.
  destruct (filter_ne_length v l) as [H1 H2]. rewrite <- H2. lia.
Qed.

Lemma lrem_all_absent (v : string) (l : list string) :
  v ∉ l → (Redis.lrem 0 v l).2 = l.
Proof.
  unfold Redis.lrem. simpl. induction l as [|x l IH]; [done|].
  intros [Hne Hin]%not_elem_of_cons. rewrite filter_cons.
  rewrite decide_True by done. by rewrite IH.
Qed.

Lemma count_is_Some {V} (o : option V) :
  (0 <? (if o is Some _ then 1 else 0)) = true ↔ is_Some o.
Proof.
  destruct o; simpl; (split; [|intros [? ?]]); try done.
Qed.

Lemma removeJob_true_iff (jobId : string) (s : Store) :
  (Queue.removeJob jobId s).1 = true ↔ present jobId s.
Proof.
  unfold Queue.removeJob, present, Redis.zrem, Redis.hdel.
  destruct (Redis.lrem 0 jobId (waiting s)) as [n1 w] eqn:E1.
  destruct (Redis.lrem 0 jobId (active s)) as [n2 a] eqn:E2.
  destruct (Redis.lrem 0 jobId (completed s)) as [n3 c] eqn:E3.
  destruct (Redis.lrem 0 jobId (failed s)) as [n4 f] eqn:E4.
  simpl. rewrite orb_false_r, !orb_true_iff.
  rewrite <- (lrem_all_count jobId (waiting s)), <- (lrem_all_count jobId (active s)),
    <- (lrem_all_count jobId (completed s)), <- (lrem_all_count jobId (failed s)).
  rewrite E1, E2, E3, E4, !count_is_Some. simpl. tauto.
Qed.

Lemma removeJob_not_present (jobId : string) (s : Store) :
  ¬ present jobId (Queue.removeJob jobId s).2.
Proof.
  unfold Queue.removeJob, present. simpl.
  rewrite !list_elem_of_filter, !lookup_delete_eq.
  intros [[? _]|[[? _]|[[? _]|[[? _]|[[? ?]|[? ?]]]]]]; done.
Qed.

(** X6: [removeJob] returns true exactly when the id is in one of the five
    structures or has a record; afterwards the id is in none of them and has
    no record, so that a second [removeJob] returns false; and when it
    returns false the store is unchanged. *)
Theorem removeJob_result (jobId : string) (s : Store) :
  let r := Queue.removeJob jobId s in
  (r.1 = true ↔ present jobId s) ∧
  ¬ present jobId r.2 ∧
  (Queue.removeJob jobId r.2).1 = false ∧
  (r.1 = false → r.2 = s).
Proof.
  cbv zeta. split_and!.
  - apply removeJob_true_iff.
  - apply removeJob_not_present.
  - destruct ((Queue.removeJob jobId (Queue.removeJob jobId s).2).1) eqn:E; [|done].
    apply removeJob_true_iff in E. by apply removeJob_not_present in E.
  - intros Hf.
    assert (¬ present jobId s) as Hno
      by (rewrite <- removeJob_true_iff, Hf; done).
    unfold present in Hno. unfold Queue.removeJob, Redis.zrem, Redis.hdel.
    pose proof (lrem_all_absent jobId (waiting s)) as Hw.
    pose proof (lrem_all_absent jobId (active s)) as Ha.
    pose proof (lrem_all_absent jobId (completed s)) as Hc.
    pose proof (lrem_all_absent jobId (failed s)) as Hfl.
    destruct (Redis.lrem 0 jobId (waiting s)) as [n1 w].
    destruct (Redis.lrem 0 jobId (active s)) as [n2 a].
    destruct (Redis.lrem 0 jobId (completed s)) as [n3 c].
    destruct (Redis.lrem 0 jobId (failed s)) as [n4 f].
    simpl in *. rewrite Hw, Ha, Hc, Hfl by tauto.
    rewrite !delete_id.
    + by destruct s.
    + destruct (jobs s !! jobId) eqn:E; [|done]. exfalso. apply Hno. eauto 10.
    + destruct (delayed s !! jobId) eqn:E; [|done]. exfalso. apply Hno. eauto 10.
Qed.

(** X7: [removeJob] touches no other job: every other id stays where it
    was, with its score and its record, and the counters are not changed. *)
Theorem removeJob_others (jobId x : string) (s : Store) :
  x ≠ jobId →
  let s' := (Queue.removeJob jobId s).2 in
  (x ∈ waiting s' ↔ x ∈ waiting s) ∧
  (x ∈ active s' ↔ x ∈ active s) ∧
  (x ∈ completed s' ↔ x ∈ completed s) ∧
  (x ∈ failed s' ↔ x ∈ failed s) ∧
  delayed s' !! x = delayed s !! x ∧
  Queue.getJob x s' = Queue.getJob x s ∧
  stats s' = stats s.
Proof.
  intros Hne. cbv zeta. unfold Queue.removeJob, Queue.getJob. simpl.
  rewrite !list_elem_of_filter, !lookup_delete_ne by done. tauto.
Qed.

Lemma removeJob_others_witness :
  Queue.getJob "job-0" (Queue.removeJob "job-1" storeWithJob).2
  = Queue.getJob "job-0" storeWithJob.
Proof.
  pose proof (removeJob_others "job-1" "job-0" storeWithJob ltac:(done)) as H.
  cbv zeta in H. exact (proj1 (proj2 (proj2 (proj2 (proj2 (proj2 H)))))).
Defined.

(** ** First in, first out *)

Lemma addJob_not_delayed (job : Job.t) (s : Store) :
  Job.status job ≠ DELAYED →
  waiting (Queue.addJob job s) = Job.id job :: waiting s ∧
  delayed (Queue.addJob job s) = delayed s.
Proof. intros Hst. unfold Queue.addJob. by rewrite decide_False. Qed.

Lemma addJob_jobs (job : Job.t) (s : Store) :
  jobs (Queue.addJob job s) = <[Job.id job := job]> (jobs s).
Proof. unfold Queue.addJob. by destruct (decide _). Qed.

Lemma addAll_cons (job : Job.t) (js : list Job.t) (s : Store) :
  addAll (job :: js) s = addAll js (Queue.addJob job s).
Proof. done. Qed.

Lemma addAll_waiting (js : list Job.t) (s : Store) :
  Forall (λ job, Job.status job ≠ DELAYED) js →
  waiting (addAll js s) = reverse (Job.id <$> js) ++ waiting s ∧
  delayed (addAll js s) = delayed s.
Proof.
  revert s. induction js as [|job js IH]; intros s Hst; [done|].
  apply Forall_cons in Hst as [Hjob Hst]. rewrite addAll_cons.
  destruct (IH (Queue.addJob job s) Hst) as [-> ->].
  destruct (addJob_not_delayed job s Hjob) as [-> ->].
  rewrite fmap_cons, reverse_cons, <- app_assoc. done.
Qed.

Lemma addAll_jobs_other (js : list Job.t) (s : Store) (k : string) :
  k ∉ Job.id <$> js → jobs (addAll js s) !! k = jobs s !! k.
Proof.
  revert s. induction js as [|job js IH]; intros s Hk; [done|].
  rewrite fmap_cons in Hk. apply not_elem_of_cons in Hk as [Hne Hk].
  rewrite addAll_cons, (IH _ Hk), addJob_jobs.
  by apply lookup_insert_ne.
Qed.

Lemma addAll_jobs (js : list Job.t) (s : Store) (job : Job.t) :
  NoDup (Job.id <$> js) → job ∈ js → jobs (addAll js s) !! Job.id job = Some job.
Proof.
  revert s. induction js as [|j js IH]; intros s Hnd Hin; [by apply elem_of_nil in Hin|].
  rewrite fmap_cons in Hnd. apply NoDup_cons in Hnd as [Hj Hnd].
  rewrite addAll_cons. apply elem_of_cons in Hin as [->|Hin].
  - rewrite (addAll_jobs_other js (Queue.addJob j s) (Job.id j) Hj), addJob_jobs.
    apply lookup_insert_eq.
  - by apply IH.
Qed.

Lemma drain_in_order (q : Queue.t) (now tActive : Z) (js : list Job.t) (s : Store) :
  delayed s = ∅ →
  waiting s = reverse (Job.id <$> js) →
  NoDup (Job.id <$> js) →
  (∀ job, job ∈ js → jobs s !! Job.id job = Some job) →
  (runOps q (nextN (length js) now tActive) s).1 = Job.markAsActive tActive <$> js.
Proof.
  revert s. induction js as [|job js IH]; intros s Hd Hw Hnd Hrec; [done|].
  rewrite fmap_cons in Hnd, Hw. apply NoDup_cons in Hnd as [Hjob Hnd].
  rewrite reverse_cons in Hw. simpl.
  assert (Queue.processDelayedJobs now s = s) as Hsweep.
  { unfold Queue.processDelayedJobs. rewrite not_due_ready; [done|].
    intros x (sc & Hsc & _). by rewrite Hd, lookup_empty in Hsc. }
  unfold Queue.getNextJob. rewrite Hsweep, Hw, rpop_app. simpl.
  rewrite (Hrec job) by (by left). simpl.
  match goal with |- context [runOps q ?ops ?s1] =>
    pose proof (IH s1) as IH1; change ops with (nextN (length js) now tActive);
    destruct (runOps q (nextN (length js) now tActive) s1) as [rs s2] end.
  simpl in *. f_equal. apply IH1; [done|done|done|].
  intros j Hj. rewrite lookup_insert_ne; [apply Hrec; by right|].
  intros Heq. apply Hjob. rewrite Heq. by apply list_elem_of_fmap_2.
Qed.

(** X8: jobs without delay, with distinct ids, added one after the other
    to a queue with nothing waiting and nothing delayed are handed out by
    [getNextJob] in the order in which they were added, each marked
    [active]. *)
Theorem first_in_first_out (q : Queue.t) (now tActive : Z) (js : list Job.t)
    (s : Store) :
  waiting s = [] → delayed s = ∅ →
  NoDup (Job.id <$> js) →
  Forall (λ job, Job.status job ≠ DELAYED) js →
  (runOps q (nextN (length js) now tActive) (addAll js s)).1
  = Job.markAsActive tActive <$> js.
Proof.
  intros Hw Hd Hnd Hst.
  destruct (addAll_waiting js s Hst) as [Hw' Hd'].
  apply drain_in_order; [by rewrite Hd'|by rewrite Hw', Hw, app_nil_r|done|].
  intros job Hjob. by apply addAll_jobs.
Qed.

Lemma first_in_first_out_witness :
  Job.id <$> (runOps sampleQueue (nextN 2 5 6) (addAll [jobA; jobB] emptyStore)).1
  = ["a"; "b"].
Proof.
  assert (NoDup (Job.id <$> [jobA; jobB])) as Hnd.
  { apply NoDup_cons. split; [|apply NoDup_singleton].
    intros H%list_elem_of_singleton. discriminate H. }
  assert (Forall (λ job, Job.status job ≠ DELAYED) [jobA; jobB]) as Hst
    by (repeat constructor; discriminate).
  exact (f_equal (fmap Job.id)
           (first_in_first_out sampleQueue 5 6 [jobA; jobB] emptyStore
              eq_refl eq_refl Hnd Hst)).
Defined.

(** ** Records and structures agree *)

Lemma Filed_init : Filed initSys.
Proof.
  constructor; simpl; try (intros ? ?%elem_of_nil; done).
  intros x job _ H. by rewrite lookup_empty in H.
Qed.

Ltac filed_lookup :=
  repeat match goal with
  | |- context [<[?k := _]> _ !! ?x] =>
      first [ rewrite (lookup_insert_ne _ k x) by (done || congruence || eauto)
            | rewrite (lookup_insert_eq _ k) ]
  | |- context [delete ?k _ !! ?x] =>
      first [ rewrite (lookup_delete_ne _ k x) by (done || congruence || eauto)
            | rewrite (lookup_delete_eq _ k) ]
  end.

Lemma promote_Filed (s : Sys) (x : string) :
  Inv s → Filed s → is_Some (delayed (store s) !! x) →
  Filed (mkSys (Queue.promote (store s) x) (leased s) (issued s)).
Proof.
  intros Hinv [Fw Fa Fd] Hx. destruct Hinv. destruct s as [[w a c f d h st] L I].
  simpl in *.
  assert (x ∉ w) as Hxw.
  { intros Hin. apply inv_waiting_delayed0 in Hin. rewrite Hin in Hx. by destruct Hx. }
  assert (x ∉ a) as Hxa.
  { intros Hin. apply inv_active_delayed0 in Hin. rewrite Hin in Hx. by destruct Hx. }
  unfold Queue.promote. inv_unfold.
  destruct (h !! x) as [job|] eqn:E; constructor; inv_unfold.
  - intros y [->|Hy]%elem_of_cons; [by rewrite lookup_insert_eq|].
    rewrite lookup_insert_ne by (by intros ->). by apply Fw.
  - intros y Hy. rewrite lookup_insert_ne by (by intros ->). by apply Fa.
  - intros y job' [sc [Hne Hsc]%lookup_delete_Some] Hl.
    rewrite lookup_insert_ne in Hl by done.
    exact (Fd y job' (mk_is_Some _ _ Hsc) Hl).
  - done.
  - done.
  - intros y job' [sc [Hne Hsc]%lookup_delete_Some] Hl.
    exact (Fd y job' (mk_is_Some _ _ Hsc) Hl).
Qed.

Lemma foldl_promote_Filed (ids : list string) (s : Sys) :
  NoDup ids → (∀ x, x ∈ ids → is_Some (delayed (store s) !! x)) → Inv s → Filed s →
  Filed (mkSys (foldl Queue.promote (store s) ids) (leased s) (issued s)).
Proof.
  revert s. induction ids as [|x ids IH]; intros s Hnd Hin Hinv Hf; simpl.
  - by destruct s.
  - apply NoDup_cons in Hnd as [Hx Hnd].
    apply (IH (mkSys (Queue.promote (store s) x) (leased s) (issued s))); [done| | |].
    + intros y Hy. simpl. rewrite promote_delayed, lookup_delete_ne.
      * apply Hin. by right.
      * intros ->. done.
    + apply promote_Inv; [done|]. apply Hin. by left.
    + apply promote_Filed; [done|done|]. apply Hin. by left.
Qed.

Lemma processDelayedJobs_Filed (now : Z) (s : Sys) :
  Inv s → Filed s →
  Filed (mkSys (Queue.processDelayedJobs now (store s)) (leased s) (issued s)).
Proof.
  intros Hinv Hf. unfold Queue.processDelayedJobs.
  apply foldl_promote_Filed; [apply zrangebyscore_NoDup| |done|done].
  intros x (sc & Hsc & _)%zrangebyscore_elem. eauto.
Qed.

Lemma getNextJob_Filed (now tActive : Z) (s : Sys) :
  Inv s → Filed s →
  Filed (mkSys (Queue.getNextJob now tActive (store s)).2
           (match (Queue.getNextJob now tActive (store s)).1 with
            | Some job => job :: leased s
            | None => leased s
            end)
           (issued s)).
Proof.
  intros Hinv Hf.
  pose proof (processDelayedJobs_Inv now s Hinv) as Hinv1.
  pose proof (processDelayedJobs_Filed now s Hinv Hf) as Hf1.
  unfold Queue.getNextJob.
  set (s1 := Queue.processDelayedJobs now (store s)) in *. clearbody s1.
  destruct Hinv1, Hf1 as [Fw Fa Fd]. simpl in *.
  destruct (Redis.rpop (waiting s1)) as [[x rest]|] eqn:Hpop; [|by constructor].
  apply rpop_Some in Hpop. rewrite Hpop in *.
  assert (x ∈ rest ++ [x]) as Hxin
    by (rewrite elem_of_app, list_elem_of_singleton; by right).
  apply NoDup_app in inv_waiting_nodup0 as (_ & Hrest & _).
  assert (x ∉ rest) as Hx by (intros Hin; apply (Hrest x Hin); by left).
  pose proof (inv_waiting_active0 x Hxin) as Hxa.
  pose proof (inv_waiting_delayed0 x Hxin) as Hxd.
  pose proof (Fw x Hxin) as Hrec.
  inv_unfold. destruct (jobs s1 !! x) as [job|] eqn:E; [|done]. simpl.
  pose proof (inv_keyed0 x job E) as Hid. rewrite Hid.
  constructor; inv_unfold.
  - intros y Hy. rewrite lookup_insert_ne by (by intros ->).
    apply Fw. rewrite elem_of_app. by left.
  - intros y [->|Hy]%elem_of_cons; [by rewrite lookup_insert_eq|].
    rewrite lookup_insert_ne by (by intros ->). by apply Fa.
  - intros y job' [sc Hsc] Hl.
    rewrite lookup_insert_ne in Hl by (intros ->; congruence).
    exact (Fd y job' (mk_is_Some _ _ Hsc) Hl).
Qed.

Lemma new_job_status (uuid : string) (now : Z) (queueName : string)
    (data : json) (options : option JobOptions) (webhook : option WebhookConfig) :
  let job := Job.new_ uuid now queueName data options webhook in
  Job.status job = WAITING ∨ Job.status job = DELAYED.
Proof.
  simpl. destruct options as [o|]; simpl; [|by left].
  destruct (jo_delay o) as [d|]; simpl; [|by left].
  destruct (0 <? d); [by right|by left].
Qed.

Ltac filed_other y x :=
  assert (y ≠ x) by (intros ->; done || tauto || congruence);
  filed_lookup.

Lemma addJob_Filed (s : Sys) (job : Job.t) :
  Inv s → Filed s → Job.id job ∉ issued s →
  Job.status job = WAITING ∨ Job.status job = DELAYED →
  Filed (mkSys (Queue.addJob job (store s)) (leased s) ({[Job.id job]} ∪ issued s)).
Proof.
  intros Hinv [Fw Fa Fd] Hfresh Hst. destruct Hinv.
  destruct s as [[w a c f d h st] L I]. simpl in *.
  unfold Queue.addJob. inv_unfold.
  set (x := Job.id job) in *.
  assert (x ∉ w) as Hxw by (intros Hin; by apply Hfresh, inv_issued_waiting0).
  assert (x ∉ a) as Hxa by (intros Hin; by apply Hfresh, inv_issued_active0).
  assert (d !! x = None) as Hxd.
  { destruct (d !! x) eqn:E; [|done]. exfalso. apply Hfresh, inv_issued_delayed0.
    rewrite E. eauto. }
  clearbody x.
  destruct (decide (Job.status job = DELAYED)) as [Hd|Hd];
    constructor; inv_unfold.
  - intros y Hy. filed_other y x. by apply Fw.
  - intros y Hy. filed_other y x. by apply Fa.
  - intros y job' [sc Hsc] Hl. destruct (decide (y = x)) as [->|Hne].
    + rewrite lookup_insert_eq in Hl. congruence.
    + rewrite lookup_insert_ne in Hl by done. rewrite lookup_insert_ne in Hsc by done.
      exact (Fd y job' (mk_is_Some _ _ Hsc) Hl).
  - intros y [->|Hy]%elem_of_cons.
    + rewrite lookup_insert_eq. simpl. f_equal. by destruct Hst.
    + filed_other y x. by apply Fw.
  - intros y Hy. filed_other y x. by apply Fa.
  - intros y job' [sc Hsc] Hl.
    rewrite lookup_insert_ne in Hl by (intros <-; congruence).
    exact (Fd y job' (mk_is_Some _ _ Hsc) Hl).
Qed.

Lemma completeJob_Filed (q : Queue.t) (s : Sys) (l1 l2 : list Job.t) (job : Job.t)
    (res : option json) (tDone : Z) :
  Inv s → Filed s → leased s = l1 ++ job :: l2 →
  Filed (mkSys (Queue.completeJob q job res tDone (store s)).2 (l1 ++ l2) (issued s)).
Proof.
  intros Hinv [Fw Fa Fd] HL. destruct Hinv.
  destruct s as [[w a c f d h st] L I]. simpl in *. subst L.
  pose proof (release_facts w a d I l1 l2 job) as Hrel. cbv zeta in Hrel.
  destruct Hrel as ((_ & Hxa & _) & _ & (Hxw & Hxd & _)); try done.
  pose proof (λ y, lrem_one_subset (Job.id job) y a) as Hasub.
  unfold Queue.completeJob. inv_unfold.
  set (a' := (Redis.lrem 1 (Job.id job) a).2) in *. clearbody a'.
  set (x := Job.id job) in *. clearbody x.
  destruct (truthy (removeOnComplete (Queue.options q))); constructor; inv_unfold.
  all: try (intros y Hy; filed_other y x; by auto).
  all: intros y job' [sc Hsc] Hl;
    assert (y ≠ x) as Hne by (intros ->; congruence);
    repeat first [rewrite lookup_delete_ne in Hl by done
                 |rewrite lookup_insert_ne in Hl by done];
    exact (Fd y job' (mk_is_Some _ _ Hsc) Hl).
Qed.

Lemma failJob_Filed (q : Queue.t) (s : Sys) (l1 l2 : list Job.t) (job : Job.t)
    (error : string) (tFailed now : Z) (rnd : Q) :
  Inv s → Filed s → leased s = l1 ++ job :: l2 →
  Filed (mkSys (Queue.failJob q job error tFailed now rnd (store s)).2 (l1 ++ l2)
           (issued s)).
Proof.
  intros Hinv [Fw Fa Fd] HL. destruct Hinv.
  destruct s as [[w a c f d h st] L I]. simpl in *. subst L.
  pose proof (release_facts w a d I l1 l2 job) as Hrel. cbv zeta in Hrel.
  destruct Hrel as ((_ & Hxa & _) & _ & (Hxw & Hxd & _)); try done.
  pose proof (λ y, lrem_one_subset (Job.id job) y a) as Hasub.
  unfold Queue.failJob. rewrite canRetry_markAsFailed.
  destruct (Job.attempts job + 1 <? Job.maxAttempts job) eqn:Hretry.
  - rewrite canRetry_set_status_delayed. inv_unfold.
    set (a' := (Redis.lrem 1 (Job.id job) a).2) in *. clearbody a'.
    set (x := Job.id job) in *. clearbody x.
    destruct (truthy (removeOnFail (Queue.options q))); constructor; inv_unfold.
    all: try (intros y Hy; filed_other y x; by auto).
    all: intros y job' [sc Hsc] Hl; destruct (decide (y = x)) as [->|Hne];
      [ first [ by rewrite lookup_delete_eq in Hl
              | rewrite lookup_insert_eq in Hl; by inversion Hl ]
      | rewrite lookup_insert_ne in Hsc by done;
        repeat first [rewrite lookup_delete_ne in Hl by done
                     |rewrite lookup_insert_ne in Hl by done];
        exact (Fd y job' (mk_is_Some _ _ Hsc) Hl) ].
  - pose proof (canRetry_markAsFailed job error tFailed) as Hcan.
    rewrite Hretry in Hcan. rewrite Hcan. inv_unfold.
    set (a' := (Redis.lrem 1 (Job.id job) a).2) in *. clearbody a'.
    set (x := Job.id job) in *. clearbody x.
    destruct (truthy (removeOnFail (Queue.options q))); constructor; inv_unfold.
    all: try (intros y Hy; filed_other y x; by auto).
    all: intros y job' [sc Hsc] Hl;
      assert (y ≠ x) as Hne by (intros ->; congruence);
      repeat first [rewrite lookup_delete_ne in Hl by done
                   |rewrite lookup_insert_ne in Hl by done];
      exact (Fd y job' (mk_is_Some _ _ Hsc) Hl).
Qed.

Lemma removeJob_Filed (s : Sys) (jobId : string) :
  Filed s → Filed (mkSys (Queue.removeJob jobId (store s)).2 (leased s) (issued s)).
Proof.
  intros [Fw Fa Fd]. destruct s as [[w a c f d h st] L I]. simpl in *.
  unfold Queue.removeJob. constructor; inv_unfold.
  - intros y [Hy Hne]%lrem_all_elem. rewrite lookup_delete_ne by done. by apply Fw.
  - intros y [Hy Hne]%lrem_all_elem. rewrite lookup_delete_ne by done. by apply Fa.
  - intros y job' [sc [Hne Hsc]%lookup_delete_Some] Hl.
    rewrite lookup_delete_ne in Hl by done.
    exact (Fd y job' (mk_is_Some _ _ Hsc) Hl).
Qed.

Lemma step_Filed (q : Queue.t) (s s' : Sys) :
  Inv s → Filed s → step q s s' → Filed s'.
Proof.
  intros Hinv Hf Hstep. destruct Hstep.
  - match goal with |- context [Job.new_ ?u ?n ?qn ?d ?o ?w] =>
      pose proof (new_job_status u n qn d o w) as Hst;
      pose proof (addJob_Filed s (Job.new_ u n qn d o w) Hinv Hf) as Hadd
    end.
    cbv zeta in Hst. by apply Hadd.
  - by apply getNextJob_Filed.
  - by eapply completeJob_Filed.
  - by eapply failJob_Filed.
  - match goal with
    | Hget : Queue.getJob _ _ = Some ?j, Hcan : Job.canRetry ?j = true |- _ =>
        rewrite (inv_no_retry s Hinv _ _ Hget) in Hcan; discriminate
    end.
  - by apply processDelayedJobs_Filed.
  - by apply removeJob_Filed.
  - constructor; simpl; try (intros ? ?%elem_of_nil; done).
    intros x job _ H. by rewrite lookup_empty in H.
Qed.

Lemma reachable_Inv_Filed (q : Queue.t) (s : Sys) : reachable q s → Inv s ∧ Filed s.
Proof.
  intros Hreach.
  exact (rtc_ind_r (λ s, Inv s ∧ Filed s) initSys (conj Inv_init Filed_init)
           (λ y z _ Hstep IH,
              conj (step_Inv q y z (proj1 IH) Hstep)
                   (step_Filed q y z (proj1 IH) (proj2 IH) Hstep)) s Hreach).
Qed.

(** Without the condition that operations do not overlap, X9 and X10 below
    fail: after two overlapping sweeps and one lease the id still in
    [waiting] has a record with status active; and when the job leased is
    completed, its record is deleted (default retention), and the next
    [getNextJob] pops the second entry, finds no record and returns nothing
    although [waiting] was not empty. *)
Example records_disagree_on_overlap :
  "job-1" ∈ waiting (store overlappedLeased) ∧
  Job.status <$> jobs (store overlappedLeased) !! "job-1" = Some ACTIVE ∧
  creachable sampleQueue overlappedCompleted ∧
  waiting (Queue.processDelayedJobs 9 (store (c_sys overlappedCompleted))) = ["job-1"] ∧
  (Queue.getNextJob 9 10 (store (c_sys overlappedCompleted))).1 = None.
Proof.
  split_and!.
  - vm_compute. apply list_elem_of_here.
  - vm_compute. reflexivity.
  - apply (acts_creachable sampleQueue [ANext 6 7; AComplete 0 None 8] overlapped);
      [apply overlapped_creachable|]. vm_compute. reflexivity.
  - vm_compute. reflexivity.
  - vm_compute. reflexivity.
Qed.

(** X9: in every state reached by queue operations that do not overlap
    (each runs from its first Redis command to its last before the next
    starts), the record of an id agrees with the structure that holds the
    id: an id in [waiting] has a record with status waiting, an id in
    [active] has a record with status active, and the record of an id in
    [delayed], when there is one, has status delayed. *)
Theorem reachable_records_agree (q : Queue.t) (s : Sys) :
  reachable q s →
  (∀ x, x ∈ waiting (store s) →
     ∃ job, jobs (store s) !! x = Some job ∧ Job.status job = WAITING) ∧
  (∀ x, x ∈ active (store s) →
     ∃ job, jobs (store s) !! x = Some job ∧ Job.status job = ACTIVE) ∧
  (∀ x job, is_Some (delayed (store s) !! x) → jobs (store s) !! x = Some job →
     Job.status job = DELAYED).
Proof.
  intros [_ [Fw Fa Fd]]%reachable_Inv_Filed. split_and!; [| |done].
  - intros x Hx. specialize (Fw x Hx).
    destruct (jobs (store s) !! x) as [job|]; [|done].
    exists job. split; [done|]. by inversion Fw.
  - intros x Hx. specialize (Fa x Hx).
    destruct (jobs (store s) !! x) as [job|]; [|done].
    exists job. split; [done|]. by inversion Fa.
Qed.

Lemma reachable_records_agree_witness :
  ∃ job, jobs (store sysLeased) !! "job-1" = Some job ∧ Job.status job = ACTIVE.
Proof.
  refine (proj1 (proj2 (reachable_records_agree sampleQueue sysLeased
                          (proj1 sysFailed_reachable))) "job-1" _).
  vm_compute. apply list_elem_of_here.
Defined.

(** X10: on a state reached by queue operations that do not overlap, a
    [getNextJob] that is itself not interrupted returns nothing only when
    [waiting] is empty once the due delayed jobs are promoted; otherwise it
    returns the job at the tail of [waiting], marked active at the time read,
    moves its id to the head of [active] and writes the marked job back as
    its record. *)
Theorem getNextJob_reachable (q : Queue.t) (s : Sys) (now tActive : Z) :
  reachable q s →
  let s1 := Queue.processDelayedJobs now (store s) in
  match Queue.getNextJob now tActive (store s) with
  | (None, s') => waiting s1 = [] ∧ s' = s1
  | (Some job, s') =>
      ∃ rest jobData,
        waiting s1 = rest ++ [Job.id job] ∧
        jobs s1 !! Job.id job = Some jobData ∧
        job = Job.markAsActive tActive jobData ∧
        waiting s' = rest ∧
        active s' = Job.id job :: active s1 ∧
        jobs s' = <[Job.id job := job]> (jobs s1) ∧
        delayed s' = delayed s1 ∧ completed s' = completed s1 ∧
        failed s' = failed s1 ∧ stats s' = stats s1
  end.
Proof.
  intros [Hinv Hf]%reachable_Inv_Filed. cbv zeta.
  pose proof (processDelayedJobs_Inv now s Hinv) as Hinv1.
  pose proof (processDelayedJobs_Filed now s Hinv Hf) as [Fw _ _].
  unfold Queue.getNextJob.
  set (s1 := Queue.processDelayedJobs now (store s)) in *. clearbody s1.
  simpl in *.
  destruct (Redis.rpop (waiting s1)) as [[x rest]|] eqn:Hpop.
  - apply rpop_Some in Hpop.
    assert (x ∈ waiting s1) as Hx.
    { rewrite Hpop, elem_of_app, list_elem_of_singleton. by right. }
    specialize (Fw x Hx). inv_unfold.
    destruct (jobs s1 !! x) as [jobData|] eqn:E; [|done].
    pose proof (inv_keyed _ Hinv1 x jobData E) as Hid. simpl in Hid.
    exists rest, jobData. simpl. rewrite Hid. by split_and!.
  - by apply rpop_None in Hpop.
Qed.

Lemma getNextJob_reachable_witness :
  match Queue.getNextJob 1 2 (store sysAdded) with
  | (None, _) => False
  | (Some job, s') => Job.id job = "job-1" ∧ Job.status job = ACTIVE ∧ waiting s' = []
  end.
Proof.
  assert (reachable sampleQueue sysAdded) as Hreach.
  { eapply rtc_l; [|apply rtc_refl].
    apply (step_add sampleQueue initSys "job-1" 0 JNull None None).
    apply not_elem_of_empty. }
  pose proof (getNextJob_reachable sampleQueue sysAdded 1 2 Hreach) as H.
  cbv zeta in H.
  destruct (Queue.getNextJob 1 2 (store sysAdded)) as [[job|] s'].
  - destruct H as (rest & jobData & Hw & _ & -> & Hrest & _).
    change (waiting (Queue.processDelayedJobs 1 (store sysAdded)))
      with ([] ++ ["job-1"]) in Hw.
    apply app_inj_tail in Hw as [<- Hid]. by rewrite <- Hid.
  - destruct H as [H _]. discriminate H.
Defined.

(** ** The retry endpoints *)

(** X11: in every state the queue's clients can reach, the retry endpoint
    re-queues nothing: it answers 404 when the id has no record and 400 when
    it has one, and the store is left as it was.  (A record is written as
    failed only when no attempt is left; a failure that can be retried is
    stored as delayed.) *)
Theorem retryJob_never_requeues (q : Queue.t) (s : Sys) (jobId : string) :
  reachable q s →
  JobController.retryJob jobId (store s)
  = (if Queue.getJob jobId (store s) is Some _ then 400 else 404, store s).
Proof.
  intros Hinv%reachable_Inv. unfold JobController.retryJob.
  destruct (Queue.getJob jobId (store s)) as [job|] eqn:Hget; [|done].
  by rewrite (inv_no_retry s Hinv jobId job Hget).
Qed.

Lemma retryJob_never_requeues_witness :
  JobController.retryJob "job-1" (store sysFailed) = (400, store sysFailed).
Proof.
  apply (retryJob_never_requeues sampleQueue sysFailed "job-1").
  eapply rtc_r; [exact (proj1 sysFailed_reachable)|exact (proj2 sysFailed_reachable)].
Defined.

(** ** The tries of a webhook dispatch *)

Lemma attemptOnce_request (env : Env) (svc : WebhookService.t)
    (webhookConfig : WebhookConfig) (payload : WebhookPayload)
    (attempt maxAttempts : Z) (w : World) :
  let out := WebhookService.attemptOnce env svc webhookConfig payload attempt
               maxAttempts w in
  let req := dispatchRequest svc webhookConfig payload maxAttempts attempt in
  w_sent out.2 = w_sent w ++ [req] ∧
  match out.1.2 with
  | inr result =>
      accepted env (length (w_sent w)) req = true ∧
      WebhookService.success result = true ∧
      WebhookService.attempt result = attempt
  | inl _ => accepted env (length (w_sent w)) req = false
  end.
Proof.
  cbv zeta. unfold WebhookService.attemptOnce, WebhookService.makeHttpRequest,
    axios, dateNow, logger, mbind, M_bind, mret, M_ret, accepted, dispatchRequest.
  simpl. destruct (Axios.settle _); simpl; done.
Qed.

Lemma executeWithRetry_tries (env : Env) (svc : WebhookService.t)
    (webhookConfig : WebhookConfig) (payload : WebhookPayload)
    (attempt maxAttempts : Z) (w : World) :
  let out := WebhookService.executeWithRetry env svc webhookConfig payload
               attempt maxAttempts w in
  let req := dispatchRequest svc webhookConfig payload maxAttempts in
  ∃ n : nat,
    w_sent out.2 = w_sent w ++ (req <$> seqZ attempt (Z.of_nat (S n))) ∧
    WebhookService.attempt out.1 = attempt + Z.of_nat n ∧
    Z.of_nat n ≤ Z.max 0 (maxAttempts - attempt) ∧
    (∀ i : nat, (i < n)%nat →
       accepted env (length (w_sent w) + i) (req (attempt + Z.of_nat i)) = false) ∧
    WebhookService.success out.1
    = accepted env (length (w_sent w) + n) (req (attempt + Z.of_nat n)) ∧
    (WebhookService.success out.1 = false →
     Z.of_nat n = Z.max 0 (maxAttempts - attempt)).
Proof.
  cbv zeta.
  funelim (WebhookService.executeWithRetry env svc webhookConfig payload
             attempt maxAttempts w).
  all: pose proof (attemptOnce_request env svc webhookConfig payload attempt
                     maxAttempts w) as Hone; cbv zeta in Hone.
  all: match goal with
       | E : WebhookService.attemptOnce _ _ _ _ _ _ _ = _ |- _ => rewrite E in Hone
       end; simpl in Hone.
  - destruct Hone as (Hsent & Hacc & Hsucc & Hatt).
    exists 0%nat. simpl. rewrite Nat.add_0_r, Z.add_0_r.
    split_and!; [done|done|lia| |congruence|congruence].
    intros i Hi. lia.
  - destruct Hone as (Hsent & Hacc).
    unfold mbind, M_bind, dateNow, logger, mathRandom, sleep in *. simpl in *.
    match goal with |- context [WebhookService.executeWithRetry _ _ _ _ _ _ ?w3] =>
      destruct (H 0%Q w tt w3) as (n & Hs & Hatt & Hn & Hrej & Hsucc & Hfail) end.
    simpl in *. exists (S n). split_and!.
    + rewrite Hs, Hsent, <- app_assoc. f_equal.
      rewrite (seqZ_cons attempt) by lia. simpl. do 3 f_equal; lia.
    + rewrite Hatt. lia.
    + lia.
    + intros [|i] Hi.
      * by rewrite Nat.add_0_r, Z.add_0_r.
      * rewrite Hsent, length_app in Hrej. simpl in Hrej.
        specialize (Hrej i ltac:(lia)).
        replace (length (w_sent w) + S i)%nat with (length (w_sent w) + 1 + i)%nat by lia.
        replace (attempt + Z.of_nat (S i)) with (attempt + 1 + Z.of_nat i) by lia.
        done.
    + rewrite Hsucc, Hsent, length_app. simpl.
      replace (length (w_sent w) + S n)%nat with (length (w_sent w) + 1 + n)%nat by lia.
      replace (attempt + Z.of_nat (S n)) with (attempt + 1 + Z.of_nat n) by lia.
      done.
    + intros Hf. specialize (Hfail Hf). lia.
  - destruct Hone as (Hsent & Hacc).
    unfold mbind, M_bind, mret, M_ret, dateNow, logger in *. simpl in *.
    exists 0%nat. simpl. rewrite Nat.add_0_r, Z.add_0_r.
    split_and!; [done|done|lia| |congruence|lia].
    intros i Hi. lia.
Qed.

Lemma executeWebhook_unfold (env : Env) (svc : WebhookService.t)
    (event : WebhookEvent) (webhookConfig : WebhookConfig) (w : World) :
  WebhookService.executeWebhook env svc event webhookConfig w
  = WebhookService.executeWithRetry env svc webhookConfig (snapshot svc event w) 1
      (num_or (wh_retryAttempts webhookConfig) (WebhookService.maxRetries svc)) w.
Proof. reflexivity. Qed.

(** X12: a webhook dispatch sends at least one request and at most
    max(1, N), N being the webhook's [retryAttempts] or, when that is absent
    or 0, the service default.  The requests before the last were all
    rejected; the dispatch reports success exactly when the last request was
    accepted (a 2xx answer), reports the number of requests sent as
    [attempt], and reports failure only when max(1, N) requests were sent. *)
Theorem webhook_dispatch_tries (env : Env) (svc : WebhookService.t)
    (event : WebhookEvent) (webhookConfig : WebhookConfig) (w : World) :
  let out := WebhookService.executeWebhook env svc event webhookConfig w in
  let maxAttempts :=
    num_or (wh_retryAttempts webhookConfig) (WebhookService.maxRetries svc) in
  let req := dispatchRequest svc webhookConfig (snapshot svc event w) maxAttempts in
  ∃ n : nat,
    length (w_sent out.2) = (length (w_sent w) + S n)%nat ∧
    Z.of_nat (S n) ≤ Z.max 1 maxAttempts ∧
    WebhookService.attempt out.1 = Z.of_nat (S n) ∧
    (∀ i : nat, (i < n)%nat →
       accepted env (length (w_sent w) + i) (req (Z.of_nat (S i))) = false) ∧
    WebhookService.success out.1
    = accepted env (length (w_sent w) + n) (req (Z.of_nat (S n))) ∧
    (WebhookService.success out.1 = false → Z.of_nat (S n) = Z.max 1 maxAttempts).
Proof.
  cbv zeta. rewrite executeWebhook_unfold.
  destruct (executeWithRetry_tries env svc webhookConfig (snapshot svc event w) 1
              (num_or (wh_retryAttempts webhookConfig) (WebhookService.maxRetries svc))
              w) as (n & Hs & Hatt & Hn & Hrej & Hsucc & Hfail).
  exists n. split_and!.
  - rewrite Hs, length_app, length_fmap, length_seqZ. lia.
  - lia.
  - rewrite Hatt. lia.
  - intros i Hi. specialize (Hrej i Hi).
    by replace (Z.of_nat (S i)) with (1 + Z.of_nat i) by lia.
  - rewrite Hsucc. by replace (Z.of_nat (S n)) with (1 + Z.of_nat n) by lia.
  - intros Hf. specialize (Hfail Hf). lia.
Qed.

(** X13: the requests of one dispatch differ in the two top-level
    properties [attempt] (1, 2, ...) and nowhere else: each goes to the
    webhook's url with its method (POST when absent), its timeout (the
    service's when absent or 0) and its headers over the two defaults, and
    each carries the event, the job as it was when the dispatch began and
    the time the dispatch began as [timestamp], also on later tries. *)
Theorem webhook_dispatch_requests (env : Env) (svc : WebhookService.t)
    (event : WebhookEvent) (webhookConfig : WebhookConfig) (w : World) :
  let out := WebhookService.executeWebhook env svc event webhookConfig w in
  let maxAttempts :=
    num_or (wh_retryAttempts webhookConfig) (WebhookService.maxRetries svc) in
  let job := w_job w in
  ∃ new,
    w_sent out.2 = w_sent w ++ new ∧
    wb_attempt ∘ Axios.data <$> new = seqZ 1 (Z.of_nat (length new)) ∧
    Forall (λ r,
      Axios.url r = wh_url webhookConfig ∧
      Axios.method r = default POST (wh_method webhookConfig) ∧
      Axios.timeout r = num_or (wh_timeout webhookConfig) (WebhookService.timeout svc) ∧
      Axios.headers r
      = default ∅ (wh_headers webhookConfig) ∪
        {["Content-Type" := "application/json";
          "User-Agent" := "Queue-Service-Webhook/1.0"]} ∧
      wb_event (Axios.data r) = event ∧
      wb_timestamp (Axios.data r) = w_clock w ∧
      wb_maxAttempts (Axios.data r) = maxAttempts ∧
      wb_job (Axios.data r)
      = mkPayloadJob (Job.id job) (Job.queueName job) (Job.status job)
          (Job.data job) (Job.result job) (Job.error job) (Job.attempts job)
          (Job.maxAttempts job) (Job.createdAt job) (Job.processedAt job)
          (Job.completedAt job) (Job.failedAt job)) new.
Proof.
  cbv zeta. rewrite executeWebhook_unfold.
  destruct (executeWithRetry_tries env svc webhookConfig (snapshot svc event w) 1
              (num_or (wh_retryAttempts webhookConfig) (WebhookService.maxRetries svc))
              w) as (n & Hs & _).
  eexists. split; [exact Hs|]. split.
  - rewrite length_fmap, <- list_fmap_compose.
    rewrite length_seqZ, Z2Nat.id by lia.
    change (id <$> seqZ 1 (Z.of_nat (S n)) = seqZ 1 (Z.of_nat (S n))).
    apply list_fmap_id.
  - apply Forall_fmap, Forall_forall. intros a _. simpl.
    by split_and!.
Qed.

(** ** The notifications of [Worker.processJob] *)

Lemma failJob_job (q : Queue.t) (job : Job.t) (error : string) (tFailed now : Z)
    (rnd : Q) (s : Store) :
  (Queue.failJob q job error tFailed now rnd s).1
  = if Job.attempts job + 1 <? Job.maxAttempts job
    then Job.set_status DELAYED (Job.markAsFailed error tFailed job)
    else Job.markAsFailed error tFailed job.
Proof.
  unfold Queue.failJob. rewrite canRetry_markAsFailed.
  by destruct (Job.attempts job + 1 <? Job.maxAttempts job).
Qed.

Lemma failJob_job_canRetry (q : Queue.t) (job : Job.t) (error : string)
    (tFailed now : Z) (rnd : Q) (s : Store) :
  Job.canRetry (Queue.failJob q job error tFailed now rnd s).1 = false.
Proof.
  rewrite failJob_job.
  destruct (Job.attempts job + 1 <? Job.maxAttempts job) eqn:E.
  - apply canRetry_set_status_delayed.
  - by rewrite canRetry_markAsFailed.
Qed.

Lemma worker_executeWebhook_sent (env : Env) (svc : WebhookService.t)
    (event : WebhookEvent) (webhookConfig : WebhookConfig) (w : World) :
  Job.webhook (w_job w) = Some webhookConfig →
  ∃ n : nat,
    w_sent (Worker.executeWebhook env svc event w).2
    = w_sent w ++
      (dispatchRequest svc webhookConfig (snapshot svc event w)
         (num_or (wh_retryAttempts webhookConfig) (WebhookService.maxRetries svc))
       <$> seqZ 1 (Z.of_nat (S n))).
Proof.
  intros Hweb. unfold Worker.executeWebhook, mbind, M_bind, theJob. simpl.
  rewrite Hweb. unfold logger at 1. simpl. rewrite executeWebhook_unfold.
  match goal with |- context [WebhookService.executeWithRetry ?e ?s ?c ?p ?a ?m ?w0] =>
    destruct (executeWithRetry_tries e s c p a m w0) as (n & Hs & _);
    destruct (WebhookService.executeWithRetry e s c p a m w0) as [result w1]
  end.
  simpl in Hs. exists n.
  destruct (WebhookService.success result); simpl; exact Hs.
Qed.

(** X14: when the processor of a job with a webhook throws, [processJob]
    dispatches the job.failed webhook after every failure, not only after the
    last one: the guard [!job.canRetry()] is read after [failJob] has set the
    status of a job that will be retried to delayed, so it never holds back.
    The payload shows the job with the failed attempt counted and with status
    delayed when attempts remain, failed otherwise. *)
Theorem processJob_failure_notifies (env : Env) (svc : WebhookService.t)
    (q : Queue.t) (processor : Worker.Processor) (w : World)
    (webhookConfig : WebhookConfig) (errorMessage : string) :
  Job.webhook (w_job w) = Some webhookConfig →
  processor (w_job w) = inl errorMessage →
  let job := w_job w in
  ∃ new,
    w_sent (Worker.processJob env svc q processor w).2 = w_sent w ++ new ∧
    (1 ≤ length new)%nat ∧
    Forall (λ r,
      Axios.url r = wh_url webhookConfig ∧
      wb_event (Axios.data r) = JobFailedEvent ∧
      pj_id (wb_job (Axios.data r)) = Job.id job ∧
      pj_error (wb_job (Axios.data r)) = Some errorMessage ∧
      pj_attempts (wb_job (Axios.data r)) = Job.attempts job + 1 ∧
      pj_status (wb_job (Axios.data r))
      = if Job.attempts job + 1 <? Job.maxAttempts job then DELAYED else FAILED) new.
Proof.
  intros Hweb Hproc. cbv zeta.
  unfold Worker.processJob, mbind, M_bind, theJob. simpl. rewrite Hproc.
  simpl.
  unfold Worker.failJob. simpl.
  match goal with |- context [Queue.failJob ?a ?b ?c ?d ?e ?f ?g] =>
    pose proof (failJob_job a b c d e f g) as Hjob;
    pose proof (failJob_job_canRetry a b c d e f g) as Hcan;
    destruct (Queue.failJob a b c d e f g) as [job' s']
  end.
  simpl in *.
  assert (Job.webhook job' = Some webhookConfig) as Hweb'.
  { rewrite Hjob. by destruct (Job.attempts (w_job w) + 1 <? Job.maxAttempts (w_job w)). }
  rewrite Hweb', Hcan. simpl.
  match goal with |- context [Worker.executeWebhook ?e ?s ?ev ?w0] =>
    destruct (worker_executeWebhook_sent e s ev webhookConfig w0 Hweb') as (n & Hs)
  end.
  simpl in Hs. eexists. split; [exact Hs|]. split.
  - rewrite length_fmap, length_seqZ. lia.
  - apply Forall_fmap, Forall_forall. intros a _. simpl. rewrite Hjob.
    by destruct (Job.attempts (w_job w) + 1 <? Job.maxAttempts (w_job w)).
Qed.

Lemma processJob_failure_notifies_witness :
  ∃ new,
    w_sent (Worker.processJob always500 (WebhookService.new_ defaultConfig)
              sampleQueue throwing hookedWorld).2 = w_sent hookedWorld ++ new ∧
    (1 ≤ length new)%nat ∧
    Forall (λ r,
      Axios.url r = "http://hook/" ∧
      wb_event (Axios.data r) = JobFailedEvent ∧
      pj_id (wb_job (Axios.data r)) = "job-3" ∧
      pj_error (wb_job (Axios.data r)) = Some "boom" ∧
      pj_attempts (wb_job (Axios.data r)) = 1 ∧
      pj_status (wb_job (Axios.data r)) = DELAYED) new.
Proof.
  exact (processJob_failure_notifies always500 (WebhookService.new_ defaultConfig)
           sampleQueue throwing hookedWorld twoTries "boom" eq_refl eq_refl).
Defined.

(** X15: when the processor of a job with a webhook returns, [processJob]
    dispatches the job.completed webhook; the payload shows the job as
    [completeJob] left it: status completed, the processor's result and the
    completion time. *)
Theorem processJob_success_notifies (env : Env) (svc : WebhookService.t)
    (q : Queue.t) (processor : Worker.Processor) (w : World)
    (webhookConfig : WebhookConfig) (result : option json) :
  Job.webhook (w_job w) = Some webhookConfig →
  processor (w_job w) = inr result →
  let job := w_job w in
  ∃ new,
    w_sent (Worker.processJob env svc q processor w).2 = w_sent w ++ new ∧
    (1 ≤ length new)%nat ∧
    Forall (λ r,
      Axios.url r = wh_url webhookConfig ∧
      wb_event (Axios.data r) = JobCompletedEvent ∧
      pj_id (wb_job (Axios.data r)) = Job.id job ∧
      pj_status (wb_job (Axios.data r)) = COMPLETED ∧
      pj_result (wb_job (Axios.data r)) = result ∧
      pj_completedAt (wb_job (Axios.data r)) = Some (w_clock w) ∧
      pj_attempts (wb_job (Axios.data r)) = Job.attempts job) new.
Proof.
  intros Hweb Hproc. cbv zeta.
  unfold Worker.processJob, mbind, M_bind, theJob. simpl. rewrite Hproc.
  simpl. rewrite Hweb.
  match goal with |- context [Worker.executeWebhook ?e ?s ?ev ?w0] =>
    destruct (worker_executeWebhook_sent e s ev webhookConfig w0 Hweb) as (n & Hs)
  end.
  simpl in Hs. eexists. split; [exact Hs|]. split.
  - rewrite length_fmap, length_seqZ. lia.
  - apply Forall_fmap, Forall_forall. intros a _. by simpl.
Qed.

Lemma processJob_success_notifies_witness :
  ∃ new,
    w_sent (Worker.processJob always500 (WebhookService.new_ defaultConfig)
              sampleQueue returning hookedWorld).2 = w_sent hookedWorld ++ new ∧
    (1 ≤ length new)%nat ∧
    Forall (λ r,
      Axios.url r = "http://hook/" ∧
      wb_event (Axios.data r) = JobCompletedEvent ∧
      pj_id (wb_job (Axios.data r)) = "job-3" ∧
      pj_status (wb_job (Axios.data r)) = COMPLETED ∧
      pj_result (wb_job (Axios.data r)) = Some (JNum 7) ∧
      pj_completedAt (wb_job (Axios.data r)) = Some 10 ∧
      pj_attempts (wb_job (Axios.data r)) = 0) new.
Proof.
  exact (processJob_success_notifies always500 (WebhookService.new_ defaultConfig)
           sampleQueue returning hookedWorld twoTries (Some (JNum 7)) eq_refl eq_refl).
Defined.

(** X16: for a job without a webhook [processJob] sends no request,
    whether the processor returns or throws. *)
Theorem processJob_without_webhook (env : Env) (svc : WebhookService.t)
    (q : Queue.t) (processor : Worker.Processor) (w : World) :
  Job.webhook (w_job w) = None →
  w_sent (Worker.processJob env svc q processor w).2 = w_sent w.
Proof.
  intros Hweb. unfold Worker.processJob, mbind, M_bind, theJob. simpl.
  destruct (processor (w_job w)) as [errorMessage|result]; simpl.
  - unfold Worker.failJob. simpl.
    match goal with |- context [Queue.failJob ?a ?b ?c ?d ?e ?f ?g] =>
      pose proof (failJob_job a b c d e f g) as Hjob;
      destruct (Queue.failJob a b c d e f g) as [job' s']
    end.
    simpl in *.
    assert (Job.webhook job' = None) as ->; [|done].
    rewrite Hjob. by destruct (Job.attempts (w_job w) + 1 <? Job.maxAttempts (w_job w)).
  - by rewrite Hweb.
Qed.

Lemma processJob_without_webhook_witness :
  w_sent (Worker.processJob always500 (WebhookService.new_ defaultConfig)
            sampleQueue throwing
            (mkWorld emptyStore sampleJob 10 [] [] 0)).2 = [].
Proof.
  exact (processJob_without_webhook always500 (WebhookService.new_ defaultConfig)
           sampleQueue throwing (mkWorld emptyStore sampleJob 10 [] [] 0) eq_refl).
Defined.

(** ** HTTP tasks *)

(** X17: an HTTP task is completed exactly when its endpoint answers with a
    status from 200 to 299; the job then keeps its attempts and gets the
    status, the data and the duration of the answer as its result.  Any other
    answer, and no answer, is a failed attempt: attempts + 1, the error text
    "HTTP <status>: <statusText>" or the transport error ("Unknown error"
    when that is empty), and the job is delayed for a retry while attempts
    remain, failed otherwise.  In both cases one occurrence of the id leaves
    [active]. *)
Theorem processHttpTask_outcome (q : Queue.t)
    (net : Axios.Request json → Axios.NetOutcome)
    (httpTask : HttpTaskWorker.HttpTaskPayload) (job : Job.t)
    (startTime tAnswer tSettled now : Z) (rnd : Q) (s : Store) :
  let out := processHttpTask q net httpTask job startTime tAnswer tSettled now rnd s in
  let failedWith (e : string) :=
    Job.error out.1 = Some e ∧ Job.attempts out.1 = Job.attempts job + 1 ∧
    Job.failedAt out.1 = Some tSettled ∧
    Job.status out.1
    = (if Job.attempts job + 1 <? Job.maxAttempts job then DELAYED else FAILED) in
  active out.2 = (Redis.lrem 1 (Job.id job) (active s)).2 ∧
  match net (HttpTaskWorker.requestOf httpTask job) with
  | Axios.Responded r =>
      if decide (200 ≤ Axios.status r < 300) then
        Job.status out.1 = COMPLETED ∧ Job.attempts out.1 = Job.attempts job ∧
        Job.completedAt out.1 = Some tSettled ∧
        Job.result out.1
        = Some (JObj [("statusCode", JNum (Axios.status r));
                      ("responseData", Axios.rdata r);
                      ("duration", JNum (tAnswer - startTime))])
      else
        failedWith ("HTTP " +:+ pretty (Axios.status r) +:+ ": " +:+ Axios.statusText r)
  | Axios.NoResponse m =>
      failedWith (if decide (m = EmptyString) then "Unknown error" else m)
  end.
Proof.
  cbv zeta. unfold processHttpTask, HttpTaskWorker.makeHttpRequest. simpl.
  assert (∀ e, active (Queue.failJob q job e tSettled now rnd s).2
               = (Redis.lrem 1 (Job.id job) (active s)).2) as Hact.
  { intros e. unfold Queue.failJob. rewrite canRetry_markAsFailed.
    destruct (Job.attempts job + 1 <? Job.maxAttempts job) eqn:E.
    - rewrite canRetry_set_status_delayed. rewrite andb_true_r. inv_unfold.
      by destruct (truthy (removeOnFail (Queue.options q))).
    - rewrite canRetry_markAsFailed, E. rewrite andb_true_r. inv_unfold.
      by destruct (truthy (removeOnFail (Queue.options q))). }
  assert (∀ e, let j := (Queue.failJob q job e tSettled now rnd s).1 in
               Job.error j = Some e ∧ Job.attempts j = Job.attempts job + 1 ∧
               Job.failedAt j = Some tSettled ∧
               Job.status j
               = (if Job.attempts job + 1 <? Job.maxAttempts job
                  then DELAYED else FAILED)) as Hjob.
  { intros e. cbv zeta. rewrite failJob_job.
    by destruct (Job.attempts job + 1 <? Job.maxAttempts job). }
  destruct (net (HttpTaskWorker.requestOf httpTask job)) as [r|m]; simpl.
  - unfold Axios.validateStatus.
    destruct (decide (200 ≤ Axios.status r < 300)) as [Hok|Hno].
    + assert ((200 <=? Axios.status r) && (Axios.status r <? 300) = true) as ->.
      { apply andb_true_iff. split; [apply Z.leb_le|apply Z.ltb_lt]; lia. }
      split; [|done]. unfold Queue.completeJob. inv_unfold.
      by destruct (truthy (removeOnComplete (Queue.options q))).
    + assert ((200 <=? Axios.status r) && (Axios.status r <? 300) = false) as ->.
      { apply andb_false_iff. rewrite Z.leb_gt, Z.ltb_ge. lia. }
      split; [apply Hact|apply Hjob].
  - split; [apply Hact|apply Hjob].
Qed.

(** ** The counters of the stats hash *)

Lemma counter_hincrby (f g : string) (n : Z) (s : Store) :
  counter f (Queue.updateStats g n s)
  = counter f s + (if decide (f = g) then n else 0).
Proof.
  unfold counter, Queue.updateStats, Redis.hincrby. simpl.
  destruct (decide (f = g)) as [->|Hne].
  - by rewrite lookup_insert_eq.
  - rewrite lookup_insert_ne by done. lia.
Qed.

Lemma failJob_stats (q : Queue.t) (job : Job.t) (error : string) (tFailed now : Z)
    (rnd : Q) (s : Store) :
  stats (Queue.failJob q job error tFailed now rnd s).2
  = if Job.attempts job + 1 <? Job.maxAttempts job then stats s
    else Redis.hincrby "failedJobs" 1 (stats s).
Proof.
  unfold Queue.failJob. rewrite canRetry_markAsFailed.
  destruct (Job.attempts job + 1 <? Job.maxAttempts job) eqn:E.
  - rewrite canRetry_set_status_delayed. inv_unfold.
    by destruct (truthy (removeOnFail (Queue.options q))).
  - rewrite canRetry_markAsFailed, E. inv_unfold.
    by destruct (truthy (removeOnFail (Queue.options q))).
Qed.

Lemma getNextJob_stats (now tActive : Z) (s : Store) :
  stats (Queue.getNextJob now tActive s).2 = stats s.
Proof.
  unfold Queue.getNextJob.
  destruct (Redis.rpop _) as [[x rest]|]; simpl; [|apply processDelayedJobs_stats].
  destruct (jobs _ !! x); simpl; apply processDelayedJobs_stats.
Qed.

Lemma runOp_counter (q : Queue.t) (f : string) (o : Op) (s : Store) :
  notClean o → counter f (runOp q o s).2 = counter f s + tally f o.
Proof.
  intros Hnc. destruct o as [job|now tActive|job res tDone|job e tF now rnd|now|x|];
    simpl; try done.
  - unfold Queue.addJob.
    destruct (decide (Job.status job = DELAYED)); by rewrite counter_hincrby.
  - unfold counter. rewrite getNextJob_stats. lia.
  - unfold Queue.completeJob. simpl. rewrite counter_hincrby. unfold counter.
    by destruct (truthy (removeOnComplete (Queue.options q))).
  - unfold counter. rewrite failJob_stats.
    destruct (Job.attempts job + 1 <? Job.maxAttempts job).
    + destruct (decide (f = "failedJobs")); lia.
    + apply (counter_hincrby f "failedJobs" 1 s).
  - unfold counter. rewrite processDelayedJobs_stats. lia.
  - unfold counter, Queue.removeJob. simpl. lia.
Qed.

(** X18: over any run of queue operations without [clean], the counter
    totalJobs grows by the number of [addJob] calls, completedJobs by the
    number of [completeJob] calls and failedJobs by the number of [failJob]
    calls that left the job no attempt; a failure that is retried,
    [getNextJob], [processDelayedJobs] and [removeJob] change no counter, and
    no other field of the stats hash is ever written. *)
Theorem stats_count_operations (q : Queue.t) (field : string) (ops : list Op)
    (s : Store) :
  Forall notClean ops →
  counter field (runOps q ops s).2
  = counter field s + foldr Z.add 0 (tally field <$> ops).
Proof.
  revert s. induction ops as [|o ops IH]; intros s Hnc; simpl; [lia|].
  apply Forall_cons in Hnc as [Ho Hnc].
  pose proof (runOp_counter q field o s Ho) as Hstep.
  destruct (runOp q o s) as [r s1]. simpl in Hstep.
  specialize (IH s1 Hnc). destruct (runOps q ops s1) as [rs s2]. simpl in *.
  rewrite IH, Hstep. symmetry. apply Z.add_assoc.
Qed.

Lemma stats_count_operations_witness :
  counter "failedJobs"
    (runOps sampleQueue
       [OpAdd jobA; OpNext 1 2; OpFail (Job.markAsActive 2 jobA) "boom" 3 4 (1 # 2);
        OpRemove "b"]
       emptyStore).2 = 0.
Proof.
  apply (stats_count_operations sampleQueue "failedJobs"
           [OpAdd jobA; OpNext 1 2; OpFail (Job.markAsActive 2 jobA) "boom" 3 4 (1 # 2);
            OpRemove "b"] emptyStore).
  repeat constructor.
Defined.

(** ** A new job's own readiness and the sweep *)

(** X19: for a job built by the constructor at a time [t0 >= 0] and added to
    the queue, the job's own [isReadyToProcess] at a time [now] holds exactly
    when a sweep at [now] leaves its id in [waiting]: a job without a
    positive delay is ready and waiting at once, a delayed one from
    [t0 + delay] on, which is the score [addJob] files it under. *)
Theorem new_job_ready_iff_waiting (uuid queueName : string) (t0 now : Z)
    (data : json) (options : option JobOptions) (webhook : option WebhookConfig)
    (s : Store) :
  0 ≤ t0 → uuid ∉ waiting s →
  let job := Job.new_ uuid t0 queueName data options webhook in
  isReadyToProcess now job = true
  ↔ uuid ∈ waiting (Queue.processDelayedJobs now (Queue.addJob job s)).
Proof.
  intros Ht0 Hfresh. cbv zeta.
  set (job := Job.new_ uuid t0 queueName data options webhook).
  unfold Queue.processDelayedJobs. rewrite sweep_waiting.
  rewrite elem_of_app, elem_of_reverse, list_elem_of_filter, due_ready.
  rewrite addJob_jobs.
  change (Job.id job) with uuid. rewrite lookup_insert_eq.
  unfold isReadyToProcess.
  destruct (decide (Job.status job = DELAYED)) as [Hd|Hd].
  - rewrite (bool_decide_eq_true_2 _ Hd). simpl negb. cbv iota.
    unfold Queue.addJob. rewrite decide_True by done. inv_unfold.
    unfold due. simpl. rewrite lookup_insert_eq.
    change (Job.getScheduledTime job) with (t0 + num_or (jo_delay (Job.options job)) 0).
    change (Job.createdAt job) with t0.
    assert (0 ≤ num_or (jo_delay (Job.options job)) 0) as Hdelay.
    { subst job. simpl in *. unfold num_or.
      destruct (jo_delay (default noJobOptions options)) as [d|]; [|done].
      destruct (0 <? d) eqn:E; [|done]. apply Z.ltb_lt in E.
      destruct (d =? 0); lia. }
    change (Job.options job) with (default noJobOptions options) in *.
    rewrite Z.leb_le. split.
    + intros Hle. left. split; [eauto|]. eexists. split; [done|lia].
    + intros [[_ (sc & [= <-] & _ & Hle)]|Hin]; [done|]. exfalso. apply Hfresh.
      by revert Hin.
  - rewrite (bool_decide_eq_false_2 _ Hd). simpl negb. cbv iota.
    destruct (addJob_not_delayed job s Hd) as [Hw _]. rewrite Hw.
    assert (Job.status job = WAITING) as Hst.
    { destruct (new_job_status uuid t0 queueName data options webhook); done. }
    rewrite (bool_decide_eq_true_2 _ Hst). split; [|done].
    intros _. right. by left.
Qed.

Lemma new_job_ready_iff_waiting_witness :
  isReadyToProcess 2 (Job.new_ "job-1" 0 "mail" JNull
                        (Some (mkJobOptions None (Some 3) None None None)) None) = true
  ↔ "job-1" ∈ waiting (Queue.processDelayedJobs 2 storeDue).
Proof.
  apply (new_job_ready_iff_waiting "job-1" "mail" 0 2 JNull
           (Some (mkJobOptions None (Some 3) None None None)) None emptyStore).
  - lia.
  - apply not_elem_of_nil.
Defined.

(** ** Records in Redis *)

(** X20: a job read back from its stored form is the job that was stored:
    [fromJSON] of [toJSON] of a job is that job, whatever uuid and clock
    reading the constructor that [fromJSON] runs comes up with. *)
Theorem fromJSON_toJSON (uuid : string) (now : Z) (j : Job.t) :
  fromJSON uuid now (toJSON j) = j.
Proof.
  destruct j as [i qn d o st pr res err att mx cr pa ca fa wh].
  unfold fromJSON, toJSON. simpl.
  by destruct pa, ca, fa.
Qed.

(** ** Configuration *)

(** X21: [validateConfig] throws exactly when API_TOKEN is unset or empty,
    and then names API_TOKEN alone: REDIS_HOST is never reported, since the
    configuration falls back to localhost before the check. *)
Theorem validateConfig_api_token (env : gmap string string) :
  validateConfig env
  = if decide (env !! "API_TOKEN" = None ∨ env !! "API_TOKEN" = Some EmptyString)
    then Some "Missing required environment variables: API_TOKEN"
    else None.
Proof.
  unfold validateConfig, config_redis_host, config_auth_apiToken, env_or.
  assert (∀ h, h ≠ EmptyString →
            filter (λ item : string * string, item.2 = EmptyString)
              [("REDIS_HOST", h); ("API_TOKEN", EmptyString)]
            = [("API_TOKEN", EmptyString)]) as Hmiss.
  { intros h Hh. rewrite filter_cons, decide_False by done.
    by rewrite filter_cons, decide_True. }
  assert (∀ h t, h ≠ EmptyString → t ≠ EmptyString →
            filter (λ item : string * string, item.2 = EmptyString)
              [("REDIS_HOST", h); ("API_TOKEN", t)] = []) as Hok.
  { intros h t Hh Ht. rewrite filter_cons, decide_False by done.
    by rewrite filter_cons, decide_False. }
  assert (∃ h, h ≠ EmptyString ∧
            match env !! "REDIS_HOST" with
            | Some v => if decide (v = EmptyString) then "localhost" else v
            | None => "localhost"
            end = h) as (h & Hh & ->).
  { destruct (env !! "REDIS_HOST") as [v|]; [|by exists "localhost"].
    destruct (decide (v = EmptyString)); [by exists "localhost"|by exists v]. }
  destruct (env !! "API_TOKEN") as [t|] eqn:E.
  - destruct (decide (t = EmptyString)) as [->|Ht].
    + rewrite Hmiss by done. rewrite decide_True by (by right). done.
    + rewrite Hok by done. rewrite decide_False; [done|].
      intros [?|[= ?]]; done.
  - rewrite Hmiss by done. rewrite decide_True by (by left). done.
Qed.

(** ** The queue manager *)

(** X22: [createQueue] on a name that is registered returns the queue made
    first and changes nothing; the options of the later call are dropped.  So
    two calls in a row give the queue of the first call, with its options. *)
Theorem createQueue_keeps_first (cfg : Config) (name : string)
    (o1 o2 : option QueueOptions) (m : QueueManager.t) :
  let first := QueueManager.createQueue cfg name o1 m in
  QueueManager.createQueue cfg name o2 first.2 = first ∧
  QueueManager.getQueue name first.2 = Some first.1 ∧
  (QueueManager.getQueue name m = None → first.1 = Queue.new_ cfg name o1).
Proof.
  cbv zeta. unfold QueueManager.createQueue, QueueManager.getQueue.
  destruct (QueueManager.queues m !! name) as [queue|] eqn:E; simpl.
  - by rewrite E.
  - by rewrite lookup_insert_eq.
Qed.

(** X23: a queue has at most one worker at a time, of either type: while a
    worker is recorded for the queue, [startWorker] and [startHttpWorker]
    start nothing and leave the manager as it is, and neither answers true;
    a call that answers true found no worker and records exactly one, of its
    own type. *)
Theorem one_worker_per_queue (queueName : string) (m : QueueManager.t) :
  (is_Some (QueueManager.workers m !! queueName) →
   (QueueManager.startWorker queueName m).2 = m ∧
   (QueueManager.startWorker queueName m).1 ≠ inr true ∧
   (QueueManager.startHttpWorker queueName m).2 = m ∧
   (QueueManager.startHttpWorker queueName m).1 ≠ inr true) ∧
  ((QueueManager.startWorker queueName m).1 = inr true →
   QueueManager.workers m !! queueName = None ∧
   QueueManager.workers (QueueManager.startWorker queueName m).2 !! queueName
   = Some QueueManager.PROCESSOR) ∧
  ((QueueManager.startHttpWorker queueName m).1 = inr true →
   QueueManager.workers m !! queueName = None ∧
   QueueManager.workers (QueueManager.startHttpWorker queueName m).2 !! queueName
   = Some QueueManager.HTTP).
Proof.
  unfold QueueManager.startWorker, QueueManager.startHttpWorker,
    QueueManager.getQueue.
  destruct (QueueManager.queues m !! queueName) as [queue|];
    destruct (QueueManager.processors m !! queueName) as [p|];
    destruct (QueueManager.workers m !! queueName) as [k|] eqn:E; simpl;
    split_and!; try done; try (by intros [? [=]]%proj1);
    try (intros [? ?]; done); try (intros _; by rewrite lookup_insert_eq).
Qed.

(** X24: [removeQueue] answers true exactly for a registered name; it then
    forgets the queue, its worker and its processor and empties the queue's
    structures in Redis, and leaves every other name alone.  Afterwards the
    name is unknown: [addJob] and [startWorker] throw, a second
    [removeQueue] answers false. *)
Theorem removeQueue_effect (name : string) (m : QueueManager.t) :
  let out := QueueManager.removeQueue name m in
  (out.1 = true ↔ is_Some (QueueManager.getQueue name m)) ∧
  (out.1 = false → out.2 = m) ∧
  (out.1 = true →
   QueueManager.getQueue name out.2 = None ∧
   QueueManager.workers out.2 !! name = None ∧
   QueueManager.processors out.2 !! name = None ∧
   QueueManager.storeOf name out.2 = emptyStore ∧
   (∀ other, other ≠ name →
      QueueManager.getQueue other out.2 = QueueManager.getQueue other m ∧
      QueueManager.workers out.2 !! other = QueueManager.workers m !! other ∧
      QueueManager.processors out.2 !! other = QueueManager.processors m !! other ∧
      QueueManager.storeOf other out.2 = QueueManager.storeOf other m) ∧
   (QueueManager.removeQueue name out.2).1 = false ∧
   (∀ uuid now data options webhook,
      (QueueManager.addJob uuid now name data options webhook out.2).1
      = inl ("Queue '" +:+ name +:+ "' not found")) ∧
   (QueueManager.startWorker name out.2).1
   = inl ("Queue '" +:+ name +:+ "' not found")).
Proof.
  cbv zeta. unfold QueueManager.removeQueue, QueueManager.getQueue,
    QueueManager.addJob, QueueManager.startWorker, QueueManager.getQueue,
    QueueManager.storeOf.
  destruct (QueueManager.queues m !! name) as [queue|] eqn:E; simpl.
  - split_and!; [by split; eauto|done|]. intros _.
    rewrite !lookup_delete_eq, lookup_insert_eq. simpl.
    split_and!; try done.
    + destruct (QueueManager.workers m !! name) eqn:Ew; [apply lookup_delete_eq|done].
    + intros other Hne.
      rewrite !lookup_delete_ne, lookup_insert_ne by done. split_and!; try done.
      destruct (QueueManager.workers m !! name); [by rewrite lookup_delete_ne|done].
  - split_and!; [|done|done]. split; [done|]. by intros [? ?].
Qed.

Lemma one_worker_per_queue_witness :
  (QueueManager.startHttpWorker "mail" mailManager).2 = mailManager ∧
  (QueueManager.startHttpWorker "mail" mailManager).1 ≠ inr true.
Proof.
  assert (is_Some (QueueManager.workers mailManager !! "mail")) as Hw.
  { exists QueueManager.PROCESSOR. vm_compute. reflexivity. }
  exact (proj2 (proj2 (proj1 (one_worker_per_queue "mail" mailManager) Hw))).
Defined.

(** ** Authentication *)

Lemma authMiddleware_next (apiToken : string) (h : AuthHeaders) :
  authMiddleware apiToken h = Next
  ↔ authToken h = Some apiToken ∧ apiToken ≠ EmptyString.
Proof.
  unfold authMiddleware. destruct (authToken h) as [t|]; simpl; [|split; [done|by intros [? ?]]].
  destruct (decide (t = EmptyString)) as [->|Ht]; simpl.
  - split; [done|]. intros [[= <-] Hne]. by destruct Hne.
  - destruct (decide (Some t = Some apiToken)) as [Heq|Hne].
    + rewrite (bool_decide_eq_true_2 _ Heq). simpl. split; [|done].
      intros _. split; [done|]. congruence.
    + rewrite (bool_decide_eq_false_2 _ Hne). simpl. split; [done|]. by intros [? ?].
Qed.

Lemma replace_unfold (pat rep s : string) :
  replace pat rep s
  = if String.prefix pat s then rep +:+ string_drop (String.length pat) s
    else match s with
         | EmptyString => EmptyString
         | String c s' => String c (replace pat rep s')
         end.
Proof. by destruct s. Qed.

Lemma prefix_app (pat t : string) : String.prefix pat (pat +:+ t) = true.
Proof.
  induction pat as [|a pat IH]; simpl; [by destruct t|].
  by destruct (Ascii.ascii_dec a a).
Qed.

Lemma string_drop_app (pat t : string) :
  string_drop (String.length pat) (pat +:+ t) = t.
Proof. induction pat as [|a pat IH]; simpl; done. Qed.

Lemma replace_prefix (pat t : string) : replace pat EmptyString (pat +:+ t) = t.
Proof. by rewrite replace_unfold, prefix_app, string_drop_app. Qed.

(** X25: with a non-empty token [t] after "Bearer " in the Authorization
    header, a request passes the authentication middleware exactly when [t]
    is the configured API token; the X-API-Token header is then not looked
    at, so a request with the right X-API-Token beside a wrong bearer token
    is refused.  Without an Authorization header a request passes exactly
    when its X-API-Token header is the configured, non-empty token.  When the
    configured token is empty, no request passes. *)
Theorem authMiddleware_admits (apiToken : string) (t : string) (x : option string) :
  (t ≠ EmptyString →
   (authMiddleware apiToken (mkAuthHeaders (Some ("Bearer " +:+ t)) x) = Next
    ↔ t = apiToken)) ∧
  (authMiddleware apiToken (mkAuthHeaders None x) = Next
   ↔ x = Some apiToken ∧ apiToken ≠ EmptyString) ∧
  (apiToken = EmptyString → ∀ h, authMiddleware apiToken h ≠ Next).
Proof.
  split_and!.
  - intros Ht. rewrite authMiddleware_next.
    change (authToken (mkAuthHeaders (Some ("Bearer " +:+ t)) x))
      with (str_or (Some (replace "Bearer " EmptyString ("Bearer " +:+ t))) x).
    rewrite replace_prefix. unfold str_or.
    rewrite decide_False by done. split.
    + by intros [[= ->] _].
    + intros <-. done.
  - rewrite authMiddleware_next. unfold authToken. simpl. done.
  - intros -> h [_ Hne]%authMiddleware_next. done.
Qed.

Lemma authMiddleware_admits_witness :
  authMiddleware "s3cret" (mkAuthHeaders (Some "Bearer guess") (Some "s3cret")) ≠ Next.
Proof.
  intros H.
  apply (proj1 (authMiddleware_admits "s3cret" "guess" (Some "s3cret"))) in H;
    discriminate.
Defined.

(** ** Validated webhooks *)

Lemma push_not_nil (errors : list string) (e : string) : errors ++ [e] ≠ [].
Proof. by destruct errors. Qed.

Lemma validateWebhookConfig_nil (webhookConfig : WebhookConfig) :
  validateWebhookConfig webhookConfig = [] →
  httpUrlPattern (wh_url webhookConfig) = true ∧
  (∀ t, wh_timeout webhookConfig = Some t → t = 0 ∨ 1000 ≤ t ≤ 300000) ∧
  (∀ r, wh_retryAttempts webhookConfig = Some r → 0 ≤ r ≤ 10).
Proof.
  unfold validateWebhookConfig.
  destruct webhookConfig as [url method headers timeout retry]. simpl.
  set (e1 := if bool_decide (url = EmptyString) then _ else _).
  set (e2 := match method with Some _ => _ | None => _ end).
  set (e3 := match timeout with Some _ => _ | None => _ end).
  intros H.
  assert (e3 = [] ∧ ∀ r, retry = Some r → 0 ≤ r ≤ 10) as [H3 Hr].
  { destruct retry as [r|]; [|by split].
    destruct (negb (r =? 0) && ((r <? 0) || (10 <? r))) eqn:E;
      [by apply push_not_nil in H|].
    split; [done|]. intros ? [= <-].
    apply andb_false_iff in E as [E|E].
    - apply negb_false_iff, Z.eqb_eq in E. lia.
    - apply orb_false_iff in E as [E1 E2]. apply Z.ltb_ge in E1, E2. lia. }
  assert (e2 = [] ∧ ∀ t, timeout = Some t → t = 0 ∨ 1000 ≤ t ≤ 300000) as [H2 Ht].
  { subst e3. destruct timeout as [t|]; [|by split].
    destruct (negb (t =? 0) && ((t <? 1000) || (300000 <? t))) eqn:E;
      [by apply push_not_nil in H3|].
    split; [done|]. intros ? [= <-].
    apply andb_false_iff in E as [E|E].
    - apply negb_false_iff, Z.eqb_eq in E. by left.
    - apply orb_false_iff in E as [E1 E2]. apply Z.ltb_ge in E1, E2. right. lia. }
  assert (e1 = []) as H1.
  { subst e2. destruct method as [m|]; [|done].
    destruct (negb (bool_decide (m ∈ [POST; PUT; PATCH])));
      [by apply push_not_nil in H2|done]. }
  split_and!; [|done|done].
  subst e1. destruct (bool_decide (url = EmptyString)); [done|].
  by destruct (httpUrlPattern url).
Qed.

(** X26: for a webhook configuration that [validateWebhookConfig] accepts,
    a dispatch sends at most max(10, service default) requests (at least
    one), each to a url of the form http(s)://... and each with a timeout
    between 1000 and 300000 ms or the service's own.  A [retryAttempts] or
    [timeout] of 0 is accepted and then stands for the service default. *)
Theorem validated_webhook_limits (env : Env) (svc : WebhookService.t)
    (event : WebhookEvent) (webhookConfig : WebhookConfig) (w : World) :
  validateWebhookConfig webhookConfig = [] →
  let out := WebhookService.executeWebhook env svc event webhookConfig w in
  ∃ new,
    w_sent out.2 = w_sent w ++ new ∧
    1 ≤ Z.of_nat (length new) ≤ Z.max 1 (Z.max 10 (WebhookService.maxRetries svc)) ∧
    Forall (λ r,
      httpUrlPattern (Axios.url r) = true ∧
      (1000 ≤ Axios.timeout r ≤ 300000 ∨
       Axios.timeout r = WebhookService.timeout svc)) new.
Proof.
  intros (Hurl & Ht & Hr)%validateWebhookConfig_nil. cbv zeta.
  rewrite executeWebhook_unfold.
  destruct (executeWithRetry_tries env svc webhookConfig (snapshot svc event w) 1
              (num_or (wh_retryAttempts webhookConfig) (WebhookService.maxRetries svc))
              w) as (n & Hs & _ & Hn & _).
  eexists. split; [exact Hs|]. split.
  - rewrite length_fmap, length_seqZ.
    assert (num_or (wh_retryAttempts webhookConfig) (WebhookService.maxRetries svc)
            ≤ Z.max 10 (WebhookService.maxRetries svc)) as Hle.
    { unfold num_or. destruct (wh_retryAttempts webhookConfig) as [r|]; [|lia].
      specialize (Hr r eq_refl). destruct (r =? 0); lia. }
    lia.
  - apply Forall_fmap, Forall_forall. intros a _. simpl. split; [done|].
    unfold num_or. destruct (wh_timeout webhookConfig) as [t|]; [|by right].
    destruct (Ht t eq_refl) as [->|Hrange]; [by right|].
    destruct (t =? 0) eqn:E; [by right|by left].
Qed.

Lemma validated_webhook_limits_witness :
  ∃ new,
    w_sent (WebhookService.executeWebhook always500
              (WebhookService.new_ defaultConfig) JobFailedEvent twoTries
              sampleWorld).2 = w_sent sampleWorld ++ new ∧
    1 ≤ Z.of_nat (length new) ≤ 10 ∧
    Forall (λ r,
      httpUrlPattern (Axios.url r) = true ∧
      (1000 ≤ Axios.timeout r ≤ 300000 ∨ Axios.timeout r = 30000)) new.
Proof.
  exact (validated_webhook_limits always500 (WebhookService.new_ defaultConfig)
           JobFailedEvent twoTries sampleWorld eq_refl).
Defined.
